(** * quorate: the rate-limited NationStates client and the trigger matcher

    A shallow embedding of [internal/ns-client/ns-client.go] and of the
    candidate ranking and trigger matching passes of [main] (the main file
    of QUORATE v1.0.4, the one with the look-ahead in the matcher),
    followed by the properties of the design document that can be stated
    over them. The functions of Go's library that the program calls
    ([strconv.Atoi], [strings.Split], [strings.ToLower], [url.QueryEscape],
    [sort.Slice]) are embedded from the library; [httpClient.Do] and
    [xml.Unmarshal] are oracles.

    Conventions.
    - Go's [int] and [int64] are both 64 bits wide here; a value is a [Z]
      and every arithmetic operation is followed by [wrap64].
    - A Go [string] is a [string] of bytes.
    - A Go [error] is an [option string]: [None] is [nil].
    - A function returning [(T, error)] returns a pair.
    - [map[int64]string] is a [gmap Z string]; slices are lists, read with
      [!!] and written with [<[ _ := _ ]>] after the bounds check that Go
      performs. *)

From Stdlib Require Import ZArith Lia Bool List String Ascii.
From Stdlib Require Import Sorting.Sorted Sorting.Permutation.
From stdpp Require Import base option list sorting gmap strings.

Local Open Scope string_scope.
Local Open Scope Z_scope.

(** ** Machine integers *)

Module GoInt.

Definition min_int : Z := - 2 ^ 63.
Definition max_int : Z := 2 ^ 63 - 1.

(** Two's complement reduction of a mathematical integer to 64 bits. *)
Definition wrap64 (z : Z) : Z := (z + 2 ^ 63) mod 2 ^ 64 - 2 ^ 63.

Definition in_range (z : Z) : Prop := min_int <= z <= max_int.

Definition add (a b : Z) : Z := wrap64 (a + b).
Definition sub (a b : Z) : Z := wrap64 (a - b).
Definition mul (a b : Z) : Z := wrap64 (a * b).
(** [a / b] for [b <> 0]: truncated towards zero; [min_int / -1] wraps. *)
Definition quo (a b : Z) : Z := wrap64 (Z.quot a b).
(** [-a]; [-min_int] wraps to [min_int]. *)
Definition neg64 (a : Z) : Z := wrap64 (- a).

End GoInt.

(** ** The pieces of [strings] and [strconv] that the program calls *)

Module GoStrings.

Definition is_upper (c : ascii) : bool :=
  let n := nat_of_ascii c in (65 <=? n)%nat && (n <=? 90)%nat.

Definition lower_byte (c : ascii) : ascii :=
  if is_upper c then ascii_of_nat (nat_of_ascii c + 32) else c.

(** [strings.ToLower] on a string of ASCII bytes, the first branch of the
    library function: the bytes [A-Z] are lowered, the others kept. On a
    string with a byte from [0x80] on the library maps [unicode.ToLower]
    over the runes; that branch is not followed here (such bytes are
    kept), so what depends on the lowering of a name is stated for ASCII
    names. *)
Fixpoint ToLower (s : string) : string :=
  match s with
  | EmptyString => EmptyString
  | String c s' => String (lower_byte c) (ToLower s')
  end.

(** [strings.Replace(s, " ", "_", -1)]: every space becomes an underscore. *)
Fixpoint ReplaceSpaces (s : string) : string :=
  match s with
  | EmptyString => EmptyString
  | String c s' =>
      String (if Ascii.eqb c " " then "_"%char else c) (ReplaceSpaces s')
  end.

(** [strings.Split(s, sep)] for a one byte separator. The accumulator
    [cur] holds the field read so far. *)
Fixpoint split_go (sep : ascii) (cur : string) (s : string) : list string :=
  match s with
  | EmptyString => [cur]
  | String c s' =>
      if Ascii.eqb c sep then cur :: split_go sep EmptyString s'
      else split_go sep (cur ++ String c EmptyString) s'
  end.

Definition Split (s : string) (sep : ascii) : list string :=
  split_go sep EmptyString s.

End GoStrings.

Module Strconv.
Import GoInt.

Definition digit_of (c : ascii) : option Z :=
  let n := nat_of_ascii c in
  if (48 <=? n)%nat && (n <=? 57)%nat then Some (Z.of_nat n - 48) else None.

Definition ErrSyntax : string := "invalid syntax".
Definition ErrRange : string := "value out of range".

(** The digit loop of the fast path of [Atoi], entered with [n]:
    [n = n*10 + int(ch)] for each byte, [None] at the first byte that is
    not a digit. *)
Fixpoint digits (n : Z) (s : string) : option Z :=
  match s with
  | EmptyString => Some n
  | String c s' =>
      match digit_of c with
      | Some d => digits (add (mul n 10) d) s'
      | None => None
      end
  end.

Definition maxUint64 : Z := 2 ^ 64 - 1.

(** "the smallest number such that cutoff*base > maxUint64", base 10. *)
Definition cutoff10 : Z := maxUint64 / 10 + 1.

(** The loop of [ParseUint(s, 10, 64)], entered with [n]. It returns at
    the first byte that is not a digit, and at the first digit that takes
    the number beyond 64 bits, whatever bytes follow. *)
Fixpoint parseDigits (n : Z) (s : string) : Z * option string :=
  match s with
  | EmptyString => (n, None)
  | String c s' =>
      match digit_of c with
      | None => (0, Some ErrSyntax)
      | Some d =>
          if cutoff10 <=? n then (maxUint64, Some ErrRange)
          else
            let n1 := n * 10 + d in
            if maxUint64 <? n1 then (maxUint64, Some ErrRange)
            else parseDigits n1 s'
      end
  end.

Definition ParseUint (s : string) : Z * option string :=
  match s with
  | EmptyString => (0, Some ErrSyntax)
  | _ => parseDigits 0 s
  end.

(** [ParseInt(s, 10, 0)]: the sign, [ParseUint] and the range of an
    [int64]. A range error of [ParseUint] falls through to the range
    test with the largest [uint64]. *)
Definition ParseInt (s : string) : Z * option string :=
  match s with
  | EmptyString => (0, Some ErrSyntax)
  | String c s' =>
      let '(neg, body) :=
        if Ascii.eqb c "+" then (false, s')
        else if Ascii.eqb c "-" then (true, s')
        else (false, s) in
      let '(un, err) := ParseUint body in
      let cutoff := 2 ^ 63 in
      match err with
      | Some e =>
          if negb (String.eqb e ErrRange) then (0, err)
          else if negb neg && (cutoff <=? un) then (cutoff - 1, Some ErrRange)
          else if neg && (cutoff <? un) then (- cutoff, Some ErrRange)
          else let n := wrap64 un in (if neg then neg64 n else n, None)
      | None =>
          if negb neg && (cutoff <=? un) then (cutoff - 1, Some ErrRange)
          else if neg && (cutoff <? un) then (- cutoff, Some ErrRange)
          else let n := wrap64 un in (if neg then neg64 n else n, None)
      end
  end.

(** [strconv.Atoi]. A string of 1 to 18 bytes takes the fast path, any
    other goes through [ParseInt]. A syntax error yields 0, a value that
    does not fit yields the nearest bound; both come with a non-nil error,
    which every caller in this program drops. *)
Definition Atoi (s : string) : Z * option string :=
  let sLen := Z.of_nat (String.length s) in
  if (0 <? sLen) && (sLen <? 19) then
    match s with
    | EmptyString => (0, Some ErrSyntax)
    | String c s' =>
        let signed := Ascii.eqb c "-" || Ascii.eqb c "+" in
        let body := if signed then s' else s in
        if signed && (Z.of_nat (String.length body) <? 1)
        then (0, Some ErrSyntax)
        else
          match digits 0 body with
          | None => (0, Some ErrSyntax)
          | Some n => (if Ascii.eqb c "-" then neg64 n else n, None)
          end
    end
  else ParseInt s.

End Strconv.

(** ** Outcomes of a run *)

(** A Go computation returns, panics, ends the process through
    [log.Fatal], or (in the model) stops because what drives an unbounded
    [for] loop is used up: the iteration budget [fuel] of the matcher's
    probe, the scripted replies of the server for the request loop. *)
Inductive Run (A : Type) : Type :=
| Ret (a : A)
| Panic (msg : string)
| Fatal (msg : string)
| OutOfFuel.
Arguments Ret {A} a.
Arguments Panic {A} msg.
Arguments Fatal {A} msg.
Arguments OutOfFuel {A}.

#[global] Instance run_ret : MRet Run := fun A a => Ret a.

#[global] Instance run_bind : MBind Run := fun A B k m =>
  match m with
  | Ret a => k a
  | Panic msg => Panic msg
  | Fatal msg => Fatal msg
  | OutOfFuel => OutOfFuel
  end.

Definition index_out_of_range : string := "index out of range".

(** [l[i]] with the bounds check of the run time. *)
Definition at_index {A : Type} (l : list A) (i : nat) : Run A :=
  match l !! i with
  | Some x => Ret x
  | None => Panic index_out_of_range
  end.

(** ** [sort]: [sort.Slice] *)

(** [sort.Slice] of Go 1.19 and later, a pattern-defeating quicksort
    ([pdqsort_func] of the library's [zsortfunc.go]); the program imports
    the standard [slices] package, which came with Go 1.21. The slice is
    a list; [a], [b] and the other indices are natural numbers, every
    subtraction on them being guarded in the library by a comparison. *)
Module GoSort.
Local Open Scope nat_scope.

(** A computation on the slice being sorted. *)
Definition Sorting (A R : Type) : Type := list A -> Run (R * list A).

#[global] Instance sorting_ret {A} : MRet (Sorting A) :=
  fun R r data => Ret (r, data).

#[global] Instance sorting_bind {A} : MBind (Sorting A) :=
  fun R R' k m data =>
    match m data with
    | Ret (r, data') => k r data'
    | Panic msg => Panic msg
    | Fatal msg => Fatal msg
    | OutOfFuel => OutOfFuel
    end.

Definition out_of_fuel {A R} : Sorting A R := fun _ => OutOfFuel.

Definition swapper_out_of_range : string := "reflect: slice index out of range".

Inductive sortedHint := unknownHint | increasingHint | decreasingHint.

(** [bits.Len(uint(n))] *)
Definition bitsLen (n : nat) : nat :=
  match n with
  | O => O
  | _ => S (Nat.log2 n)
  end.

Section Slice.
Context {A : Type}.
(** The comparison that the closure given to [sort.Slice] makes of two
    elements of the slice. *)
Variable less : A -> A -> bool.
(** [xorshift.Next], the step of the library's pseudo-random generator on
    its 64 bit state. *)
Variable next : Z -> Z.

(** [data.Less(i, j)]: the closure reads the slice at [i] and at [j]. *)
Definition Less (i j : nat) : Sorting A bool := fun data =>
  match data !! i, data !! j with
  | Some x, Some y => Ret (less x y, data)
  | _, _ => Panic index_out_of_range
  end.

(** [data.Swap(i, j)], the function made by [reflect.Swapper]. *)
Definition Swap (i j : nat) : Sorting A unit := fun data =>
  match data !! i, data !! j with
  | Some x, Some y => Ret (tt, <[j := x]> (<[i := y]> data))
  | _, _ => Panic swapper_out_of_range
  end.

(** [for j := i; j > a && data.Less(j, j-1); j-- { data.Swap(j, j-1) }] *)
Fixpoint insertDown (a j : nat) : Sorting A unit :=
  match j with
  | O => mret tt
  | S j' =>
      if a <? j then
        lt ← Less j j';
        if lt : bool then _ ← Swap j j'; insertDown a j' else mret tt
      else mret tt
  end.

(** [for i := a + 1; i < b; i++ { ... }], entered at [i] with [n = b - i]
    iterations to go. *)
Fixpoint insertFrom (a n i : nat) : Sorting A unit :=
  match n with
  | O => mret tt
  | S n' => _ ← insertDown a i; insertFrom a n' (S i)
  end.

Definition insertionSort (a b : nat) : Sorting A unit :=
  insertFrom a (b - (a + 1)) (a + 1).

(** [siftDown_func]; [root] grows at every turn and stays below [hi]. *)
Fixpoint siftDown (fuel : nat) (root hi first : nat) : Sorting A unit :=
  match fuel with
  | O => out_of_fuel
  | S fuel' =>
      let child := 2 * root + 1 in
      if hi <=? child then mret tt
      else
        right ← (if child + 1 <? hi
                 then Less (first + child) (first + child + 1)
                 else mret false);
        let child := if right : bool then child + 1 else child in
        lt ← Less (first + root) (first + child);
        if negb lt then mret tt
        else _ ← Swap (first + root) (first + child);
             siftDown fuel' child hi first
  end.

(** [for i := k - 1; i >= 0; i-- { body(i) }] *)
Fixpoint downFrom (k : nat) (body : nat -> Sorting A unit) : Sorting A unit :=
  match k with
  | O => mret tt
  | S i => _ ← body i; downFrom i body
  end.

Definition heapSort (a b : nat) : Sorting A unit :=
  let first := a in
  let lo := 0 in
  let hi := b - a in
  _ ← downFrom (S ((hi - 1) / 2)) (fun i => siftDown (S hi) i hi first);
  downFrom hi (fun i => _ ← Swap first (first + i); siftDown (S hi) lo i first).

(** [for i <= j && data.Less(i, a) { i++ }], with [n = j + 1 - i]. *)
Fixpoint skipLess (n a i j : nat) : Sorting A nat :=
  match n with
  | O => mret i
  | S n' =>
      if i <=? j then
        lt ← Less i a;
        if lt : bool then skipLess n' a (S i) j else mret i
      else mret i
  end.

(** [for i <= j && !data.Less(j, a) { j-- }], with [n = j + 1 - i]. *)
Fixpoint skipNotLess (n a i j : nat) : Sorting A nat :=
  match n with
  | O => mret j
  | S n' =>
      if i <=? j then
        lt ← Less j a;
        if negb lt then skipNotLess n' a i (j - 1) else mret j
      else mret j
  end.

(** The [for] loop that ends [partition_func]; it yields [j]. *)
Fixpoint partitionLoop (fuel a i j : nat) : Sorting A nat :=
  match fuel with
  | O => out_of_fuel
  | S fuel' =>
      i ← skipLess (S j - i) a i j;
      j ← skipNotLess (S j - i) a i j;
      if j <? i then mret j
      else _ ← Swap i j; partitionLoop fuel' a (S i) (j - 1)
  end.

Definition partition (a b pivot : nat) : Sorting A (nat * bool) :=
  _ ← Swap a pivot;
  let i := a + 1 in
  let j := b - 1 in
  i ← skipLess (S j - i) a i j;
  j ← skipNotLess (S j - i) a i j;
  if j <? i then _ ← Swap j a; mret (j, true)
  else
    _ ← Swap i j;
    j ← partitionLoop (b - a) a (S i) (j - 1);
    _ ← Swap j a;
    mret (j, false).

(** [for i <= j && !data.Less(a, i) { i++ }] *)
Fixpoint skipNotGreater (n a i j : nat) : Sorting A nat :=
  match n with
  | O => mret i
  | S n' =>
      if i <=? j then
        lt ← Less a i;
        if negb lt then skipNotGreater n' a (S i) j else mret i
      else mret i
  end.

(** [for i <= j && data.Less(a, j) { j-- }] *)
Fixpoint skipGreater (n a i j : nat) : Sorting A nat :=
  match n with
  | O => mret j
  | S n' =>
      if i <=? j then
        lt ← Less a j;
        if lt : bool then skipGreater n' a i (j - 1) else mret j
      else mret j
  end.

(** The [for] loop of [partitionEqual_func]; it yields [i]. *)
Fixpoint partitionEqualLoop (fuel a i j : nat) : Sorting A nat :=
  match fuel with
  | O => out_of_fuel
  | S fuel' =>
      i ← skipNotGreater (S j - i) a i j;
      j ← skipGreater (S j - i) a i j;
      if j <? i then mret i
      else _ ← Swap i j; partitionEqualLoop fuel' a (S i) (j - 1)
  end.

Definition partitionEqual (a b pivot : nat) : Sorting A nat :=
  _ ← Swap a pivot;
  partitionEqualLoop (S (b - a)) a (a + 1) (b - 1).

(** [for j := i - 1; j >= 1; j-- { if !data.Less(j, j-1) { break };
    data.Swap(j, j-1) }], entered at [j]. *)
Fixpoint shiftLeft (j : nat) : Sorting A unit :=
  match j with
  | O => mret tt
  | S j' =>
      lt ← Less j j';
      if lt : bool then _ ← Swap j j'; shiftLeft j' else mret tt
  end.

(** [for j := i + 1; j < b; j++ { if !data.Less(j, j-1) { break };
    data.Swap(j, j-1) }], entered at [j] with [n = b - j]. *)
Fixpoint shiftRight (n j : nat) : Sorting A unit :=
  match n with
  | O => mret tt
  | S n' =>
      lt ← Less j (j - 1);
      if lt : bool then _ ← Swap j (j - 1); shiftRight n' (S j) else mret tt
  end.

(** [for i < b && !data.Less(i, i-1) { i++ }], with [n = b - i]. *)
Fixpoint skipOrdered (n i b : nat) : Sorting A nat :=
  match n with
  | O => mret i
  | S n' =>
      if i <? b then
        lt ← Less i (i - 1);
        if negb lt then skipOrdered n' (S i) b else mret i
      else mret i
  end.

(** [for j := 0; j < maxSteps; j++ { ... }] of
    [partialInsertionSort_func], with [steps] turns to go. *)
Fixpoint partialInsertionLoop (steps a b i : nat) : Sorting A bool :=
  match steps with
  | O => mret false
  | S steps' =>
      i ← skipOrdered (b - i) i b;
      if i =? b then mret true
      else if b - a <? 50 then mret false
      else
        _ ← Swap i (i - 1);
        _ ← (if 2 <=? i - a then shiftLeft (i - 1) else mret tt);
        _ ← (if 2 <=? b - i then shiftRight (b - (i + 1)) (i + 1) else mret tt);
        partialInsertionLoop steps' a b i
  end.

Definition partialInsertionSort (a b : nat) : Sorting A bool :=
  partialInsertionLoop 5 a b (a + 1).

(** [for i := 0; i < 3; i++ { ... }] of [breakPatterns_func], with the
    state [random] of the generator. *)
Fixpoint breakLoop (n i : nat) (random : Z) (modulus : Z)
    (length idx a : nat) : Sorting A unit :=
  match n with
  | O => mret tt
  | S n' =>
      let random := next random in
      let other := Z.to_nat (Z.land random (modulus - 1)%Z) in
      let other := if length <=? other then other - length else other in
      _ ← Swap (idx - 1 + i) (a + other);
      breakLoop n' (S i) random modulus length idx a
  end.

Definition breakPatterns (a b : nat) : Sorting A unit :=
  let length := b - a in
  if 8 <=? length then
    let random := Z.of_nat length in
    let modulus := Z.shiftl 1 (Z.of_nat (bitsLen length)) in
    let idx := a + length / 4 * 2 - 1 in
    breakLoop 3 0 random modulus length idx a
  else mret tt.

(** [order2_func]: the two indices in order, and the count of swaps. *)
Definition order2 (a b swaps : nat) : Sorting A (nat * nat * nat) :=
  lt ← Less b a;
  if lt : bool then mret (b, a, S swaps) else mret (a, b, swaps).

Definition median (a b c swaps : nat) : Sorting A (nat * nat) :=
  '(a, b, swaps) ← order2 a b swaps;
  '(b, c, swaps) ← order2 b c swaps;
  '(a, b, swaps) ← order2 a b swaps;
  mret (b, swaps).

Definition medianAdjacent (a swaps : nat) : Sorting A (nat * nat) :=
  median (a - 1) a (a + 1) swaps.

Definition choosePivot (a b : nat) : Sorting A (nat * sortedHint) :=
  let l := b - a in
  let i := a + l / 4 * 1 in
  let j := a + l / 4 * 2 in
  let k := a + l / 4 * 3 in
  '(j, swaps) ←
    (if 8 <=? l then
       '(i, j, k, swaps) ←
         (if 50 <=? l then
            '(i, swaps) ← medianAdjacent i 0;
            '(j, swaps) ← medianAdjacent j swaps;
            '(k, swaps) ← medianAdjacent k swaps;
            mret (i, j, k, swaps)
          else mret (i, j, k, 0));
       median i j k swaps
     else mret (j, 0));
  mret (j, match swaps with
           | 0 => increasingHint
           | 12 => decreasingHint
           | _ => unknownHint
           end).

(** [for i < j { data.Swap(i, j); i++; j-- }] *)
Fixpoint reverseLoop (fuel i j : nat) : Sorting A unit :=
  match fuel with
  | O => out_of_fuel
  | S fuel' =>
      if i <? j then _ ← Swap i j; reverseLoop fuel' (S i) (j - 1)
      else mret tt
  end.

Definition reverseRange (a b : nat) : Sorting A unit :=
  reverseLoop (S (b - a)) a (b - 1).

Definition is_increasing (hint : sortedHint) : bool :=
  match hint with increasingHint => true | _ => false end.

Definition is_decreasing (hint : sortedHint) : bool :=
  match hint with decreasingHint => true | _ => false end.

(** [pdqsort_func(data, a, b, limit)], entered at the top of its [for]
    loop with the two flags of the loop. [fuel] bounds the turns of the
    loop and the depth of the calls together. *)
Fixpoint pdqsort (fuel : nat) (a b limit : nat)
    (wasBalanced wasPartitioned : bool) : Sorting A unit :=
  let length := b - a in
  if length <=? 12 then insertionSort a b
  else
    match fuel with
    | O => out_of_fuel
    | S fuel' =>
        if limit =? 0 then heapSort a b
        else
          limit ← (if negb wasBalanced
                   then _ ← breakPatterns a b; mret (limit - 1)
                   else mret limit);
          '(pivot, hint) ← choosePivot a b;
          '(pivot, hint) ←
            (if is_decreasing hint
             then _ ← reverseRange a b;
                  mret (b - 1 - (pivot - a), increasingHint)
             else mret (pivot, hint));
          done ← (if wasBalanced && wasPartitioned && is_increasing hint
                  then partialInsertionSort a b
                  else mret false);
          if done : bool then mret tt
          else
            equal ← (if 0 <? a
                     then lt ← Less (a - 1) pivot; mret (negb lt)
                     else mret false);
            if equal : bool then
              mid ← partitionEqual a b pivot;
              pdqsort fuel' mid b limit wasBalanced wasPartitioned
            else
              '(mid, alreadyPartitioned) ← partition a b pivot;
              let leftLen := mid - a in
              let rightLen := b - mid in
              let balanceThreshold := length / 8 in
              if leftLen <? rightLen then
                _ ← pdqsort fuel' a mid limit true true;
                pdqsort fuel' (mid + 1) b limit
                  (balanceThreshold <=? leftLen) alreadyPartitioned
              else
                _ ← pdqsort fuel' (mid + 1) b limit true true;
                pdqsort fuel' a mid limit
                  (balanceThreshold <=? rightLen) alreadyPartitioned
    end.

(** [sort.Slice(x, less)]: the slice after the call. *)
Definition Slice (fuel : nat) (data : list A) : Run (list A) :=
  let length := Datatypes.length data in
  let limit := bitsLen length in
  '(_, data') ← pdqsort fuel 0 length limit true true data;
  Ret data'.

End Slice.

End GoSort.

(** ** [ns_client]: the request executor and the typed queries *)

Module NsClient.
Import GoInt GoStrings Strconv.

(** *** xml-structs.go *)

Record Proposal := mkProposal { Id : string; Approvals : string }.
Record WaProposalList := mkWaProposalList { Proposals : list Proposal }.
Record WaProposalsOuter := mkWaProposalsOuter { Inner : WaProposalList }.

Record NationEndos := mkNationEndos { neName : string; Endos : Z }.
Record NationList := mkNationList { Nations : list NationEndos }.
Record EndoCensusRanks := mkEndoCensusRanks { ecrInner : NationList }.
Record RegionTags := mkRegionTags { TagArray : list string }.
Record RegionOuter := mkRegionOuter {
  EndoRanks : EndoCensusRanks;
  Tags : RegionTags;
  roLastMajor : Z;
  roLastMinor : Z
}.

Record NationRegion := mkNationRegion { Region : string }.

(** The type constraint [ApiRootNode]: a response shape has a zero value
    and a decoder. [xmlUnmarshal body] is the value left in [k] by
    [xml.Unmarshal(bodyBytes, &k)] entered with [k] zero, and its error. *)
Class ApiRootNode (T : Type) := {
  zero : T;
  xmlUnmarshal : string -> T * option string
}.

(** *** ns-client.go *)

Record RegionInfo := mkRegionInfo {
  DelEndos : Z;
  SecondEndos : Z;
  riSecondNation : string;
  Password : bool;
  LastMajor : Z;
  LastMinor : Z
}.

Definition zeroRegionInfo : RegionInfo := mkRegionInfo 0 0 EmptyString false 0 0.

Definition apiUrl : string := "https://www.nationstates.net/cgi-bin/api.cgi".

(** [url.Values] and [http.Header] are both [map[string][]string]. Header
    keys stand for their canonical spelling, which [Header.Get] and the
    reader of the reply share. *)
Definition Add (m : gmap string (list string)) (key value : string)
  : gmap string (list string) :=
  <[key := (default [] (m !! key) ++ [value])%list]> m.

Definition Set_ (m : gmap string (list string)) (key value : string)
  : gmap string (list string) :=
  <[key := [value]]> m.

Definition Get (m : gmap string (list string)) (key : string) : string :=
  match m !! key with
  | Some (v :: _) => v
  | _ => EmptyString
  end.

(** The request that [http.NewRequest] and the two [Header.Add] build.
    [reqForm] is the form given to it. [req.Body] is a reader over
    [data.Encode()]: it yields the encoding of [reqForm] once, and
    [bodyRead] tells that it is at its end. *)
Record Request := mkRequest {
  Method : string;
  URL : string;
  reqHeader : gmap string (list string);
  reqForm : gmap string (list string);
  bodyRead : bool
}.

(** The request after a [httpClient.Do(req)] that was answered: the
    transport has read [req.Body] to its end to send it. The request is
    the one object built before the loop, and the loop does not rewind its
    body (neither [req.GetBody] nor a second [http.NewRequest]). *)
Definition drain (req : Request) : Request :=
  {| Method := Method req; URL := URL req; reqHeader := reqHeader req;
     reqForm := reqForm req; bodyRead := true |}.

(** What [httpClient.Do] hands back. [Body] and [bodyErr] are the two
    results of [io.ReadAll(result.Body)]. *)
Record Response := mkResponse {
  StatusCode : Z;
  Status : string;
  Header : gmap string (list string);
  Body : string;
  bodyErr : option string
}.

Inductive DoResult :=
| DoOk (result : Response)
| DoErr (err : string).

(** What the outside world observes of the client. [EvSleep d] is
    [time.Sleep(d)], [d] a [time.Duration] in nanoseconds. *)
Inductive Event :=
| EvDo (req : Request)
| EvSleep (d : Z).

Definition Second : Z := 1000000000.
Definition Millisecond : Z := 1000000.

(** The package variable [userAgent], the replies the server will give to
    the requests still to come, and the events so far. *)
Record World := mkWorld {
  userAgent : string;
  network : list DoResult;
  trace : list Event
}.

Definition Client (A : Type) : Type := World -> Run (A * World).

#[global] Instance client_ret : MRet Client := fun A a w => Ret (a, w).

#[global] Instance client_bind : MBind Client := fun A B k m w =>
  match m w with
  | Ret (a, w') => k a w'
  | Panic msg => Panic msg
  | Fatal msg => Fatal msg
  | OutOfFuel => OutOfFuel
  end.

Definition sleep (d : Z) : Client unit := fun w =>
  Ret (tt, mkWorld (userAgent w) (network w) (trace w ++ [EvSleep d])%list).

(** A computation that leaves the world alone. *)
Definition lift_run {A} (r : Run A) : Client A := fun w =>
  match r with
  | Ret a => Ret (a, w)
  | Panic msg => Panic msg
  | Fatal msg => Fatal msg
  | OutOfFuel => OutOfFuel
  end.

(** [log.Fatal(err)] and a run-time panic. *)
Definition fatal {A} (msg : string) : Client A := fun _ => Fatal msg.
Definition panic {A} (msg : string) : Client A := fun _ => Panic msg.

Definition StatusTooManyRequests : Z := 429.
Definition StatusOK : Z := 200.

Definition divide_by_zero : string := "integer divide by zero".

Definition newRequest (ua : string) (data : gmap string (list string))
  : Request :=
  mkRequest "POST" apiUrl
    (Add (Add ∅ "User-Agent" ua)
         "Content-Type" "application/x-www-form-urlencoded")
    data false.

(** The proactive slow-down taken on a reply that is not a 429. Go panics
    on an integer division by zero. *)
Definition slowdown (result : Response) : Client unit :=
  let remaining := fst (Atoi (Get (Header result) "RateLimit-Remaining")) in
  if remaining <=? 7 then
    let reset := fst (Atoi (Get (Header result) "RateLimit-Reset")) in
    if remaining =? 0 then panic divide_by_zero
    else sleep (mul (add (quo reset remaining) 1) Second)
  else mret tt.

Section Executor.
Context {T : Type} `{!ApiRootNode T}.

(** From the status check to the [return]. *)
Definition respond (result : Response) : Client (T * option string) :=
  if negb (StatusCode result =? StatusOK)
  then mret (zero, Some ("bad status: " ++ Status result))
  else
    match bodyErr result with
    | Some err => mret (zero, Some err)
    | None =>
        let '(k, err) := xmlUnmarshal (Body result) in
        match err with
        | Some e => mret (zero, Some e)
        | None => mret (k, None)
        end
    end.

(** The [else] branch of the request loop: what is done with a reply
    that is not a 429. *)
Definition finish (result : Response) : Client (T * option string) :=
  _ ← slowdown result; respond result.

(** The [for] loop of [makeAPIRequest]. It consumes one scripted reply
    per [httpClient.Do(req)]; [EvDo req] records the request as it is
    handed to [Do], and the next iteration has it with its body read. *)
Fixpoint requestLoop (req : Request) (ua : string)
    (replies : list DoResult) (tr : list Event)
  : Run ((T * option string) * World) :=
  match replies with
  | [] => OutOfFuel
  | reply :: rest =>
      let tr := (tr ++ [EvDo req])%list in
      match reply with
      | DoErr err => Ret ((zero, Some err), mkWorld ua rest tr)
      | DoOk result =>
          if StatusCode result =? StatusTooManyRequests then
            let retryAfter := Get (Header result) "Retry-After" in
            let intRetry := fst (Atoi retryAfter) in
            requestLoop (drain req) ua rest
              (tr ++ [EvSleep (mul intRetry Second)])%list
          else finish result (mkWorld ua rest tr)
      end
  end.

(** [http.NewRequest] cannot fail on the constant method and URL. *)
Definition makeAPIRequest (data : gmap string (list string))
  : Client (T * option string) := fun w =>
  if String.eqb (userAgent w) EmptyString
  then Ret ((zero, Some "no user agent set"), w)
  else requestLoop (newRequest (userAgent w) data) (userAgent w)
         (network w) (trace w).

End Executor.

Definition findProposal (id : string) (ps : list Proposal) : option Proposal :=
  find (fun proposal => String.eqb (Id proposal) id) ps.

Definition proposalsData (wa : string) : gmap string (list string) :=
  Add (Add ∅ "wa" wa) "q" "proposals".

Section Queries.
Context `{!ApiRootNode WaProposalsOuter} `{!ApiRootNode RegionOuter}
        `{!ApiRootNode NationRegion}.

Definition GetProposalApprovals (id : string)
  : Client (list string * option string) :=
  let data := Add (Add ∅ "wa" "2") "q" "proposals" in
  '(xmlProposals, err) ← makeAPIRequest data;
  match err with
  | Some e => mret ([], Some e)
  | None =>
      match findProposal id (Proposals (Inner xmlProposals)) with
      | Some proposal => mret (Split (Approvals proposal) ":", None)
      | None =>
          let data := Set_ data "wa" "1" in
          '(xmlProposals, err) ← makeAPIRequest data;
          match err with
          | Some e => mret ([], Some e)
          | None =>
              match findProposal id (Proposals (Inner xmlProposals)) with
              | Some proposal =>
                  mret (Split (Approvals proposal) ":", None)
              | None => mret ([], Some "proposal not found")
              end
          end
      end
  end.

Definition regionData (region : string) : gmap string (list string) :=
  Add (Add (Add ∅ "region" region)
           "q" "censusranks+tags+lastmajorupdate+lastminorupdate")
      "scale" "66".

(** [GetRegioninfo] from the shape test to the [return]. *)
Definition regionInfoOf (xmlRegion : RegionOuter)
  : Run (RegionInfo * option string) :=
  let endoRanks := Nations (ecrInner (EndoRanks xmlRegion)) in
  if Z.of_nat (length endoRanks) <? 2
  then Ret (zeroRegionInfo, Some "how tf was this even triggered")
  else
    first ← at_index endoRanks 0;
    second ← at_index endoRanks 1;
    Ret ({| DelEndos := Endos first;
            SecondEndos := Endos second;
            riSecondNation := neName second;
            Password :=
              existsb (fun tag => String.eqb tag "Password")
                (TagArray (Tags xmlRegion));
            LastMajor := roLastMajor xmlRegion;
            LastMinor := roLastMinor xmlRegion |}, None).

Definition GetRegioninfo (region : string)
  : Client (RegionInfo * option string) :=
  '(xmlRegion, err) ← makeAPIRequest (regionData region);
  match err with
  | Some e => mret (zeroRegionInfo, Some e)
  | None => lift_run (regionInfoOf xmlRegion)
  end.

Definition GetNationRegion (nation : string)
  : Client (string * option string) :=
  '(xmlRegion, err) ← makeAPIRequest (Add (Add ∅ "nation" nation) "q" "region");
  match err with
  | Some e => mret (EmptyString, Some e)
  | None => mret (Region xmlRegion, None)
  end.

End Queries.

End NsClient.

(** ** [main]: candidates and the trigger matcher *)

Module Main.
Import GoInt GoStrings NsClient.

Record Hit := mkHit {
  Name : string;
  Delegate : string;
  SecondNation : string;
  IsDeltip : bool;
  UpdateTime : Z;
  TriggerRegion : string;
  TriggerTime : Z
}.

Record RegionDump := mkRegionDump {
  rdName : string;
  rdLastMinor : Z;
  rdLastMajor : Z
}.

(** [strings.Replace(strings.ToLower(name), " ", "_", -1)] *)
Definition canonName (name : string) : string :=
  ReplaceSpaces (ToLower name).

Definition regionUpdateOf (isMinor : bool) (region : RegionDump) : Z :=
  if isMinor then rdLastMinor region else rdLastMajor region.

Definition setTrigger (h : Hit) (upd : Z) (t : Z) (r : string) : Hit :=
  {| Name := Name h; Delegate := Delegate h; SecondNation := SecondNation h;
     IsDeltip := IsDeltip h; UpdateTime := upd;
     TriggerRegion := r; TriggerTime := t |}.

(** The inner loop [for i := 0; true; i++] of the matcher, entered at
    counter [i]. It yields the trigger time and region it assigns. *)
Fixpoint probe (fuel : nat) (updateTimes : gmap Z string)
    (firstUpdateTime : Z) (firstUpdateRegion : string)
    (regionUpdate minimumTrigger i : Z) : option (Z * string) :=
  match fuel with
  | O => None
  | S fuel' =>
      let trigTime := sub regionUpdate (add minimumTrigger i) in
      match updateTimes !! trigTime with
      | Some trigRegion => Some (trigTime, trigRegion)
      | None =>
          if trigTime <=? firstUpdateTime
          then Some (firstUpdateTime, firstUpdateRegion)
          else probe fuel' updateTimes firstUpdateTime firstUpdateRegion
                 regionUpdate minimumTrigger (add i 1)
      end
  end.

Record MatchState := mkMatchState {
  hittable : list Hit;
  updateTimes : gmap Z string;
  hitIndex : nat
}.

(** [if _, exists := updateTimes[regionUpdate]; !exists { ... }] *)
Definition indexRegion (m : gmap Z string) (regionUpdate : Z)
    (canon : string) : gmap Z string :=
  match m !! regionUpdate with
  | Some _ => m
  | None => <[regionUpdate := canon]> m
  end.

(** The look-ahead guarded by the comment "edge case where region doesn't
    exit in daily dump": the cursor after it. *)
Definition lookahead (hs : list Hit) (idx : nat) (canon : string) : Run nat :=
  if negb (Z.of_nat idx =? Z.of_nat (length hs) - 1) then
    match hs !! S idx with
    | Some h => Ret (if String.eqb canon (Name h) then S idx else idx)
    | None => Panic index_out_of_range
    end
  else Ret idx.

(** [if canonName == hittable[hitIndex].Name { ... }] with the cursor
    [idx] it is entered with. *)
Definition assignTrigger (fuel : nat) (minimumTrigger : Z)
    (firstUpdateTime : Z) (firstUpdateRegion : string)
    (hs : list Hit) (m : gmap Z string) (idx : nat)
    (canon : string) (regionUpdate : Z) : Run MatchState :=
  match hs !! idx with
  | None => Panic index_out_of_range
  | Some h =>
      if String.eqb canon (Name h) then
        match probe fuel m firstUpdateTime firstUpdateRegion
                regionUpdate minimumTrigger 0 with
        | None => OutOfFuel
        | Some (trigTime, trigRegion) =>
            Ret {| hittable :=
                     <[idx := setTrigger h regionUpdate trigTime trigRegion]> hs;
                   updateTimes := m;
                   hitIndex := S idx |}
        end
      else Ret {| hittable := hs; updateTimes := m; hitIndex := idx |}
  end.

(** One iteration of [for _, region := range regions] past its [break]. *)
Definition matchRegion (fuel : nat) (isMinor : bool) (minimumTrigger : Z)
    (firstUpdateTime : Z) (firstUpdateRegion : string)
    (region : RegionDump) (st : MatchState) : Run MatchState :=
  let canon := canonName (rdName region) in
  let regionUpdate := regionUpdateOf isMinor region in
  let m := indexRegion (updateTimes st) regionUpdate canon in
  idx ← lookahead (hittable st) (hitIndex st) canon;
  assignTrigger fuel minimumTrigger firstUpdateTime firstUpdateRegion
    (hittable st) m idx canon regionUpdate.

Fixpoint matchLoop (fuel : nat) (isMinor : bool) (minimumTrigger : Z)
    (firstUpdateTime : Z) (firstUpdateRegion : string)
    (regions : list RegionDump) (st : MatchState) : Run MatchState :=
  match regions with
  | [] => Ret st
  | region :: rest =>
      if Nat.eqb (hitIndex st) (length (hittable st)) then Ret st
      else
        st' ← matchRegion fuel isMinor minimumTrigger firstUpdateTime
                 firstUpdateRegion region st;
        matchLoop fuel isMinor minimumTrigger firstUpdateTime
          firstUpdateRegion rest st'
  end.

(** The matching pass of [main], from [updateTimes := make(...)] to the
    end of the loop over the dump. [regions[0]] panics on an empty dump. *)
Definition matchTriggers (fuel : nat) (isMinor : bool) (minimumTrigger : Z)
    (regions : list RegionDump) (hs : list Hit) : Run (list Hit) :=
  match regions with
  | [] => Panic index_out_of_range
  | first :: _ =>
      let firstUpdateRegion := rdName first in
      let firstUpdateTime := regionUpdateOf isMinor first in
      st ← matchLoop fuel isMinor minimumTrigger firstUpdateTime
              firstUpdateRegion regions
              {| hittable := hs; updateTimes := ∅; hitIndex := 0 |};
      Ret (hittable st)
  end.

(** *** The candidate filter and ranker *)

(** The body of [for _, approval := range approvals] once both lookups
    have succeeded. [None] is the [continue] taken for a region with a
    password; otherwise the new value of [hittable]. *)
Definition rankRegion (isMinor : bool) (maxEndoCount : Z)
    (approval region : string) (regionInfo : RegionInfo)
    (hs : list Hit) : option (list Hit) :=
  if Password regionInfo then None
  else
    let region := canonName region in
    let updateTime :=
      if isMinor then LastMinor regionInfo else LastMajor regionInfo in
    if DelEndos regionInfo <? maxEndoCount then
      Some (hs ++ [{| Name := region; Delegate := approval;
                      SecondNation := EmptyString; IsDeltip := false;
                      UpdateTime := updateTime;
                      TriggerRegion := EmptyString; TriggerTime := 0 |}])%list
    else if DelEndos regionInfo <? add (SecondEndos regionInfo) maxEndoCount then
      Some (hs ++ [{| Name := region; Delegate := approval;
                      SecondNation := riSecondNation regionInfo;
                      IsDeltip := true;
                      UpdateTime := updateTime;
                      TriggerRegion := EmptyString; TriggerTime := 0 |}])%list
    else Some hs.

Section Ranker.
Context `{!ApiRootNode WaProposalsOuter} `{!ApiRootNode RegionOuter}
        `{!ApiRootNode NationRegion}.

Fixpoint rankLoop (isMinor : bool) (maxEndoCount : Z)
    (approvals : list string) (hs : list Hit) : Client (list Hit) :=
  match approvals with
  | [] => mret hs
  | approval :: rest =>
      '(region, err) ← GetNationRegion approval;
      match err with
      | Some e => fatal e
      | None =>
          '(regionInfo, err) ← GetRegioninfo region;
          match err with
          | Some e => fatal e
          | None =>
              match rankRegion isMinor maxEndoCount approval region
                      regionInfo hs with
              | None => rankLoop isMinor maxEndoCount rest hs
              | Some hs' =>
                  _ ← sleep (1500 * Millisecond);
                  rankLoop isMinor maxEndoCount rest hs'
              end
          end
      end
  end.

End Ranker.

(** The closure given to [sort.Slice] compares
    [hittable[i].UpdateTime < hittable[j].UpdateTime]. *)
Definition lessUpdateTime (a b : Hit) : bool := UpdateTime a <? UpdateTime b.

(** [sort.Slice(hittable[:], func(i, j int) bool { ... })] *)
Definition sortHittable (next : Z -> Z) (fuel : nat) (hs : list Hit)
  : Run (list Hit) :=
  GoSort.Slice lessUpdateTime next fuel hs.

(** A candidate as the ranker leaves it: no trigger yet. *)
Definition candidate (name delegate : string) (upd : Z) : Hit :=
  mkHit name delegate EmptyString false upd EmptyString 0.

End Main.

(** * Properties *)

Import GoInt GoStrings Strconv NsClient Main.

(** ** Arithmetic that stays in range *)

Lemma wrap64_id z : in_range z -> wrap64 z = z.
Proof.
  unfold in_range, min_int, max_int, wrap64. intros Hz.
  rewrite Z.mod_small; lia.
Qed.

Lemma add_exact a b : in_range (a + b) -> add a b = a + b.
Proof. apply wrap64_id. Qed.

Lemma sub_exact a b : in_range (a - b) -> sub a b = a - b.
Proof. apply wrap64_id. Qed.

Lemma mul_exact a b : in_range (a * b) -> mul a b = a * b.
Proof. apply wrap64_id. Qed.

Ltac range_solve := unfold in_range, min_int, max_int in *; lia.

(** ** The probe of the trigger matcher *)

(** What the probe may answer for a region updated at [ru]: the latest
    indexed time at or below [ru - mt], provided every later time down to
    there is still after the first update of the dump; otherwise the first
    region of the dump, once a probed time [t0] is at or before its update
    without being indexed. *)
Definition probe_result (m : gmap Z string) (first : Z) (fr : string)
    (ru mt : Z) (t : Z) (r : string) : Prop :=
  (t <= ru - mt /\ m !! t = Some r /\
   forall t', t < t' <= ru - mt -> m !! t' = None /\ first < t')
  \/
  (t = first /\ r = fr /\
   exists t0, t0 <= ru - mt /\ t0 <= first /\ m !! t0 = None /\
     forall t', t0 < t' <= ru - mt -> m !! t' = None /\ first < t').

Section ProbeFacts.
Variables (m : gmap Z string) (first : Z) (fr : string) (ru mt : Z).
Hypothesis Hru : 0 <= ru <= max_int.
Hypothesis Hfirst : 0 <= first.
Hypothesis Hmt : 1 <= mt <= max_int.

Lemma trigTime_exact i :
  0 <= i -> (i = 0 \/ first <= ru - mt - i) ->
  sub ru (add mt i) = ru - mt - i.
Proof using Hru Hfirst Hmt.
  intros Hi Hcase.
  rewrite add_exact by (destruct Hcase; range_solve).
  rewrite sub_exact by (destruct Hcase; range_solve).
  lia.
Qed.

Lemma probe_spec fuel : forall i,
  0 <= i -> (i = 0 \/ first <= ru - mt - i) ->
  (Z.to_nat (ru - mt - i - first) < fuel)%nat ->
  (forall t', ru - mt - i < t' <= ru - mt -> m !! t' = None /\ first < t') ->
  exists t r, probe fuel m first fr ru mt i = Some (t, r) /\
              probe_result m first fr ru mt t r.
Proof using Hru Hfirst Hmt.
  induction fuel as [|fuel IH]; intros i Hi Hcase Hfuel Hseen; [lia|].
  simpl. rewrite (trigTime_exact i Hi Hcase).
  destruct (m !! (ru - mt - i)) as [r|] eqn:Hlook.
  - exists (ru - mt - i), r. split; [reflexivity|]. left.
    split; [lia|]. split; [assumption|].
    intros t' Ht'. apply Hseen. lia.
  - destruct (Z.leb_spec (ru - mt - i) first) as [Hle|Hgt].
    + exists first, fr. split; [reflexivity|]. right.
      split; [reflexivity|]. split; [reflexivity|].
      exists (ru - mt - i). split; [lia|]. split; [lia|]. split; [assumption|].
      intros t' Ht'. apply Hseen. lia.
    + assert (Hnext : add i 1 = i + 1) by (apply add_exact; range_solve).
      rewrite Hnext. apply IH; try lia.
      intros t' Ht'.
      destruct (Z.eq_dec t' (ru - mt - i)) as [->|Hne]; [split; [assumption|lia]|].
      apply Hseen. lia.
Qed.

Lemma probe_total fuel :
  (Z.to_nat ru < fuel)%nat ->
  exists t r, probe fuel m first fr ru mt 0 = Some (t, r) /\
              probe_result m first fr ru mt t r.
Proof using Hru Hfirst Hmt.
  intros Hfuel. apply probe_spec; lia.
Qed.

End ProbeFacts.

(** ** One pass of the matcher *)

Lemma lookahead_cursor (hs : list Hit) (idx : nat) (canon : string) :
  (idx < length hs)%nat ->
  exists idx', lookahead hs idx canon = Ret idx' /\
               (idx' = idx \/ idx' = S idx) /\ (idx' < length hs)%nat.
Proof.
  intros Hlt. unfold lookahead.
  destruct (Z.eqb_spec (Z.of_nat idx) (Z.of_nat (length hs) - 1)) as [Hlast|Hmore];
    simpl.
  - exists idx. auto.
  - destruct (lookup_lt_is_Some_2 hs (S idx) ltac:(lia)) as [h Hh].
    rewrite Hh. destruct (String.eqb canon (Name h)).
    + exists (S idx). split; [reflexivity|]. split; [auto|lia].
    + exists idx. auto.
Qed.

(** The candidate filed at a position of [hittable] has got its trigger
    from a record of the dump that carries its name: its update time is
    that record's, and its trigger time is at least [mt] seconds earlier or
    is the update time of the first record of the dump; in both cases the
    trigger is not after the update. *)
Definition assigned (isMinor : bool) (mt : Z) (regions : list RegionDump)
    (h h' : Hit) : Prop :=
  Name h' = Name h /\
  exists region first,
    region ∈ regions /\ head regions = Some first /\
    canonName (rdName region) = Name h /\
    UpdateTime h' = regionUpdateOf isMinor region /\
    (TriggerTime h' + mt <= UpdateTime h' \/
     TriggerTime h' = regionUpdateOf isMinor first) /\
    TriggerTime h' <= UpdateTime h'.

(** The matching pass returns, and every candidate is either as the ranker
    left it or [assigned]. *)
Definition trigger_claim (fuel : nat) (isMinor : bool) (mt : Z)
    (regions : list RegionDump) (hs : list Hit) : Prop :=
  exists out,
    matchTriggers fuel isMinor mt regions hs = Ret out /\
    length out = length hs /\
    forall k h h', hs !! k = Some h -> out !! k = Some h' ->
                   h' = h \/ assigned isMinor mt regions h h'.

Lemma head_elem_of {A} (l : list A) (x : A) : head l = Some x -> x ∈ l.
Proof.
  destruct l as [|y l]; simpl; [discriminate|].
  intros [= ->]. apply list_elem_of_here.
Qed.

Lemma lookahead_stay (hs : list Hit) (idx : nat) (canon : string) :
  (idx < length hs)%nat ->
  (forall h, hs !! S idx = Some h -> Name h <> canon) ->
  lookahead hs idx canon = Ret idx.
Proof.
  intros Hlt Hnext. unfold lookahead.
  destruct (Z.eqb_spec (Z.of_nat idx) (Z.of_nat (length hs) - 1)) as [_|Hmore];
    simpl; [reflexivity|].
  destruct (lookup_lt_is_Some_2 hs (S idx) ltac:(lia)) as [h Hh]. rewrite Hh.
  destruct (String.eqb_spec canon (Name h)) as [Heq|_]; [|reflexivity].
  exfalso. exact (Hnext h Hh (eq_sym Heq)).
Qed.

(** The two ways an iteration ends: the record carries the name of the
    candidate under the cursor, or it does not. *)
Lemma matchRegion_hit (fuel : nat) (isMinor : bool) (mt first : Z) (fr : string)
    (region : RegionDump) (st : MatchState) (idx : nat) (h : Hit) :
  let canon := canonName (rdName region) in
  let ru := regionUpdateOf isMinor region in
  let m := indexRegion (updateTimes st) ru canon in
  1 <= mt <= max_int -> 0 <= first -> 0 <= ru <= max_int ->
  (Z.to_nat ru < fuel)%nat ->
  lookahead (hittable st) (hitIndex st) canon = Ret idx ->
  hittable st !! idx = Some h ->
  canon = Name h ->
  exists t r,
    matchRegion fuel isMinor mt first fr region st =
      Ret {| hittable := <[idx := setTrigger h ru t r]> (hittable st);
             updateTimes := m;
             hitIndex := S idx |} /\
    probe_result m first fr ru mt t r.
Proof.
  intros canon ru m Hmt Hfirst Hru Hfuel Hlook Hh Hname.
  unfold matchRegion. fold canon ru m. rewrite Hlook. simpl.
  unfold assignTrigger. rewrite Hh.
  rewrite (proj2 (String.eqb_eq canon (Name h)) Hname).
  destruct (probe_total m first fr ru mt Hru Hfirst Hmt fuel Hfuel)
    as (t & r & -> & Hres).
  exists t, r. split; [reflexivity|exact Hres].
Qed.

Lemma matchRegion_miss (fuel : nat) (isMinor : bool) (mt first : Z) (fr : string)
    (region : RegionDump) (st : MatchState) (idx : nat) (h : Hit) :
  let canon := canonName (rdName region) in
  let ru := regionUpdateOf isMinor region in
  lookahead (hittable st) (hitIndex st) canon = Ret idx ->
  hittable st !! idx = Some h ->
  canon <> Name h ->
  matchRegion fuel isMinor mt first fr region st =
    Ret {| hittable := hittable st;
           updateTimes := indexRegion (updateTimes st) ru canon;
           hitIndex := idx |}.
Proof.
  intros canon ru Hlook Hh Hname.
  unfold matchRegion. fold canon ru. rewrite Hlook. simpl.
  unfold assignTrigger. rewrite Hh.
  destruct (String.eqb_spec canon (Name h)); [contradiction|reflexivity].
Qed.

Section MatchFacts.
Variables (fuel : nat) (isMinor : bool) (mt : Z).
Variables (regions : list RegionDump) (r0 : RegionDump) (hs : list Hit).
Hypothesis Hmt : 1 <= mt <= max_int.
Hypothesis Hhead : head regions = Some r0.
Hypothesis Hregions : forall r, r ∈ regions ->
  0 <= regionUpdateOf isMinor r <= max_int /\
  regionUpdateOf isMinor r0 <= regionUpdateOf isMinor r /\
  (Z.to_nat (regionUpdateOf isMinor r) < fuel)%nat.

Let first := regionUpdateOf isMinor r0.
Let fr := rdName r0.
Let cname (r : RegionDump) : string := canonName (rdName r).

Definition match_inv (st : MatchState) : Prop :=
  (hitIndex st <= length (hittable st))%nat /\
  length (hittable st) = length hs /\
  forall k h h', hs !! k = Some h -> hittable st !! k = Some h' ->
                 h' = h \/ assigned isMinor mt regions h h'.


Lemma first_in_regions : r0 ∈ regions.
Proof using Hhead. exact (head_elem_of regions r0 Hhead). Qed.

Lemma probe_assigned region m h h0 t r :
  region ∈ regions ->
  Name h0 = Name h ->
  cname region = Name h0 ->
  probe_result m first fr (regionUpdateOf isMinor region) mt t r ->
  assigned isMinor mt regions h
    (setTrigger h0 (regionUpdateOf isMinor region) t r).
Proof using Hmt Hhead Hregions.
  intros Hin Hsame Hname Hres.
  destruct (Hregions region Hin) as (Hru & Hge & _).
  split; [exact Hsame|].
  exists region, r0. simpl.
  split; [exact Hin|]. split; [exact Hhead|].
  split; [unfold cname in Hname; congruence|]. split; [reflexivity|].
  destruct Hres as [(Hle & _ & _)|(-> & _ & _)]; fold first; split; lia.
Qed.

Lemma name_kept st k h h' :
  match_inv st -> hs !! k = Some h -> hittable st !! k = Some h' ->
  Name h' = Name h.
Proof.
  intros (_ & _ & Hall) Hk Hk'.
  destruct (Hall k h h' Hk Hk') as [->|[Hn _]]; [reflexivity|exact Hn].
Qed.

Lemma hit_inv region st idx h0 t r m :
  region ∈ regions -> match_inv st ->
  hittable st !! idx = Some h0 ->
  cname region = Name h0 ->
  probe_result m first fr (regionUpdateOf isMinor region) mt t r ->
  match_inv
    {| hittable :=
         <[idx := setTrigger h0 (regionUpdateOf isMinor region) t r]> (hittable st);
       updateTimes := m;
       hitIndex := S idx |}.
Proof using Hmt Hhead Hregions.
  intros Hin Hinv Hh0 Hname Hres.
  pose proof Hinv as (Hidx & Hlen & Hall).
  pose proof (lookup_lt_Some _ _ _ Hh0) as Hidx'.
  split; [|split]; simpl.
  - rewrite length_insert. lia.
  - rewrite length_insert. exact Hlen.
  - intros k h h' Hk Hk'.
    destruct (Nat.eq_dec k idx) as [->|Hne].
    + rewrite list_lookup_insert_eq in Hk' by exact Hidx'.
      injection Hk' as <-. right.
      exact (probe_assigned region m h h0 t r Hin
               (name_kept st idx h h0 Hinv Hk Hh0) Hname Hres).
    + rewrite list_lookup_insert_ne in Hk' by congruence.
      exact (Hall k h h' Hk Hk').
Qed.


Lemma matchRegion_inv region st :
  region ∈ regions -> match_inv st ->
  (hitIndex st < length (hittable st))%nat ->
  exists st', matchRegion fuel isMinor mt first fr region st = Ret st' /\
              match_inv st'.
Proof using Hmt Hhead Hregions.
  intros Hin Hinv Hlt.
  pose proof Hinv as (Hidx & Hlen & Hall).
  destruct (Hregions region Hin) as (Hru & Hge & Hfuel).
  destruct (Hregions r0 first_in_regions) as (Hr0 & _ & _).
  destruct (lookahead_cursor (hittable st) (hitIndex st) (cname region) Hlt)
    as (idx & Hlook & _ & Hidx').
  destruct (lookup_lt_is_Some_2 _ _ Hidx') as [h0 Hh0].
  destruct (String.eqb_spec (cname region) (Name h0)) as [Hname|Hname].
  - destruct (matchRegion_hit fuel isMinor mt first fr region st idx h0
                Hmt (proj1 Hr0) Hru Hfuel Hlook Hh0 Hname)
      as (t & r & -> & Hres).
    eexists. split; [reflexivity|].
    exact (hit_inv region st idx h0 t r _ Hin Hinv Hh0 Hname Hres).
  - rewrite (matchRegion_miss fuel isMinor mt first fr region st idx h0
               Hlook Hh0 Hname).
    eexists. split; [reflexivity|].
    split; [|split]; simpl; [lia|exact Hlen|exact Hall].
Qed.

Lemma matchLoop_inv rest : forall st,
  (forall r, r ∈ rest -> r ∈ regions) -> match_inv st ->
  exists st', matchLoop fuel isMinor mt first fr rest st = Ret st' /\
              match_inv st'.
Proof using Hmt Hhead Hregions.
  induction rest as [|region rest IH]; intros st Hsub Hinv; simpl.
  - exists st. auto.
  - destruct (Nat.eqb_spec (hitIndex st) (length (hittable st))) as [Hend|Hmore].
    + exists st. auto.
    + destruct (matchRegion_inv region st) as (st1 & -> & Hinv1).
      * apply Hsub, list_elem_of_here.
      * exact Hinv.
      * destruct Hinv as (Hle & _). lia.
      * simpl. apply IH; [|exact Hinv1].
        intros r Hr. apply Hsub, list_elem_of_further, Hr.
Qed.

Lemma start_inv :
  match_inv {| hittable := hs; updateTimes := ∅; hitIndex := 0 |}.
Proof.
  split; [simpl; lia|]. split; [reflexivity|].
  intros k h h' Hk Hk'. simpl in Hk'. left. congruence.
Qed.

Lemma matchTriggers_loop st' :
  matchLoop fuel isMinor mt first fr regions
    {| hittable := hs; updateTimes := ∅; hitIndex := 0 |} = Ret st' ->
  matchTriggers fuel isMinor mt regions hs = Ret (hittable st').
Proof using Hhead.
  unfold matchTriggers, first, fr. clear Hregions.
  destruct regions as [|r rest]; [discriminate|].
  injection Hhead as ->. intros ->. reflexivity.
Qed.

Lemma matchTriggers_claim : trigger_claim fuel isMinor mt regions hs.
Proof using Hmt Hhead Hregions.
  destruct (matchLoop_inv regions
              {| hittable := hs; updateTimes := ∅; hitIndex := 0 |})
    as (st' & Hrun & _ & Hlen & Hall); [auto|exact start_inv|].
  exists (hittable st'). split; [|auto].
  exact (matchTriggers_loop st' Hrun).
Qed.

(** *** Candidates listed in the order of the dump

    When the names of the candidates from the cursor on are, in this order,
    among the names of the records still to come, and no name comes twice in
    the dump, the look-ahead never fires and the cursor reaches the end. *)



End MatchFacts.

(** ** The trigger matcher: claims *)

Definition dumpABC : list RegionDump :=
  [mkRegionDump "A" 0 1000; mkRegionDump "B" 0 1004; mkRegionDump "C" 0 1010].

(** C1, as amended. For a lead time of at least one second and a dump whose
    update times are non-negative and never earlier than its first
    record's, the matching pass returns, and every candidate it assigns a
    trigger to has the update time of its record in the dump and a trigger
    time that is at least the lead time earlier or is the update time of
    the first record; the trigger time is never after the update time. *)
Theorem trigger_lead_or_fallback (fuel : nat) (isMinor : bool) (mt : Z)
    (regions : list RegionDump) (r0 : RegionDump) (hs : list Hit) :
  1 <= mt <= max_int ->
  head regions = Some r0 ->
  (forall r, r ∈ regions ->
     0 <= regionUpdateOf isMinor r <= max_int /\
     regionUpdateOf isMinor r0 <= regionUpdateOf isMinor r /\
     (Z.to_nat (regionUpdateOf isMinor r) < fuel)%nat) ->
  trigger_claim fuel isMinor mt regions hs.
Proof.
  intros Hmt Hhead Hregions.
  exact (matchTriggers_claim fuel isMinor mt regions r0 hs Hmt Hhead Hregions).
Qed.

Lemma trigger_lead_or_fallback_witness :
  trigger_claim 1011 false 6 dumpABC [candidate "c" "n" 1010].
Proof.
  apply (trigger_lead_or_fallback 1011 false 6 dumpABC
           (mkRegionDump "A" 0 1000) [candidate "c" "n" 1010]).
  - unfold max_int. lia.
  - reflexivity.
  - intros r Hr. unfold dumpABC in Hr.
    repeat (apply elem_of_cons in Hr as [->|Hr]);
      [| | |apply elem_of_nil in Hr; contradiction];
      unfold max_int; simpl; lia.
Defined.

(** C1, as stated, fails on a dump whose second record is older than its
    first: the candidate [b], updated at 900, gets the trigger time 1000. *)
Lemma trigger_after_candidate :
  ~ trigger_claim 10 false 6
      [mkRegionDump "A" 0 1000; mkRegionDump "B" 0 900]
      [candidate "b" "n" 900].
Proof.
  intros (out & Hrun & _ & Hall).
  vm_compute in Hrun. injection Hrun as <-.
  destruct (Hall 0%nat _ _ eq_refl eq_refl) as [Heq|(_ & region & first & _ & _ & _ & _ & _ & Hle)].
  - discriminate Heq.
  - simpl in Hle. lia.
Qed.

(** C2. When the record read from the dump carries the name of the
    candidate under the cursor, the iteration files the record under its
    update time, overwrites the candidate's update time with the record's
    (whatever time the candidate came with), and gives it the trigger
    found by probing downwards from the update time minus the lead time:
    the first indexed time, or the first region of the dump once the probe
    is at or before the first update time. The other four fields of the
    candidate are kept and the cursor moves on by one.
    On the dump [A@1000, B@1004, C@1010] the candidate [c], with whatever
    update time the ranker gave it, ends with update time 1010 and gets
    [b@1004] for a lead time of 6 and the first region [A@1000] for a lead
    time of 20. *)
Theorem match_overwrites_and_probes :
  (forall (fuel : nat) (isMinor : bool) (mt first : Z) (fr : string)
          (region : RegionDump) (st : MatchState) (idx : nat) (h : Hit),
      let canon := canonName (rdName region) in
      let ru := regionUpdateOf isMinor region in
      let m := indexRegion (updateTimes st) ru canon in
      1 <= mt <= max_int -> 0 <= first -> 0 <= ru <= max_int ->
      (Z.to_nat ru < fuel)%nat ->
      lookahead (hittable st) (hitIndex st) canon = Ret idx ->
      hittable st !! idx = Some h ->
      canon = Name h ->
      exists t r,
        matchRegion fuel isMinor mt first fr region st =
          Ret {| hittable :=
                   <[idx := {| Name := Name h; Delegate := Delegate h;
                               SecondNation := SecondNation h;
                               IsDeltip := IsDeltip h;
                               UpdateTime := ru;
                               TriggerRegion := r;
                               TriggerTime := t |}]> (hittable st);
                 updateTimes := m;
                 hitIndex := S idx |} /\
        probe_result m first fr ru mt t r)
  /\ (forall upd : Z,
        matchTriggers 20 false 6 dumpABC [candidate "c" "n" upd]
        = Ret [mkHit "c" "n" EmptyString false 1010 "b" 1004])
  /\ (forall upd : Z,
        matchTriggers 20 false 20 dumpABC [candidate "c" "n" upd]
        = Ret [mkHit "c" "n" EmptyString false 1010 "A" 1000]).
Proof.
  split; [|split; intros upd; vm_compute; reflexivity].
  intros fuel isMinor mt first fr region st idx h.
  exact (matchRegion_hit fuel isMinor mt first fr region st idx h).
Qed.

Definition stateAB : MatchState :=
  {| hittable := [candidate "c" "n" 1009];
     updateTimes := <[1004 := "b"]> (<[1000 := "a"]> ∅);
     hitIndex := 0 |}.

Lemma match_overwrites_and_probes_witness :
  let region := mkRegionDump "C" 0 1010 in
  let m := indexRegion (updateTimes stateAB) 1010 "c" in
  exists t r,
    matchRegion 1011 false 6 1000 "A" region stateAB
    = Ret {| hittable :=
               <[0%nat := mkHit "c" "n" EmptyString false 1010 r t]>
                 (hittable stateAB);
             updateTimes := m;
             hitIndex := 1 |} /\
    probe_result m 1000 "A" 1010 6 t r.
Proof.
  intros region m.
  apply (proj1 match_overwrites_and_probes 1011%nat false 6 1000 "A"
           region stateAB 0%nat (candidate "c" "n" 1009)).
  - unfold max_int. lia.
  - lia.
  - unfold max_int. simpl. lia.
  - simpl. lia.
  - reflexivity.
  - reflexivity.
  - reflexivity.
Defined.

(** A candidate is found in the dump when a record carries its name, and
    has a trigger when its trigger region is set: the report loop of
    [main] skips the candidates whose [TriggerRegion] is empty. *)
Definition present (regions : list RegionDump) (h : Hit) : Prop :=
  exists region, region ∈ regions /\ canonName (rdName region) = Name h.

Definition has_trigger (h : Hit) : Prop := TriggerRegion h <> EmptyString.

(** C4 fails on the code. Two candidates in a row that the dump does not
    list stop the cursor for good: the look-ahead reads one position only,
    and the third candidate, which the dump lists, is left as the ranker
    made it. *)
Theorem listed_candidate_left_without_trigger :
  let regions := [mkRegionDump "A" 0 1000; mkRegionDump "R" 0 1010] in
  let hs := [candidate "p" "n1" 0; candidate "q" "n2" 0;
             candidate "r" "n3" 1010] in
  matchTriggers 20 false 6 regions hs = Ret hs /\
  exists h, h ∈ hs /\ present regions h /\ ~ has_trigger h.
Proof.
  simpl. split; [vm_compute; reflexivity|].
  exists (candidate "r" "n3" 1010). split; [|split].
  - do 2 apply list_elem_of_further. apply list_elem_of_here.
  - exists (mkRegionDump "R" 0 1010). split; [|reflexivity].
    apply list_elem_of_further, list_elem_of_here.
  - intros Hset. apply Hset. reflexivity.
Qed.

(** The same loss when two candidates come in the opposite order to their
    records: the look-ahead moves the cursor past [x], whose record is
    still to come. *)
Lemma swapped_candidate_left_without_trigger :
  matchTriggers 20 false 6
    [mkRegionDump "A" 0 1000; mkRegionDump "Y" 0 1010; mkRegionDump "X" 0 1010]
    [candidate "x" "n1" 1010; candidate "y" "n2" 1010]
  = Ret [candidate "x" "n1" 1010; mkHit "y" "n2" EmptyString false 1010 "a" 1000].
Proof. vm_compute. reflexivity. Qed.

(** ** The candidate filter and ranker: claims *)

Lemma app_singleton_neq {A} (l : list A) (x : A) : (l ++ [x])%list <> l.
Proof.
  intros Heq. apply (f_equal length) in Heq.
  rewrite length_app in Heq. simpl in Heq. lia.
Qed.

Definition directHit (isMinor : bool) (approval region : string)
    (regionInfo : RegionInfo) : Hit :=
  {| Name := canonName region; Delegate := approval;
     SecondNation := EmptyString; IsDeltip := false;
     UpdateTime := if isMinor then LastMinor regionInfo else LastMajor regionInfo;
     TriggerRegion := EmptyString; TriggerTime := 0 |}.

Definition assistedHit (isMinor : bool) (approval region : string)
    (regionInfo : RegionInfo) : Hit :=
  {| Name := canonName region; Delegate := approval;
     SecondNation := riSecondNation regionInfo; IsDeltip := true;
     UpdateTime := if isMinor then LastMinor regionInfo else LastMajor regionInfo;
     TriggerRegion := EmptyString; TriggerTime := 0 |}.

Definition endos (del second : Z) : RegionInfo :=
  mkRegionInfo del second "runner" false 2000 1000.

(** C3. A region without a password is appended as a direct hit exactly
    when the delegate has fewer endorsements than the maximum, as an
    assisted hit naming the runner-up exactly when it has not but has fewer
    than the maximum plus the runner-up's, and is left out otherwise (the
    sum being one that fits an [int]). With a maximum of 5: 4 against 2 is
    a direct hit, 6 against 2 an assisted hit, 8 against 2 is left out. *)
Theorem ranker_classification :
  (forall (isMinor : bool) (maxEndoCount : Z) (approval region : string)
          (regionInfo : RegionInfo) (hs : list Hit),
      Password regionInfo = false ->
      in_range (SecondEndos regionInfo + maxEndoCount) ->
      let ranked := rankRegion isMinor maxEndoCount approval region regionInfo hs in
      (DelEndos regionInfo < maxEndoCount <->
       ranked = Some (hs ++ [directHit isMinor approval region regionInfo])%list) /\
      (maxEndoCount <= DelEndos regionInfo < maxEndoCount + SecondEndos regionInfo <->
       ranked = Some (hs ++ [assistedHit isMinor approval region regionInfo])%list) /\
      (maxEndoCount <= DelEndos regionInfo /\
       maxEndoCount + SecondEndos regionInfo <= DelEndos regionInfo <->
       ranked = Some hs))
  /\ rankRegion false 5 "del" "The Region" (endos 4 2) []
     = Some [mkHit "the_region" "del" EmptyString false 2000 EmptyString 0]
  /\ rankRegion false 5 "del" "The Region" (endos 6 2) []
     = Some [mkHit "the_region" "del" "runner" true 2000 EmptyString 0]
  /\ rankRegion false 5 "del" "The Region" (endos 8 2) [] = Some [].
Proof.
  split; [|repeat split; vm_compute; reflexivity].
  intros isMinor maxEndoCount approval region regionInfo hs Hpw Hsum ranked.
  subst ranked. unfold rankRegion. rewrite Hpw.
  rewrite (add_exact _ _ Hsum).
  fold (directHit isMinor approval region regionInfo).
  fold (assistedHit isMinor approval region regionInfo).
  destruct (Z.ltb_spec (DelEndos regionInfo) maxEndoCount) as [Hdirect|Hnot].
  - split; [tauto|]. split; split; try lia.
    + intros [= Heq]. apply app_inv_head in Heq. discriminate Heq.
    + intros [= Heq]. exfalso. exact (app_singleton_neq _ _ Heq).
  - destruct (Z.ltb_spec (DelEndos regionInfo)
                (SecondEndos regionInfo + maxEndoCount)) as [Hassist|Hout].
    + split; [|split]; split; try lia; try tauto.
      * intros [= Heq]. apply app_inv_head in Heq. discriminate Heq.
      * intros [= Heq]. exfalso. exact (app_singleton_neq _ _ Heq).
    + split; [|split]; split; try lia; try tauto.
      * intros [= Heq]. exfalso. symmetry in Heq. exact (app_singleton_neq _ _ Heq).
      * intros [= Heq]. exfalso. symmetry in Heq. exact (app_singleton_neq _ _ Heq).
Qed.

Lemma ranker_classification_witness :
  let ranked := rankRegion false 5 "del" "The Region" (endos 6 2) [] in
  (6 < 5 <->
   ranked = Some ([] ++ [directHit false "del" "The Region" (endos 6 2)])%list) /\
  (5 <= 6 < 5 + 2 <->
   ranked = Some ([] ++ [assistedHit false "del" "The Region" (endos 6 2)])%list) /\
  (5 <= 6 /\ 5 + 2 <= 6 <-> ranked = Some []).
Proof.
  apply (proj1 ranker_classification false 5 "del" "The Region" (endos 6 2) []).
  - reflexivity.
  - unfold in_range, min_int, max_int. simpl. lia.
Defined.

(** The loop of the ranker takes the step that [rankRegion] describes. *)
Lemma rankLoop_step `{!ApiRootNode WaProposalsOuter} `{!ApiRootNode RegionOuter}
    `{!ApiRootNode NationRegion}
    (isMinor : bool) (maxEndoCount : Z) (approval region : string)
    (rest : list string) (regionInfo : RegionInfo) (hs : list Hit)
    (w w1 w2 : World) :
  GetNationRegion approval w = Ret ((region, None), w1) ->
  GetRegioninfo region w1 = Ret ((regionInfo, None), w2) ->
  rankLoop isMinor maxEndoCount (approval :: rest) hs w =
    match rankRegion isMinor maxEndoCount approval region regionInfo hs with
    | None => rankLoop isMinor maxEndoCount rest hs w2
    | Some hs' =>
        rankLoop isMinor maxEndoCount rest hs'
          (mkWorld (userAgent w2) (network w2)
             (trace w2 ++ [EvSleep (1500 * Millisecond)]))
    end.
Proof.
  intros Hregion Hinfo. simpl. unfold mbind, client_bind at 1.
  rewrite Hregion. unfold client_bind at 1. rewrite Hinfo.
  destruct (rankRegion isMinor maxEndoCount approval region regionInfo hs);
    reflexivity.
Qed.

(** *** Sorting *)

Section InsertionSort.
Context {A : Type} (less : A -> A -> bool).

Lemma Less_at (data : list A) i j x y :
  data !! i = Some x -> data !! j = Some y ->
  GoSort.Less less i j data = Ret (less x y, data).
Proof. intros Hi Hj. unfold GoSort.Less. rewrite Hi, Hj. reflexivity. Qed.

Lemma Swap_at (data : list A) i j x y :
  data !! i = Some x -> data !! j = Some y ->
  GoSort.Swap i j data = Ret (tt, <[j := x]> (<[i := y]> data)).
Proof. intros Hi Hj. unfold GoSort.Swap. rewrite Hi, Hj. reflexivity. Qed.

(** Where [GoSort.insertDown] leaves [x], entered with the elements before it
    in [rpre], nearest first, and those behind it in [post]. *)
Fixpoint settle (x : A) (rpre post : list A) : list A :=
  match rpre with
  | [] => x :: post
  | y :: r =>
      if less x y then settle x r (y :: post)
      else (rev rpre ++ x :: post)%list
  end.

Lemma insertDown_settle (rpre : list A) : forall x post,
  GoSort.insertDown less 0 (length rpre) (rev rpre ++ x :: post)%list =
    Ret (tt, settle x rpre post).
Proof.
  induction rpre as [|y r IH]; intros x post; [reflexivity|].
  cbn [length GoSort.insertDown rev settle]. rewrite <- app_assoc. cbn [app].
  assert (Hy : (rev r ++ y :: x :: post)%list !! length r = Some y).
  { rewrite <- length_rev. apply list_lookup_middle. reflexivity. }
  assert (Hx : (rev r ++ y :: x :: post)%list !! S (length r) = Some x).
  { rewrite <- length_rev.
    rewrite (lookup_app_r (rev r)) by lia.
    replace (S (length (rev r)) - length (rev r))%nat with 1%nat by lia.
    reflexivity. }
  change (0 <? S (length r))%nat with true. cbv iota.
  unfold mbind at 1, GoSort.sorting_bind. rewrite (Less_at _ _ _ x y Hx Hy).
  destruct (less x y); [|reflexivity].
  unfold mbind at 1, GoSort.sorting_bind. rewrite (Swap_at _ _ _ x y Hx Hy).
  assert (Hswap : <[length r := x]>
                    (<[S (length r) := y]> (rev r ++ y :: x :: post)%list)
                  = (rev r ++ x :: y :: post)%list).
  { rewrite <- length_rev.
    rewrite (insert_app_r_alt (rev r)) by lia.
    replace (S (length (rev r)) - length (rev r))%nat with 1%nat by lia.
    rewrite (insert_app_r_alt (rev r)) by lia.
    rewrite Nat.sub_diag. reflexivity. }
  rewrite Hswap. apply IH.
Qed.

(** [x] is left behind the elements it is not less than, and before the
    run of elements it is less than. *)
Lemma settle_split (rpre : list A) : forall x post,
  exists small big,
    rev rpre = (small ++ big)%list /\
    settle x rpre post = (small ++ x :: big ++ post)%list /\
    Forall (fun y => less x y = true) big /\
    (forall y, last small = Some y -> less x y = false).
Proof.
  induction rpre as [|y r IH]; intros x post.
  - exists [], []. repeat split; [constructor|discriminate].
  - cbn [settle rev]. destruct (less x y) eqn:Hxy.
    + destruct (IH x (y :: post)) as (small & big & Hrev & Hset & Hbig & Hsmall).
      exists small, (big ++ [y])%list. split; [|split; [|split]].
      * rewrite Hrev, app_assoc. reflexivity.
      * rewrite Hset, <- app_assoc. reflexivity.
      * apply Forall_app. split; [exact Hbig|]. constructor; [exact Hxy|constructor].
      * exact Hsmall.
    + exists (rev r ++ [y])%list, []. split; [|split; [|split]].
      * rewrite app_nil_r. reflexivity.
      * reflexivity.
      * constructor.
      * intros z Hz. rewrite last_snoc in Hz. injection Hz as <-. exact Hxy.
Qed.

(** The slice after the turns of the outer loop that take the elements
    of [rest] one by one into the prefix [pre]. *)
Fixpoint place (pre rest : list A) : list A :=
  match rest with
  | [] => pre
  | x :: rest' => place (settle x (rev pre) []) rest'
  end.

Lemma settle_post x (rpre post : list A) :
  settle x rpre post = (settle x rpre [] ++ post)%list.
Proof.
  destruct (settle_split rpre x post) as (s1 & b1 & Hrev1 & -> & Hb1 & Hs1).
  destruct (settle_split rpre x []) as (s2 & b2 & Hrev2 & -> & Hb2 & Hs2).
  assert (Hsame : s1 = s2 /\ b1 = b2).
  { clear - Hrev1 Hrev2 Hb1 Hb2 Hs1 Hs2. rewrite Hrev1 in Hrev2. clear Hrev1.
    revert s2 b2 Hrev2 Hb2 Hs2 Hs1.
    induction b1 as [|y b1 IH] using rev_ind; intros s2 b2 Hrev2 Hb2 Hs2 Hs1.
    - destruct b2 as [|z b2 _] using rev_ind.
      + rewrite !app_nil_r in Hrev2. split; [exact Hrev2|reflexivity].
      + exfalso. rewrite app_nil_r in Hrev2.
        apply Forall_app in Hb2 as [_ Hz]. inversion Hz as [|? ? Hlt _]; subst.
        rewrite app_assoc, last_snoc in Hs1.
        rewrite (Hs1 z eq_refl) in Hlt. discriminate.
    - destruct b2 as [|z b2 _] using rev_ind.
      + exfalso. rewrite app_nil_r in Hrev2.
        apply Forall_app in Hb1 as [_ Hy]. inversion Hy as [|? ? Hlt _]; subst.
        rewrite app_assoc, last_snoc in Hs2.
        rewrite (Hs2 y eq_refl) in Hlt. discriminate.
      + rewrite !app_assoc in Hrev2.
        apply app_inj_tail in Hrev2 as [Hrev2 <-].
        apply Forall_app in Hb1 as [Hb1 _]. apply Forall_app in Hb2 as [Hb2 _].
        destruct (IH Hb1 s2 b2 Hrev2 Hb2 Hs2 Hs1) as [-> ->].
        split; reflexivity. }
  destruct Hsame as [-> ->]. rewrite app_nil_r, <- app_assoc. reflexivity.
Qed.

Lemma settle_length x (rpre post : list A) :
  length (settle x rpre post) = S (length rpre + length post).
Proof.
  destruct (settle_split rpre x post) as (small & big & Hrev & -> & _).
  rewrite <- (length_rev rpre), Hrev. rewrite !length_app. simpl.
  rewrite length_app. lia.
Qed.

Lemma insertFrom_place (rest : list A) : forall pre,
  GoSort.insertFrom less 0 (length rest) (length pre) (pre ++ rest)%list =
    Ret (tt, place pre rest).
Proof.
  induction rest as [|x rest IH]; intros pre.
  - simpl. rewrite app_nil_r. reflexivity.
  - cbn [length GoSort.insertFrom place]. unfold mbind, GoSort.sorting_bind.
    rewrite <- (rev_involutive pre) at 2. rewrite <- (length_rev pre).
    rewrite insertDown_settle, settle_post.
    replace (S (length (rev pre))) with (length (settle x (rev pre) []))
      by (rewrite settle_length; simpl; lia).
    apply IH.
Qed.

(** On a slice of at most 12 elements [sort.Slice] is the insertion
    sort. *)
Definition sorted_by_insertion (data : list A) : list A :=
  match data with
  | [] => []
  | x :: rest => place [x] rest
  end.

Lemma Slice_short next fuel (data : list A) :
  (length data <= 12)%nat ->
  GoSort.Slice less next fuel data = Ret (sorted_by_insertion data).
Proof.
  intros Hshort. unfold GoSort.Slice.
  assert (Hrun : GoSort.pdqsort less next fuel 0 (length data) (GoSort.bitsLen (length data))
                   true true data = Ret (tt, sorted_by_insertion data)).
  { destruct fuel; cbn [GoSort.pdqsort]; rewrite Nat.sub_0_r;
      (destruct (Nat.leb_spec (length data) 12) as [_|]; [|lia]).
    all: unfold GoSort.insertionSort; destruct data as [|x rest]; [reflexivity|];
      cbn [length]; replace (S (length rest) - (0 + 1))%nat with (length rest) by lia;
      apply (insertFrom_place rest [x]). }
  rewrite Hrun. reflexivity.
Qed.

End InsertionSort.

Section SortedByKey.
Context {A : Type} (key : A -> Z).

Definition lessKey (a b : A) : bool := key a <? key b.

Definition ascending : list A -> Prop :=
  StronglySorted (fun a b => key a <= key b).

(** The elements with the key [t], in their order. *)
Definition tied (t : Z) (l : list A) : list A := filter (fun a => key a = t) l.

Lemma settle_perm x (pre : list A) :
  Permutation (pre ++ [x]) (settle lessKey x (rev pre) []).
Proof.
  destruct (settle_split lessKey (rev pre) x []) as (small & big & Hrev & -> & _).
  rewrite rev_involutive in Hrev. subst pre. rewrite app_nil_r.
  rewrite <- app_assoc. apply Permutation_app_head.
  symmetry. apply Permutation_cons_append.
Qed.

Lemma ascending_last (small : list A) y a :
  ascending small -> last small = Some y -> a ∈ small -> key a <= key y.
Proof.
  intros Hs Hlast Ha.
  destruct small as [|z small _] using rev_ind; [discriminate|].
  rewrite last_snoc in Hlast. injection Hlast as ->.
  apply elem_of_app in Ha as [Ha|Ha].
  - apply (StronglySorted_app_1_elem_of _ _ _ _ _ Hs Ha). apply list_elem_of_here.
  - apply list_elem_of_singleton in Ha as ->. lia.
Qed.

Lemma settle_ascending x (pre : list A) :
  ascending pre -> ascending (settle lessKey x (rev pre) []).
Proof.
  intros Hpre.
  destruct (settle_split lessKey (rev pre) x [])
    as (small & big & Hrev & -> & Hbig & Hsmall).
  rewrite rev_involutive in Hrev. subst pre. rewrite app_nil_r.
  unfold ascending in *. apply StronglySorted_app in Hpre as (Hcross & Hs & Hb).
  apply StronglySorted_app. split; [|split; [exact Hs|]].
  - intros a b Ha Hb'. apply elem_of_cons in Hb' as [->|Hb'].
    + destruct (last small) as [y|] eqn:Hlast.
      * pose proof (ascending_last small y a Hs Hlast Ha) as Hle.
        specialize (Hsmall y eq_refl). unfold lessKey in Hsmall.
        apply Z.ltb_ge in Hsmall. lia.
      * apply last_None in Hlast. subst small. inversion Ha.
    + apply Hcross; assumption.
  - apply StronglySorted_cons. split; [|exact Hb].
    eapply Forall_impl; [exact Hbig|]. intros b Hlt. unfold lessKey in Hlt.
    apply Z.ltb_lt in Hlt. lia.
Qed.

Lemma settle_tied t x (pre : list A) :
  tied t (settle lessKey x (rev pre) []) = tied t (pre ++ [x]).
Proof.
  destruct (settle_split lessKey (rev pre) x []) as (small & big & Hrev & -> & Hbig & _).
  rewrite rev_involutive in Hrev. subst pre. rewrite app_nil_r.
  unfold tied. rewrite !filter_app, filter_cons, <- app_assoc.
  f_equal. destruct (decide (key x = t)) as [Hx|Hx].
  - assert (Hnone : filter (fun a => key a = t) big = []).
    { clear - Hbig Hx. induction Hbig as [|b big Hlt _ IH]; [reflexivity|].
      rewrite filter_cons. unfold lessKey in Hlt. apply Z.ltb_lt in Hlt.
      destruct (decide (key b = t)); [lia|exact IH]. }
    rewrite Hnone, filter_cons. destruct (decide (key x = t)); [|contradiction].
    reflexivity.
  - rewrite filter_cons. destruct (decide (key x = t)); [contradiction|].
    rewrite filter_nil, app_nil_r. reflexivity.
Qed.

Lemma place_sorted (rest : list A) : forall pre,
  ascending pre ->
  Permutation (pre ++ rest) (place lessKey pre rest) /\
  ascending (place lessKey pre rest) /\
  forall t, tied t (place lessKey pre rest) = tied t (pre ++ rest).
Proof.
  induction rest as [|x rest IH]; intros pre Hpre.
  - simpl. rewrite app_nil_r. split; [reflexivity|]. split; [exact Hpre|reflexivity].
  - cbn [place].
    destruct (IH _ (settle_ascending x pre Hpre)) as (Hperm & Hasc & Htied).
    split; [|split; [exact Hasc|]].
    + rewrite <- Hperm, <- settle_perm, <- app_assoc. reflexivity.
    + intros t. rewrite Htied. unfold tied. rewrite filter_app.
      fold (tied t (settle lessKey x (rev pre) [])). rewrite settle_tied.
      unfold tied. change (x :: rest) with ([x] ++ rest)%list.
      rewrite !filter_app, app_assoc. reflexivity.
Qed.

Lemma sorted_by_insertion_sorted (data : list A) :
  Permutation data (sorted_by_insertion lessKey data) /\
  ascending (sorted_by_insertion lessKey data) /\
  forall t, tied t (sorted_by_insertion lessKey data) = tied t data.
Proof.
  destruct data as [|x rest]; simpl.
  - split; [reflexivity|]. split; [constructor|reflexivity].
  - apply (place_sorted rest [x]). repeat constructor.
Qed.

(** Two elements in a given order in a list. *)
Definition in_order (l : list A) (a b : A) : Prop :=
  exists i j, (i < j)%nat /\ l !! i = Some a /\ l !! j = Some b.

Lemma in_order_split l a b :
  in_order l a b <-> exists l1 l2 l3, l = (l1 ++ a :: l2 ++ b :: l3)%list.
Proof.
  split.
  - intros (i & j & Hlt & Hi & Hj).
    apply list_elem_of_split_length in Hi as (l1 & l23 & -> & ->).
    rewrite lookup_app_r in Hj by lia.
    destruct (j - length l1)%nat as [|k] eqn:Hk; [lia|]. simpl in Hj.
    apply list_elem_of_split_length in Hj as (l2 & l3 & -> & _).
    exists l1, l2, l3. reflexivity.
  - intros (l1 & l2 & l3 & ->).
    exists (length l1), (length l1 + S (length l2))%nat.
    split; [lia|]. split; [apply list_lookup_middle; reflexivity|].
    rewrite lookup_app_r by lia.
    replace (length l1 + S (length l2) - length l1)%nat with (S (length l2)) by lia.
    simpl. apply list_lookup_middle. reflexivity.
Qed.

Lemma in_order_sublist l k a b :
  l `sublist_of` k -> in_order l a b -> in_order k a b.
Proof.
  intros Hsub Hin. apply in_order_split in Hin as (l1 & l2 & l3 & ->).
  apply sublist_app_l in Hsub as (k1 & k2 & -> & _ & Hsub).
  apply sublist_cons_l in Hsub as (k3 & k4 & -> & Hsub).
  apply sublist_app_l in Hsub as (k5 & k6 & -> & _ & Hsub).
  apply sublist_cons_l in Hsub as (k7 & k8 & -> & _).
  apply in_order_split. exists (k1 ++ k3)%list, (k5 ++ k7)%list, k8.
  rewrite <- !app_assoc. reflexivity.
Qed.

Lemma in_order_tied t l a b :
  key a = t -> key b = t -> in_order l a b -> in_order (tied t l) a b.
Proof.
  intros Ha Hb Hin. apply in_order_split in Hin as (l1 & l2 & l3 & ->).
  apply in_order_split. unfold tied.
  exists (filter (fun a => key a = t) l1), (filter (fun a => key a = t) l2),
    (filter (fun a => key a = t) l3).
  rewrite filter_app, filter_cons, filter_app, filter_cons.
  destruct (decide (key a = t)); [|contradiction].
  destruct (decide (key b = t)); [|contradiction]. reflexivity.
Qed.

(** Elements with equal keys are in [out] in the order they have in
    [data]. *)
Definition keeps_tie_order (data out : list A) : Prop :=
  forall a b, key a = key b -> in_order data a b -> in_order out a b.

Lemma tied_keeps_order (data out : list A) :
  (forall t, tied t out = tied t data) -> keeps_tie_order data out.
Proof.
  intros Htied a b Hkey Hin.
  apply (in_order_sublist (tied (key b) out)); [apply sublist_filter; apply _|].
  rewrite Htied. apply in_order_tied; [exact Hkey|reflexivity|exact Hin].
Qed.

End SortedByKey.

(** *** The whole of [sort.Slice] *)

Section PdqFacts.
Context {A : Type} `{!Inhabited A} (key : A -> Z) (next : Z -> Z).

(** The slice with the elements at [i] and [j] exchanged. *)
Definition swap (data : list A) (i j : nat) : list A :=
  <[j := data !!! i]> (<[i := data !!! j]> data).

Lemma Less_ok (data : list A) i j :
  (i < length data)%nat -> (j < length data)%nat ->
  GoSort.Less (lessKey key) i j data =
    Ret (key (data !!! i) <? key (data !!! j), data).
Proof.
  intros Hi Hj. unfold GoSort.Less.
  rewrite (list_lookup_lookup_total_lt data i Hi).
  rewrite (list_lookup_lookup_total_lt data j Hj). reflexivity.
Qed.

Lemma Swap_ok (data : list A) i j :
  (i < length data)%nat -> (j < length data)%nat ->
  GoSort.Swap i j data = Ret (tt, swap data i j).
Proof.
  intros Hi Hj. unfold GoSort.Swap.
  rewrite (list_lookup_lookup_total_lt data i Hi).
  rewrite (list_lookup_lookup_total_lt data j Hj). reflexivity.
Qed.

Lemma swap_length data i j : length (swap data i j) = length data.
Proof. unfold swap. rewrite !length_insert. reflexivity. Qed.

Lemma swap_lookup data i j k :
  (i < length data)%nat -> (j < length data)%nat ->
  swap data i j !!! k =
    if decide (k = j) then data !!! i
    else if decide (k = i) then data !!! j else data !!! k.
Proof.
  intros Hi Hj. unfold swap.
  destruct (decide (k = j)) as [->|Hkj].
  - apply list_lookup_total_insert_eq. rewrite length_insert. exact Hj.
  - rewrite list_lookup_total_insert_ne by congruence.
    destruct (decide (k = i)) as [->|Hki].
    + apply list_lookup_total_insert_eq. exact Hi.
    + apply list_lookup_total_insert_ne. congruence.
Qed.

Lemma insert_perm (l : list A) j x y :
  l !! j = Some y -> Permutation (x :: l) (y :: <[j := x]> l).
Proof.
  revert j. induction l as [|z l IH]; intros [|j] Hj; try discriminate.
  - injection Hj as ->. simpl. apply perm_swap.
  - simpl in Hj |- *. rewrite perm_swap, (IH j Hj). apply perm_swap.
Qed.

Lemma swap_perm_lookup (l : list A) : forall i j x y,
  l !! i = Some x -> l !! j = Some y ->
  Permutation l (<[j := x]> (<[i := y]> l)).
Proof.
  induction l as [|z l IH]; intros [|i] [|j] x y Hi Hj; try discriminate.
  - injection Hi as ->. injection Hj as ->. reflexivity.
  - injection Hi as ->. simpl in Hj |- *. apply insert_perm. exact Hj.
  - injection Hj as ->. simpl in Hi |- *.
    rewrite (insert_perm l i y x Hi). reflexivity.
  - simpl in Hi, Hj |- *. apply perm_skip. apply IH; assumption.
Qed.

Lemma swap_perm data i j :
  (i < length data)%nat -> (j < length data)%nat ->
  Permutation data (swap data i j).
Proof.
  intros Hi Hj. unfold swap. apply swap_perm_lookup.
  - apply list_lookup_lookup_total_lt. exact Hi.
  - apply list_lookup_lookup_total_lt. exact Hj.
Qed.

(** What a computation on the elements from [a] up to [b] may do to the
    slice: exchange elements of that range. *)
Record moved (a b : nat) (data data' : list A) : Prop := mkMoved {
  moved_length : length data' = length data;
  moved_perm : Permutation data data';
  moved_outside : forall k, (k < a \/ b <= k)%nat -> data' !!! k = data !!! k;
  moved_inside : forall k, (a <= k < b)%nat ->
    exists k', (a <= k' < b)%nat /\ data' !!! k = data !!! k'
}.

Lemma moved_refl a b data : moved a b data data.
Proof.
  split; [reflexivity|reflexivity|reflexivity|].
  intros k Hk. exists k. split; [exact Hk|reflexivity].
Qed.

Lemma moved_trans a b d1 d2 d3 : moved a b d1 d2 -> moved a b d2 d3 -> moved a b d1 d3.
Proof.
  intros [L1 P1 O1 I1] [L2 P2 O2 I2]. split.
  - congruence.
  - etransitivity; eassumption.
  - intros k Hk. rewrite (O2 k Hk). apply O1, Hk.
  - intros k Hk. destruct (I2 k Hk) as (k1 & Hk1 & ->).
    destruct (I1 k1 Hk1) as (k2 & Hk2 & ->). exists k2. split; [exact Hk2|reflexivity].
Qed.

Lemma moved_mono a b a' b' data data' :
  (a' <= a)%nat -> (b <= b')%nat -> moved a b data data' -> moved a' b' data data'.
Proof.
  intros Ha Hb [L P O I]. split; [exact L|exact P| |].
  - intros k Hk. apply O. lia.
  - intros k Hk. destruct (decide (a <= k < b)%nat) as [Hin|Hout].
    + destruct (I k Hin) as (k' & Hk' & ->). exists k'. split; [lia|reflexivity].
    + exists k. split; [exact Hk|]. apply O. lia.
Qed.

Lemma moved_swap a b data i j :
  (a <= i < b)%nat -> (a <= j < b)%nat -> (b <= length data)%nat ->
  moved a b data (swap data i j).
Proof.
  intros Hi Hj Hb. split.
  - apply swap_length.
  - apply swap_perm; lia.
  - intros k Hk. rewrite swap_lookup by lia.
    destruct (decide (k = j)); [lia|]. destruct (decide (k = i)); [lia|reflexivity].
  - intros k Hk. rewrite swap_lookup by lia.
    destruct (decide (k = j)); [exists i; split; [lia|reflexivity]|].
    destruct (decide (k = i)); [exists j; split; [lia|reflexivity]|].
    exists k. split; [lia|reflexivity].
Qed.

(** A property of every element of the range goes with them. *)
Lemma moved_all a b data data' (P : A -> Prop) :
  moved a b data data' ->
  (forall k, (a <= k < b)%nat -> P (data !!! k)) ->
  forall k, (a <= k < b)%nat -> P (data' !!! k).
Proof.
  intros Hm HP k Hk. destruct (moved_inside _ _ _ _ Hm k Hk) as (k' & Hk' & ->).
  apply HP, Hk'.
Qed.

(** The keys from [a] up to [b] are in ascending order. *)
Definition sorted_on (data : list A) (a b : nat) : Prop :=
  forall i j, (a <= i)%nat -> (i <= j)%nat -> (j < b)%nat ->
    key (data !!! i) <= key (data !!! j).

Local Abbreviation K data i := (key (data !!! i%nat)).

Ltac step_with H := unfold mbind at 1, GoSort.sorting_bind at 1; rewrite H.

Ltac decide_cases :=
  repeat match goal with
         | |- context [decide ?P] => destruct (decide P); try lia
         end.

Ltac swap_cases :=
  rewrite ?swap_lookup by lia;
  repeat match goal with
         | |- context [decide ?P] => destruct (decide P); subst
         end;
  try lia; try reflexivity.

Lemma insertDown_ok a m : forall j data,
  (a <= j)%nat -> (j <= m)%nat -> (m < length data)%nat ->
  sorted_on data a j -> sorted_on data j (S m) ->
  (forall i k, (a <= i < j)%nat -> (j < k <= m)%nat -> K data i <= K data k) ->
  exists data',
    GoSort.insertDown (lessKey key) a j data = Ret (tt, data') /\
    moved a (S m) data data' /\ sorted_on data' a (S m).
Proof.
  induction j as [|j IH]; intros data Ha Hm Hlen Hpre Hpost Hcross.
  - exists data. split; [reflexivity|]. split; [apply moved_refl|].
    assert (a = 0)%nat as -> by lia. exact Hpost.
  - cbn [GoSort.insertDown].
    destruct (Nat.ltb_spec a (S j)) as [Hgt|Hle].
    + step_with (Less_ok data (S j) j ltac:(lia) ltac:(lia)).
      destruct (Z.ltb_spec (K data (S j)) (K data j)) as [Hlt|Hge].
      * step_with (Swap_ok data (S j) j ltac:(lia) ltac:(lia)).
        destruct (IH (swap data (S j) j)) as (data' & Hrun & Hmoved & Hsorted).
        -- lia.
        -- lia.
        -- rewrite swap_length. lia.
        -- intros i k Hi Hik Hk. swap_cases. apply Hpre; lia.
        -- intros i k Hi Hik Hk. swap_cases.
           ++ pose proof (Hpost (S j) k ltac:(lia) ltac:(lia) ltac:(lia)). lia.
           ++ apply Hcross; lia.
           ++ apply Hpost; lia.
        -- intros i k Hi Hk. swap_cases.
           ++ apply Hpre; lia.
           ++ apply Hcross; lia.
        -- exists data'. split; [exact Hrun|]. split; [|exact Hsorted].
           eapply moved_trans; [|exact Hmoved].
           apply moved_swap; lia.
      * exists data. split; [reflexivity|]. split; [apply moved_refl|].
        intros i k Hi Hik Hk.
        destruct (decide (k <= j)%nat); [apply Hpre; lia|].
        destruct (decide (S j <= i)%nat); [apply Hpost; lia|].
        destruct (decide (k = S j)) as [->|].
        -- pose proof (Hpre i j ltac:(lia) ltac:(lia) ltac:(lia)). lia.
        -- apply Hcross; lia.
    + exists data. split; [reflexivity|]. split; [apply moved_refl|].
      assert (a = S j) as -> by lia. exact Hpost.
Qed.

Lemma insertFrom_ok a : forall n i data,
  (a < i)%nat -> (i + n <= length data)%nat ->
  sorted_on data a i ->
  exists data',
    GoSort.insertFrom (lessKey key) a n i data = Ret (tt, data') /\
    moved a (i + n) data data' /\ sorted_on data' a (i + n).
Proof.
  induction n as [|n IH]; intros i data Hi Hlen Hsorted.
  - exists data. split; [reflexivity|]. split; [apply moved_refl|].
    rewrite Nat.add_0_r. exact Hsorted.
  - cbn [GoSort.insertFrom].
    destruct (insertDown_ok a i i data) as (d1 & Hrun1 & Hmoved1 & Hsorted1);
      [lia|lia|lia|exact Hsorted| | |].
    { intros x y Hx Hxy Hy. assert (x = y) as -> by lia. lia. }
    { intros x y Hx Hy. lia. }
    step_with Hrun1.
    destruct (IH (S i) d1) as (d2 & Hrun2 & Hmoved2 & Hsorted2).
    { lia. }
    { rewrite (moved_length _ _ _ _ Hmoved1). lia. }
    { exact Hsorted1. }
    exists d2. split; [exact Hrun2|].
    replace (i + S n)%nat with (S i + n)%nat by lia.
    split; [|exact Hsorted2].
    eapply moved_trans; [|exact Hmoved2].
    eapply moved_mono; [| |exact Hmoved1]; lia.
Qed.

Lemma insertionSort_ok a b data :
  (a <= b)%nat -> (b <= length data)%nat ->
  exists data',
    GoSort.insertionSort (lessKey key) a b data = Ret (tt, data') /\
    moved a b data data' /\ sorted_on data' a b.
Proof.
  intros Hab Hb. unfold GoSort.insertionSort.
  destruct (decide (b <= a + 1)%nat) as [Hshort|Hlong].
  - replace (b - (a + 1))%nat with 0%nat by lia.
    exists data. split; [reflexivity|]. split; [apply moved_refl|].
    intros i j Hi Hij Hj. assert (i = j) as -> by lia. lia.
  - destruct (insertFrom_ok a (b - (a + 1)) (a + 1) data)
      as (data' & Hrun & Hmoved & Hsorted); [lia|lia| |].
    { intros i j Hi Hij Hj. assert (i = j) as -> by lia. lia. }
    replace (a + 1 + (b - (a + 1)))%nat with b in * by lia.
    exists data'. split; [exact Hrun|]. split; assumption.
Qed.

(** The four scans of the two partitions. *)
Lemma skipLess_ok a : forall n i j (data : list A),
  (n = S j - i)%nat -> (j < length data)%nat -> (a < length data)%nat ->
  exists i',
    GoSort.skipLess (lessKey key) n a i j data = Ret (i', data) /\
    (i <= i')%nat /\ (i <= S j -> i' <= S j)%nat /\
    (forall k, (i <= k < i')%nat -> K data k < K data a) /\
    ((i' <= j)%nat -> K data a <= K data i').
Proof.
  induction n as [|n IH]; intros i j data Hn Hj Ha.
  - exists i. split; [reflexivity|]. repeat split; intros; lia.
  - cbn [GoSort.skipLess]. destruct (Nat.leb_spec i j) as [Hij|Hij]; [|lia].
    step_with (Less_ok data i a ltac:(lia) ltac:(lia)).
    destruct (Z.ltb_spec (K data i) (K data a)) as [Hlt|Hge].
    + destruct (IH (S i) j data ltac:(lia) Hj Ha) as (i' & Hrun & H1 & H2 & H3 & H4).
      exists i'. split; [exact Hrun|]. repeat split; try lia.
      intros k Hk. destruct (decide (k = i)) as [->|]; [exact Hlt|apply H3; lia].
    + exists i. split; [reflexivity|]. repeat split; intros; lia.
Qed.

Lemma skipNotLess_ok a : forall n i j (data : list A),
  (n = S j - i)%nat -> (1 <= i)%nat -> (j < length data)%nat ->
  (a < length data)%nat ->
  exists j',
    GoSort.skipNotLess (lessKey key) n a i j data = Ret (j', data) /\
    (j' <= j)%nat /\ (i <= S j -> i <= S j')%nat /\
    (forall k, (j' < k <= j)%nat -> K data a <= K data k) /\
    ((i <= j')%nat -> K data j' < K data a).
Proof.
  induction n as [|n IH]; intros i j data Hn Hi Hj Ha.
  - exists j. split; [reflexivity|]. repeat split; intros; lia.
  - cbn [GoSort.skipNotLess]. destruct (Nat.leb_spec i j) as [Hij|Hij]; [|lia].
    step_with (Less_ok data j a ltac:(lia) ltac:(lia)).
    destruct (Z.ltb_spec (K data j) (K data a)) as [Hlt|Hge]; simpl.
    + exists j. split; [reflexivity|]. repeat split; intros; lia.
    + destruct (IH i (j - 1)%nat data ltac:(lia) Hi ltac:(lia) Ha)
        as (j' & Hrun & H1 & H2 & H3 & H4).
      exists j'. split; [exact Hrun|]. repeat split; try lia.
      intros k Hk. destruct (decide (k = j)) as [->|]; [exact Hge|apply H3; lia].
Qed.

Lemma skipNotGreater_ok a : forall n i j (data : list A),
  (n = S j - i)%nat -> (j < length data)%nat -> (a < length data)%nat ->
  exists i',
    GoSort.skipNotGreater (lessKey key) n a i j data = Ret (i', data) /\
    (i <= i')%nat /\ (i <= S j -> i' <= S j)%nat /\
    (forall k, (i <= k < i')%nat -> K data k <= K data a) /\
    ((i' <= j)%nat -> K data a < K data i').
Proof.
  induction n as [|n IH]; intros i j data Hn Hj Ha.
  - exists i. split; [reflexivity|]. repeat split; intros; lia.
  - cbn [GoSort.skipNotGreater]. destruct (Nat.leb_spec i j) as [Hij|Hij]; [|lia].
    step_with (Less_ok data a i ltac:(lia) ltac:(lia)).
    destruct (Z.ltb_spec (K data a) (K data i)) as [Hlt|Hge]; simpl.
    + exists i. split; [reflexivity|]. repeat split; intros; lia.
    + destruct (IH (S i) j data ltac:(lia) Hj Ha) as (i' & Hrun & H1 & H2 & H3 & H4).
      exists i'. split; [exact Hrun|]. repeat split; try lia.
      intros k Hk. destruct (decide (k = i)) as [->|]; [exact Hge|apply H3; lia].
Qed.

Lemma skipGreater_ok a : forall n i j (data : list A),
  (n = S j - i)%nat -> (1 <= i)%nat -> (j < length data)%nat ->
  (a < length data)%nat ->
  exists j',
    GoSort.skipGreater (lessKey key) n a i j data = Ret (j', data) /\
    (j' <= j)%nat /\ (i <= S j -> i <= S j')%nat /\
    (forall k, (j' < k <= j)%nat -> K data a < K data k) /\
    ((i <= j')%nat -> K data j' <= K data a).
Proof.
  induction n as [|n IH]; intros i j data Hn Hi Hj Ha.
  - exists j. split; [reflexivity|]. repeat split; intros; lia.
  - cbn [GoSort.skipGreater]. destruct (Nat.leb_spec i j) as [Hij|Hij]; [|lia].
    step_with (Less_ok data a j ltac:(lia) ltac:(lia)).
    destruct (Z.ltb_spec (K data a) (K data j)) as [Hlt|Hge].
    + destruct (IH i (j - 1)%nat data ltac:(lia) Hi ltac:(lia) Ha)
        as (j' & Hrun & H1 & H2 & H3 & H4).
      exists j'. split; [exact Hrun|]. repeat split; try lia.
      intros k Hk. destruct (decide (k = j)) as [->|]; [exact Hlt|apply H3; lia].
    + exists j. split; [reflexivity|]. repeat split; intros; lia.
Qed.

Lemma partitionLoop_ok a b : forall fuel i j (data : list A),
  (a < i)%nat -> (i <= S j)%nat -> (j < b)%nat -> (b <= length data)%nat ->
  (S j - i < fuel)%nat ->
  (forall k, (a < k < i)%nat -> K data k < K data a) ->
  (forall k, (j < k < b)%nat -> K data a <= K data k) ->
  exists j' data',
    GoSort.partitionLoop (lessKey key) fuel a i j data = Ret (j', data') /\
    moved (S a) b data data' /\ (a <= j' < b)%nat /\
    (forall k, (a < k <= j')%nat -> K data' k < K data' a) /\
    (forall k, (j' < k < b)%nat -> K data' a <= K data' k).
Proof.
  induction fuel as [|fuel IH]; intros i j data Hai Hij Hjb Hb Hfuel Hlow Hhigh;
    [lia|].
  cbn [GoSort.partitionLoop].
  destruct (skipLess_ok a (S j - i) i j data eq_refl ltac:(lia) ltac:(lia))
    as (i1 & Hrun1 & Hi1 & Hi1' & Hless & Hstop1).
  step_with Hrun1.
  destruct (skipNotLess_ok a (S j - i1) i1 j data eq_refl ltac:(lia) ltac:(lia)
              ltac:(lia))
    as (j1 & Hrun2 & Hj1 & Hj1' & Hnotless & Hstop2).
  step_with Hrun2.
  destruct (Nat.ltb_spec j1 i1) as [Hend|Hmore].
  - exists j1, data. split; [reflexivity|]. split; [apply moved_refl|].
    split; [lia|]. split.
    + intros k Hk. destruct (decide (k < i)%nat); [apply Hlow; lia|apply Hless; lia].
    + intros k Hk. destruct (decide (k <= j)%nat); [apply Hnotless; lia|apply Hhigh; lia].
  - specialize (Hstop1 ltac:(lia)). specialize (Hstop2 ltac:(lia)).
    assert (Hlt : (i1 < j1)%nat).
    { destruct (decide (i1 = j1)) as [Heq|]; [|lia]. rewrite Heq in Hstop1. lia. }
    step_with (Swap_ok data i1 j1 ltac:(lia) ltac:(lia)).
    destruct (IH (S i1) (j1 - 1)%nat (swap data i1 j1))
      as (j' & data' & Hrun & Hmoved & Hj' & Hlow' & Hhigh').
    + lia.
    + lia.
    + lia.
    + rewrite swap_length. lia.
    + lia.
    + intros k Hk. swap_cases.
      destruct (decide (k < i)%nat); [apply Hlow; lia|apply Hless; lia].
    + intros k Hk. swap_cases.
      destruct (decide (k <= j)%nat); [apply Hnotless; lia|apply Hhigh; lia].
    + exists j', data'. split; [exact Hrun|]. split.
      * eapply moved_trans; [|exact Hmoved]. apply moved_swap; lia.
      * split; [lia|]. split; assumption.
Qed.

Lemma partition_ok a b pivot (data : list A) :
  (a <= pivot < b)%nat -> (b <= length data)%nat ->
  exists mid already data',
    GoSort.partition (lessKey key) a b pivot data = Ret ((mid, already), data') /\
    moved a b data data' /\ (a <= mid < b)%nat /\
    K data' mid = K data pivot /\
    (forall k, (a <= k < mid)%nat -> K data' k < K data' mid) /\
    (forall k, (mid < k < b)%nat -> K data' mid <= K data' k).
Proof.
  intros Hpivot Hb. unfold GoSort.partition.
  step_with (Swap_ok data a pivot ltac:(lia) ltac:(lia)).
  set (d0 := swap data a pivot).
  assert (Hlen0 : length d0 = length data) by apply swap_length.
  assert (Hm0 : moved a b data d0) by (apply moved_swap; lia).
  assert (Hp0 : K d0 a = K data pivot).
  { unfold d0. swap_cases. }
  destruct (skipLess_ok a (S (b - 1) - (a + 1)) (a + 1) (b - 1) d0 eq_refl
              ltac:(lia) ltac:(lia))
    as (i1 & Hrun1 & Hi1 & Hi1' & Hless & Hstop1).
  step_with Hrun1.
  destruct (skipNotLess_ok a (S (b - 1) - i1) i1 (b - 1) d0 eq_refl ltac:(lia)
              ltac:(lia) ltac:(lia))
    as (j1 & Hrun2 & Hj1 & Hj1' & Hnotless & Hstop2).
  step_with Hrun2.
  destruct (Nat.ltb_spec j1 i1) as [Hend|Hmore].
  - step_with (Swap_ok d0 j1 a ltac:(lia) ltac:(lia)).
    exists j1, true, (swap d0 j1 a). split; [reflexivity|].
    split; [eapply moved_trans; [exact Hm0|apply moved_swap; lia]|].
    split; [lia|]. split; [swap_cases|]. split.
    + intros k Hk. swap_cases. all: apply Hless; lia.
    + intros k Hk. swap_cases. all: apply Hnotless; lia.
  - specialize (Hstop1 ltac:(lia)). specialize (Hstop2 ltac:(lia)).
    assert (Hlt : (i1 < j1)%nat).
    { destruct (decide (i1 = j1)) as [Heq|]; [|lia]. rewrite Heq in Hstop1. lia. }
    step_with (Swap_ok d0 i1 j1 ltac:(lia) ltac:(lia)).
    destruct (partitionLoop_ok a b (b - a) (S i1) (j1 - 1)%nat (swap d0 i1 j1))
      as (j' & d2 & Hrun & Hmoved & Hj' & Hlow' & Hhigh').
    + lia.
    + lia.
    + lia.
    + rewrite swap_length. lia.
    + lia.
    + intros k Hk. swap_cases. apply Hless; lia.
    + intros k Hk. swap_cases. apply Hnotless; lia.
    + step_with Hrun.
      assert (Hlen2 : length d2 = length data).
      { rewrite (moved_length _ _ _ _ Hmoved), swap_length. exact Hlen0. }
      assert (Ha2 : d2 !!! a = d0 !!! a).
      { rewrite (moved_outside _ _ _ _ Hmoved) by lia. swap_cases. }
      step_with (Swap_ok d2 j' a ltac:(lia) ltac:(lia)).
      exists j', false, (swap d2 j' a). split; [reflexivity|]. split.
      * eapply moved_trans; [exact Hm0|].
        eapply moved_trans; [apply (moved_swap a b d0 i1 j1); lia|].
        eapply moved_trans; [eapply moved_mono; [| |exact Hmoved]; lia|].
        apply moved_swap; lia.
      * split; [lia|]. split; [swap_cases; rewrite Ha2; exact Hp0|]. split.
        -- intros k Hk. swap_cases. all: apply Hlow'; lia.
        -- intros k Hk. swap_cases. all: apply Hhigh'; lia.
Qed.

Lemma partitionEqualLoop_ok a b : forall fuel i j (data : list A),
  (a < i)%nat -> (i <= S j)%nat -> (j < b)%nat -> (b <= length data)%nat ->
  (S j - i < fuel)%nat ->
  (forall k, (a < k < i)%nat -> K data k <= K data a) ->
  (forall k, (j < k < b)%nat -> K data a < K data k) ->
  exists i' data',
    GoSort.partitionEqualLoop (lessKey key) fuel a i j data = Ret (i', data') /\
    moved (S a) b data data' /\ (a < i' <= b)%nat /\
    (forall k, (a < k < i')%nat -> K data' k <= K data' a) /\
    (forall k, (i' <= k < b)%nat -> K data' a < K data' k).
Proof.
  induction fuel as [|fuel IH]; intros i j data Hai Hij Hjb Hb Hfuel Hlow Hhigh;
    [lia|].
  cbn [GoSort.partitionEqualLoop].
  destruct (skipNotGreater_ok a (S j - i) i j data eq_refl ltac:(lia) ltac:(lia))
    as (i1 & Hrun1 & Hi1 & Hi1' & Hle & Hstop1).
  step_with Hrun1.
  destruct (skipGreater_ok a (S j - i1) i1 j data eq_refl ltac:(lia) ltac:(lia)
              ltac:(lia))
    as (j1 & Hrun2 & Hj1 & Hj1' & Hgt & Hstop2).
  step_with Hrun2.
  destruct (Nat.ltb_spec j1 i1) as [Hend|Hmore].
  - exists i1, data. split; [reflexivity|]. split; [apply moved_refl|].
    split; [lia|]. split.
    + intros k Hk. destruct (decide (k < i)%nat); [apply Hlow; lia|apply Hle; lia].
    + intros k Hk. destruct (decide (k <= j)%nat); [apply Hgt; lia|apply Hhigh; lia].
  - specialize (Hstop1 ltac:(lia)). specialize (Hstop2 ltac:(lia)).
    assert (Hlt : (i1 < j1)%nat).
    { destruct (decide (i1 = j1)) as [Heq|]; [|lia]. rewrite Heq in Hstop1. lia. }
    step_with (Swap_ok data i1 j1 ltac:(lia) ltac:(lia)).
    destruct (IH (S i1) (j1 - 1)%nat (swap data i1 j1))
      as (i' & data' & Hrun & Hmoved & Hi' & Hlow' & Hhigh').
    + lia.
    + lia.
    + lia.
    + rewrite swap_length. lia.
    + lia.
    + intros k Hk. swap_cases.
      destruct (decide (k < i)%nat); [apply Hlow; lia|apply Hle; lia].
    + intros k Hk. swap_cases.
      destruct (decide (k <= j)%nat); [apply Hgt; lia|apply Hhigh; lia].
    + exists i', data'. split; [exact Hrun|]. split.
      * eapply moved_trans; [|exact Hmoved]. apply moved_swap; lia.
      * split; [lia|]. split; assumption.
Qed.

Lemma partitionEqual_ok a b pivot (data : list A) :
  (a <= pivot < b)%nat -> (b <= length data)%nat ->
  exists mid data',
    GoSort.partitionEqual (lessKey key) a b pivot data = Ret (mid, data') /\
    moved a b data data' /\ (a < mid <= b)%nat /\
    (forall k, (a <= k < mid)%nat -> K data' k <= K data pivot) /\
    (forall k, (mid <= k < b)%nat -> K data pivot < K data' k).
Proof.
  intros Hpivot Hb. unfold GoSort.partitionEqual.
  step_with (Swap_ok data a pivot ltac:(lia) ltac:(lia)).
  set (d0 := swap data a pivot).
  assert (Hlen0 : length d0 = length data) by apply swap_length.
  assert (Hm0 : moved a b data d0) by (apply moved_swap; lia).
  assert (Hp0 : K d0 a = K data pivot).
  { unfold d0. swap_cases. }
  destruct (partitionEqualLoop_ok a b (S (b - a)) (a + 1) (b - 1) d0)
    as (mid & d1 & Hrun & Hmoved & Hmid & Hlow & Hhigh);
    [lia|lia|lia|lia|lia| | |].
  { intros k Hk. lia. }
  { intros k Hk. lia. }
  assert (Ha1 : d1 !!! a = d0 !!! a).
  { apply (moved_outside _ _ _ _ Hmoved). lia. }
  exists mid, d1. split; [exact Hrun|]. split.
  - eapply moved_trans; [exact Hm0|]. eapply moved_mono; [| |exact Hmoved]; lia.
  - split; [lia|]. rewrite <- Hp0, <- Ha1. split.
    + intros k Hk. destruct (decide (k = a)) as [->|]; [lia|apply Hlow; lia].
    + intros k Hk. apply Hhigh. lia.
Qed.

(** The pivot is an index of the range and the slice is not touched. *)
Lemma order2_ok x y swaps (data : list A) :
  (x < length data)%nat -> (y < length data)%nat ->
  exists x' y' swaps',
    GoSort.order2 (lessKey key) x y swaps data = Ret ((x', y', swaps'), data) /\
    ((x' = x /\ y' = y) \/ (x' = y /\ y' = x)).
Proof.
  intros Hx Hy. unfold GoSort.order2.
  step_with (Less_ok data y x Hy Hx).
  destruct (_ <? _); eexists _, _, _; (split; [reflexivity|]); [right|left];
    split; reflexivity.
Qed.

Lemma median_ok x y z swaps (data : list A) :
  (x < length data)%nat -> (y < length data)%nat -> (z < length data)%nat ->
  exists m swaps',
    GoSort.median (lessKey key) x y z swaps data = Ret ((m, swaps'), data) /\
    (m = x \/ m = y \/ m = z).
Proof.
  intros Hx Hy Hz. unfold GoSort.median.
  destruct (order2_ok x y swaps data Hx Hy) as (x1 & y1 & s1 & Hrun1 & H1).
  step_with Hrun1.
  destruct (order2_ok y1 z s1 data ltac:(lia) Hz) as (y2 & z2 & s2 & Hrun2 & H2).
  step_with Hrun2.
  destruct (order2_ok x1 y2 s2 data ltac:(lia) ltac:(lia))
    as (x3 & y3 & s3 & Hrun3 & H3).
  step_with Hrun3.
  exists y3, s3. split; [reflexivity|]. lia.
Qed.

Lemma choosePivot_ok a b (data : list A) :
  (a < b)%nat -> (b <= length data)%nat ->
  exists pivot hint,
    GoSort.choosePivot (lessKey key) a b data = Ret ((pivot, hint), data) /\
    (a <= pivot < b)%nat.
Proof.
  intros Hab Hb. unfold GoSort.choosePivot.
  set (l := (b - a)%nat). set (q := (l / 4)%nat).
  assert (Hq : (4 * q <= l < 4 * q + 4)%nat).
  { unfold q. pose proof (Nat.div_mod_eq l 4).
    pose proof (Nat.mod_upper_bound l 4 ltac:(lia)). lia. }
  assert (Hl : (a + l = b)%nat) by (unfold l; lia).
  clearbody q. clearbody l.
  destruct (Nat.leb_spec 8 l) as [Hbig|Hsmall].
  - destruct (Nat.leb_spec 50 l) as [Hhuge|Hmid].
    + unfold GoSort.medianAdjacent, mbind, GoSort.sorting_bind, mret,
        GoSort.sorting_ret.
      destruct (median_ok (a + q * 1 - 1) (a + q * 1) (a + q * 1 + 1) 0 data)
        as (i1 & s1 & Hrun1 & Hi1); [lia|lia|lia|].
      rewrite Hrun1.
      destruct (median_ok (a + q * 2 - 1) (a + q * 2) (a + q * 2 + 1) s1 data)
        as (j1 & s2 & Hrun2 & Hj1); [lia|lia|lia|].
      rewrite Hrun2.
      destruct (median_ok (a + q * 3 - 1) (a + q * 3) (a + q * 3 + 1) s2 data)
        as (k1 & s3 & Hrun3 & Hk1); [lia|lia|lia|].
      rewrite Hrun3.
      destruct (median_ok i1 j1 k1 s3 data) as (m & s4 & Hrun4 & Hm);
        [lia|lia|lia|].
      rewrite Hrun4.
      eexists m, _. split; [reflexivity|]. lia.
    + unfold mbind, GoSort.sorting_bind, mret, GoSort.sorting_ret.
      destruct (median_ok (a + q * 1) (a + q * 2) (a + q * 3) 0 data)
        as (m & s4 & Hrun4 & Hm); [lia|lia|lia|].
      rewrite Hrun4.
      eexists m, _. split; [reflexivity|]. lia.
  - eexists (a + q * 2)%nat, _. split; [reflexivity|]. lia.
Qed.

Lemma reverseLoop_ok a b : forall fuel i j (data : list A),
  (a <= i)%nat -> (j < b)%nat -> (b <= length data)%nat -> (j - i < fuel)%nat ->
  exists data',
    GoSort.reverseLoop fuel i j data = Ret (tt, data') /\ moved a b data data'.
Proof.
  induction fuel as [|fuel IH]; intros i j data Hi Hj Hb Hfuel; [lia|].
  cbn [GoSort.reverseLoop]. destruct (Nat.ltb_spec i j) as [Hlt|Hge].
  - step_with (Swap_ok data i j ltac:(lia) ltac:(lia)).
    destruct (IH (S i) (j - 1)%nat (swap data i j)) as (data' & Hrun & Hmoved);
      [lia|lia|rewrite swap_length; lia|lia|].
    exists data'. split; [exact Hrun|].
    eapply moved_trans; [|exact Hmoved]. apply moved_swap; lia.
  - exists data. split; [reflexivity|apply moved_refl].
Qed.

Lemma reverseRange_ok a b (data : list A) :
  (a < b)%nat -> (b <= length data)%nat ->
  exists data',
    GoSort.reverseRange a b data = Ret (tt, data') /\ moved a b data data'.
Proof.
  intros Hab Hb. apply reverseLoop_ok; lia.
Qed.

Lemma breakLoop_ok a b : forall n i random bits length idx (data : list A),
  (b <= Datatypes.length data)%nat -> (a + length = b)%nat ->
  0 <= bits -> 2 ^ bits <= 2 * Z.of_nat length ->
  (a < idx - 1)%nat -> (idx - 1 + i + n <= b)%nat ->
  exists data',
    GoSort.breakLoop next n i random (2 ^ bits) length idx a data = Ret (tt, data') /\
    moved a b data data'.
Proof.
  induction n as [|n IH]; intros i random bits length idx data Hb Hlen Hbits Hmod Hidx Hn.
  - exists data. split; [reflexivity|apply moved_refl].
  - cbn [GoSort.breakLoop].
    set (other := Z.to_nat (Z.land (next random) (2 ^ bits - 1))).
    set (other' := if (length <=? other)%nat then (other - length)%nat else other).
    assert (Hother : (other' < length)%nat).
    { assert (Hland : 0 <= Z.land (next random) (2 ^ bits - 1) < 2 ^ bits).
      { replace (2 ^ bits - 1) with (Z.ones bits)
          by (rewrite Z.ones_equiv; lia).
        rewrite Z.land_ones by exact Hbits.
        apply Z.mod_pos_bound. lia. }
      unfold other'. destruct (Nat.leb_spec length other); unfold other in *; lia. }
    step_with (Swap_ok data (idx - 1 + i) (a + other') ltac:(lia) ltac:(lia)).
    destruct (IH (S i) (next random) bits length idx
                (swap data (idx - 1 + i) (a + other')))
      as (data' & Hrun & Hmoved); [rewrite swap_length; lia|lia|lia|lia|lia|lia|].
    exists data'. split; [exact Hrun|].
    eapply moved_trans; [|exact Hmoved]. apply moved_swap; lia.
Qed.

Lemma breakPatterns_ok a b (data : list A) :
  (a <= b)%nat -> (b <= length data)%nat ->
  exists data',
    GoSort.breakPatterns next a b data = Ret (tt, data') /\ moved a b data data'.
Proof.
  intros Hab Hb. unfold GoSort.breakPatterns.
  set (l := (b - a)%nat).
  destruct (Nat.leb_spec 8 l) as [Hbig|Hsmall];
    [|exists data; split; [reflexivity|apply moved_refl]].
  set (q := (l / 4)%nat).
  assert (Hq : (4 * q <= l < 4 * q + 4)%nat).
  { unfold q. pose proof (Nat.div_mod_eq l 4).
    pose proof (Nat.mod_upper_bound l 4 ltac:(lia)). lia. }
  assert (Hl : (a + l = b)%nat) by (unfold l; lia).
  rewrite Z.shiftl_1_l.
  apply breakLoop_ok.
  - exact Hb.
  - exact Hl.
  - lia.
  - unfold GoSort.bitsLen. destruct l as [|l'] eqn:Hl'; [lia|].
    rewrite <- Hl'. assert (Hpos : (0 < l)%nat) by lia.
    pose proof (Nat.log2_spec l Hpos) as [Hlog _].
    rewrite Nat2Z.inj_succ, Z.pow_succ_r by lia.
    apply (inj_le _ _) in Hlog. rewrite Nat2Z.inj_pow in Hlog. simpl Z.of_nat in Hlog.
    lia.
  - clearbody q. clearbody l. lia.
  - clearbody q. clearbody l. lia.
Qed.

(** The element before the range, when there is one, is not above any
    element of the range. *)
Definition low_ok (data : list A) (a b : nat) : Prop :=
  a = 0%nat \/
  ((0 < a)%nat /\ forall k, (a <= k < b)%nat -> K data (a - 1)%nat <= K data k).

Lemma low_ok_moved a b data data' :
  moved a b data data' -> low_ok data a b -> low_ok data' a b.
Proof.
  intros Hm [->|[Ha Hlow]]; [left; reflexivity|right].
  split; [exact Ha|]. intros k Hk.
  rewrite (moved_outside _ _ _ _ Hm (a - 1)%nat) by lia.
  revert k Hk. apply (moved_all a b data data' (fun x => K data (a - 1)%nat <= key x) Hm).
  exact Hlow.
Qed.

Lemma low_ok_mono a b b' data : (b' <= b)%nat -> low_ok data a b -> low_ok data a b'.
Proof.
  intros Hb [->|[Ha Hlow]]; [left; reflexivity|right].
  split; [exact Ha|]. intros k Hk. apply Hlow. lia.
Qed.

Lemma sorted_on_extend (data : list A) a i :
  (a < i)%nat -> sorted_on data a i -> K data (i - 1)%nat <= K data i ->
  sorted_on data a (S i).
Proof.
  intros Hai Hs Hle x y Hx Hxy Hy.
  destruct (decide (y = i)) as [->|]; [|apply Hs; lia].
  destruct (decide (x = i)) as [->|]; [lia|].
  pose proof (Hs x (i - 1)%nat ltac:(lia) ltac:(lia) ltac:(lia)). lia.
Qed.

Lemma shiftLeft_ok a m : forall j data,
  (a <= j)%nat -> (j <= m)%nat -> (m < length data)%nat ->
  low_ok data a (S m) ->
  sorted_on data a j -> sorted_on data j (S m) ->
  (forall i k, (a <= i < j)%nat -> (j < k <= m)%nat -> K data i <= K data k) ->
  exists data',
    GoSort.shiftLeft (lessKey key) j data = Ret (tt, data') /\
    moved a (S m) data data' /\ sorted_on data' a (S m).
Proof.
  induction j as [|j IH]; intros data Ha Hm Hlen Hlow Hpre Hpost Hcross.
  - exists data. split; [reflexivity|]. split; [apply moved_refl|].
    assert (a = 0)%nat as -> by lia. exact Hpost.
  - cbn [GoSort.shiftLeft].
    step_with (Less_ok data (S j) j ltac:(lia) ltac:(lia)).
    destruct (Z.ltb_spec (K data (S j)) (K data j)) as [Hlt|Hge].
    + assert (Hgt : (a < S j)%nat).
      { destruct (decide (a = S j)) as [Heq|]; [|lia]. exfalso.
        destruct Hlow as [->|[_ Hlow]]; [lia|].
        specialize (Hlow (S j) ltac:(lia)). subst a.
        replace (S j - 1)%nat with j in Hlow by lia. lia. }
      step_with (Swap_ok data (S j) j ltac:(lia) ltac:(lia)).
      destruct (IH (swap data (S j) j)) as (data' & Hrun & Hmoved & Hsorted).
      * lia.
      * lia.
      * rewrite swap_length. lia.
      * apply (low_ok_moved a (S m) data); [apply moved_swap; lia|exact Hlow].
      * intros i k Hi Hik Hk. swap_cases. apply Hpre; lia.
      * intros i k Hi Hik Hk. swap_cases.
        -- pose proof (Hpost (S j) k ltac:(lia) ltac:(lia) ltac:(lia)). lia.
        -- apply Hcross; lia.
        -- apply Hpost; lia.
      * intros i k Hi Hk. swap_cases.
        -- apply Hpre; lia.
        -- apply Hcross; lia.
      * exists data'. split; [exact Hrun|]. split; [|exact Hsorted].
        eapply moved_trans; [|exact Hmoved].
        apply moved_swap; lia.
    + exists data. split; [reflexivity|]. split; [apply moved_refl|].
      intros i k Hi Hik Hk.
      destruct (decide (k <= j)%nat); [apply Hpre; lia|].
      destruct (decide (S j <= i)%nat); [apply Hpost; lia|].
      destruct (decide (k = S j)) as [->|].
      * pose proof (Hpre i j ltac:(lia) ltac:(lia) ltac:(lia)). lia.
      * apply Hcross; lia.
Qed.

Lemma shiftRight_ok b : forall n j (data : list A),
  (1 <= j)%nat -> (j + n <= b)%nat -> (b <= length data)%nat ->
  exists data',
    GoSort.shiftRight (lessKey key) n j data = Ret (tt, data') /\
    moved (j - 1) b data data'.
Proof.
  induction n as [|n IH]; intros j data Hj Hn Hb.
  - exists data. split; [reflexivity|apply moved_refl].
  - cbn [GoSort.shiftRight].
    step_with (Less_ok data j (j - 1)%nat ltac:(lia) ltac:(lia)).
    destruct (_ <? _); [|exists data; split; [reflexivity|apply moved_refl]].
    step_with (Swap_ok data j (j - 1)%nat ltac:(lia) ltac:(lia)).
    destruct (IH (S j) (swap data j (j - 1)%nat)) as (data' & Hrun & Hmoved);
      [lia|lia|rewrite swap_length; lia|].
    exists data'. split; [exact Hrun|].
    eapply moved_trans; [apply (moved_swap (j - 1) b data j (j - 1)); lia|].
    eapply moved_mono; [| |exact Hmoved]; lia.
Qed.

Lemma skipOrdered_ok a b : forall n i (data : list A),
  (n = b - i)%nat -> (a < i)%nat -> (b <= length data)%nat ->
  sorted_on data a i ->
  exists i',
    GoSort.skipOrdered (lessKey key) n i b data = Ret (i', data) /\
    (i <= i')%nat /\ (i <= b -> i' <= b)%nat /\ sorted_on data a i'.
Proof.
  induction n as [|n IH]; intros i data Hn Hai Hb Hsorted.
  - exists i. split; [reflexivity|]. repeat split; try lia. exact Hsorted.
  - cbn [GoSort.skipOrdered]. destruct (Nat.ltb_spec i b) as [Hlt|]; [|lia].
    step_with (Less_ok data i (i - 1)%nat ltac:(lia) ltac:(lia)).
    destruct (Z.ltb_spec (K data i) (K data (i - 1)%nat)) as [Hdesc|Hasc]; simpl.
    + exists i. split; [reflexivity|]. repeat split; try lia. exact Hsorted.
    + destruct (IH (S i) data ltac:(lia) ltac:(lia) Hb
                  (sorted_on_extend data a i Hai Hsorted Hasc))
        as (i' & Hrun & H1 & H2 & H3).
      exists i'. split; [exact Hrun|]. repeat split; try lia. exact H3.
Qed.

Lemma partialInsertionLoop_ok a b : forall steps i (data : list A),
  (a < i)%nat -> (i <= b)%nat -> (b <= length data)%nat ->
  low_ok data a b -> sorted_on data a i ->
  exists done data',
    GoSort.partialInsertionLoop (lessKey key) steps a b i data = Ret (done, data') /\
    moved a b data data' /\ (done = true -> sorted_on data' a b).
Proof.
  induction steps as [|steps IH]; intros i data Hai Hib Hb Hlow Hsorted.
  - exists false, data. split; [reflexivity|]. split; [apply moved_refl|discriminate].
  - cbn [GoSort.partialInsertionLoop].
    destruct (skipOrdered_ok a b (b - i)%nat i data eq_refl Hai Hb Hsorted)
      as (i1 & Hrun1 & Hi1 & Hi1' & Hsorted1).
    step_with Hrun1.
    destruct (Nat.eqb_spec i1 b) as [->|Hne].
    { exists true, data. split; [reflexivity|]. split; [apply moved_refl|].
      intros _. exact Hsorted1. }
    destruct (b - a <? 50)%nat.
    { exists false, data. split; [reflexivity|]. split; [apply moved_refl|discriminate]. }
    step_with (Swap_ok data i1 (i1 - 1)%nat ltac:(lia) ltac:(lia)).
    set (d1 := swap data i1 (i1 - 1)%nat).
    assert (Hm1 : moved a b data d1) by (apply moved_swap; lia).
    assert (Hlen1 : length d1 = length data) by apply swap_length.
    assert (Hleft : exists d2,
               (if (2 <=? i1 - a)%nat
                then GoSort.shiftLeft (lessKey key) (i1 - 1)%nat
                else mret tt) d1 = Ret (tt, d2) /\
               moved a b d1 d2 /\ sorted_on d2 a i1).
    { destruct (Nat.leb_spec 2 (i1 - a)) as [Hfar|Hnear].
      - destruct (shiftLeft_ok a (i1 - 1)%nat (i1 - 1)%nat d1)
          as (d2 & Hrun & Hmoved & Hs); [lia|lia|lia| | | | |].
        + apply (low_ok_mono a b); [lia|].
          apply (low_ok_moved a b data); assumption.
        + intros x y Hx Hxy Hy. unfold d1. swap_cases. apply Hsorted1; lia.
        + intros x y Hx Hxy Hy. assert (x = y) as -> by lia. lia.
        + intros x y Hx Hy. lia.
        + replace (S (i1 - 1)%nat) with i1 in * by lia.
          exists d2. split; [exact Hrun|]. split; [|exact Hs].
          eapply moved_mono; [| |exact Hmoved]; lia.
      - exists d1. split; [reflexivity|]. split; [apply moved_refl|].
        intros x y Hx Hxy Hy. assert (x = y) as -> by lia. lia. }
    destruct Hleft as (d2 & Hrun2 & Hm2 & Hsorted2).
    step_with Hrun2.
    assert (Hlen2 : length d2 = length data).
    { rewrite (moved_length _ _ _ _ Hm2). exact Hlen1. }
    assert (Hright : exists d3,
               (if (2 <=? b - i1)%nat
                then GoSort.shiftRight (lessKey key) (b - (i1 + 1))%nat (i1 + 1)%nat
                else mret tt) d2 = Ret (tt, d3) /\
               moved i1 b d2 d3).
    { destruct (Nat.leb_spec 2 (b - i1)) as [Hfar|Hnear].
      - destruct (shiftRight_ok b (b - (i1 + 1))%nat (i1 + 1)%nat d2)
          as (d3 & Hrun & Hmoved); [lia|lia|lia|].
        replace (i1 + 1 - 1)%nat with i1 in Hmoved by lia.
        exists d3. split; assumption.
      - exists d2. split; [reflexivity|apply moved_refl]. }
    destruct Hright as (d3 & Hrun3 & Hm3).
    step_with Hrun3.
    assert (Hm13 : moved a b data d3).
    { eapply moved_trans; [exact Hm1|]. eapply moved_trans; [exact Hm2|].
      eapply moved_mono; [| |exact Hm3]; lia. }
    destruct (IH i1 d3) as (done & d4 & Hrun4 & Hm4 & Hdone).
    + lia.
    + lia.
    + rewrite (moved_length _ _ _ _ Hm3). lia.
    + apply (low_ok_moved a b data); assumption.
    + intros x y Hx Hxy Hy.
      rewrite !(moved_outside _ _ _ _ Hm3) by lia. apply Hsorted2; lia.
    + exists done, d4. split; [exact Hrun4|]. split; [|exact Hdone].
      eapply moved_trans; [exact Hm13|exact Hm4].
Qed.

Lemma partialInsertionSort_ok a b (data : list A) :
  (a < b)%nat -> (b <= length data)%nat -> low_ok data a b ->
  exists done data',
    GoSort.partialInsertionSort (lessKey key) a b data = Ret (done, data') /\
    moved a b data data' /\ (done = true -> sorted_on data' a b).
Proof.
  intros Hab Hb Hlow. unfold GoSort.partialInsertionSort.
  apply partialInsertionLoop_ok; [lia|lia|exact Hb|exact Hlow|].
  intros x y Hx Hxy Hy. assert (x = y) as -> by lia. lia.
Qed.

(** The heap of [heapSort_func]: node [p] of the heap laid out from
    [first] is not below its children, among the first [hi] nodes. *)
Definition heap_at (data : list A) (first hi p : nat) : Prop :=
  forall c, (c = 2 * p + 1 \/ c = 2 * p + 2)%nat -> (c < hi)%nat ->
    K data (first + c) <= K data (first + p).

Lemma siftDown_ok first hi lo : forall fuel root (data : list A),
  (lo <= root)%nat -> (first + hi <= length data)%nat -> (hi - root < fuel)%nat ->
  (forall p, (lo <= p)%nat -> p <> root -> heap_at data first hi p) ->
  (forall q c, (lo <= q)%nat -> (root = 2 * q + 1 \/ root = 2 * q + 2)%nat ->
     (c = 2 * root + 1 \/ c = 2 * root + 2)%nat -> (c < hi)%nat ->
     K data (first + c) <= K data (first + q)) ->
  exists data',
    GoSort.siftDown (lessKey key) fuel root hi first data = Ret (tt, data') /\
    moved (first + lo) (first + hi) data data' /\
    (forall p, (lo <= p)%nat -> heap_at data' first hi p).
Proof.
  induction fuel as [|fuel IH]; intros root data Hlo Hlen Hfuel Hheap Hgrand; [lia|].
  cbn [GoSort.siftDown].
  destruct (Nat.leb_spec hi (2 * root + 1)) as [Hleaf|Hchild].
  { exists data. split; [reflexivity|]. split; [apply moved_refl|].
    intros p Hp. destruct (decide (p = root)) as [->|Hne]; [|apply Hheap; assumption].
    intros c Hc Hchi. lia. }
  assert (Hpick : exists child,
             (if (2 * root + 1 + 1 <? hi)%nat
              then GoSort.Less (lessKey key) (first + (2 * root + 1))
                     (first + (2 * root + 1) + 1)
              else mret false) data
             = Ret ((child =? 2 * root + 2)%nat, data) /\
             (child = 2 * root + 1 \/ child = 2 * root + 2)%nat /\
             (child < hi)%nat /\
             (forall c, (c = 2 * root + 1 \/ c = 2 * root + 2)%nat -> (c < hi)%nat ->
                K data (first + c) <= K data (first + child))).
  { destruct (Nat.ltb_spec (2 * root + 1 + 1) hi) as [Htwo|Hone].
    - rewrite (Less_ok data (first + (2 * root + 1)) (first + (2 * root + 1) + 1)
                 ltac:(lia) ltac:(lia)).
      destruct (Z.ltb_spec (K data (first + (2 * root + 1)))
                  (K data (first + (2 * root + 1) + 1))) as [Hlt|Hge].
      + exists (2 * root + 2)%nat. rewrite Nat.eqb_refl.
        split; [reflexivity|]. split; [lia|]. split; [lia|].
        intros c [->| ->] Hc.
        * replace (first + (2 * root + 2))%nat with (first + (2 * root + 1) + 1)%nat by lia.
          lia.
        * lia.
      + exists (2 * root + 1)%nat.
        destruct (Nat.eqb_spec (2 * root + 1) (2 * root + 2)) as [|_]; [lia|].
        split; [reflexivity|]. split; [lia|]. split; [lia|].
        intros c [->| ->] Hc.
        * lia.
        * replace (first + (2 * root + 2))%nat with (first + (2 * root + 1) + 1)%nat by lia.
          lia.
    - exists (2 * root + 1)%nat.
      destruct (Nat.eqb_spec (2 * root + 1) (2 * root + 2)) as [|_]; [lia|].
      split; [reflexivity|]. split; [lia|]. split; [lia|].
      intros c [->| ->] Hc; lia. }
  destruct Hpick as (child & Hrun1 & Hchild' & Hchi & Hbest).
  step_with Hrun1.
  assert (Hsel : (if (child =? 2 * root + 2)%nat then (2 * root + 1 + 1)%nat
                  else (2 * root + 1)%nat) = child).
  { destruct (Nat.eqb_spec child (2 * root + 2)); lia. }
  rewrite Hsel.
  step_with (Less_ok data (first + root) (first + child) ltac:(lia) ltac:(lia)).
  destruct (Z.ltb_spec (K data (first + root)) (K data (first + child)))
    as [Hlt|Hge]; simpl.
  - step_with (Swap_ok data (first + root) (first + child) ltac:(lia) ltac:(lia)).
    set (d1 := swap data (first + root) (first + child)).
    assert (Hat : forall x, d1 !!! (first + x)%nat =
                   if decide (x = child) then data !!! (first + root)%nat
                   else if decide (x = root) then data !!! (first + child)%nat
                   else data !!! (first + x)%nat).
    { intros x. unfold d1. rewrite swap_lookup by lia.
      destruct (decide (x = child)), (decide (x = root));
        repeat (destruct (decide _)); try lia; reflexivity. }
    destruct (IH child d1) as (data' & Hrun & Hmoved & Hheap').
    + lia.
    + unfold d1. rewrite swap_length. lia.
    + lia.
    + intros p Hp Hne c Hc Hchi'. rewrite !Hat. decide_cases.
      * subst c. pose proof (Hgrand p child Hp ltac:(lia) Hchild' Hchi). lia.
      * subst p. apply Hbest; assumption.
      * apply Hheap; assumption.
    + intros q c Hq Hroot Hc Hchi'.
      assert (q = root) as -> by lia. rewrite !Hat. decide_cases.
      apply (Hheap child ltac:(lia) ltac:(lia) c Hc Hchi').
    + exists data'. split; [exact Hrun|]. split; [|exact Hheap'].
      eapply moved_trans; [|exact Hmoved]. apply moved_swap; lia.
  - exists data. split; [reflexivity|]. split; [apply moved_refl|].
    intros p Hp. destruct (decide (p = root)) as [->|Hne]; [|apply Hheap; assumption].
    intros c Hc Hchi'. pose proof (Hbest c Hc Hchi'). lia.
Qed.

Lemma heap_max (data : list A) first hi :
  (forall p, heap_at data first hi p) ->
  forall c, (c < hi)%nat -> K data (first + c) <= K data (first + 0).
Proof.
  intros Hheap c. induction c as [c IH] using lt_wf_ind. intros Hc.
  destruct c as [|c']; [lia|].
  pose proof (Nat.div_mod_eq c' 2) as Hdiv.
  pose proof (Nat.mod_upper_bound c' 2 ltac:(lia)) as Hmod.
  set (p := (c' / 2)%nat) in *.
  assert (Hp : (S c' = 2 * p + 1 \/ S c' = 2 * p + 2)%nat) by lia.
  pose proof (Hheap p (S c') Hp Hc).
  pose proof (IH p ltac:(lia) ltac:(lia)). lia.
Qed.

Lemma heapBuild_ok first hi : forall k (data : list A),
  (first + hi <= length data)%nat ->
  (forall p, (k <= p)%nat -> heap_at data first hi p) ->
  exists data',
    GoSort.downFrom k (fun i => GoSort.siftDown (lessKey key) (S hi) i hi first) data
      = Ret (tt, data') /\
    moved first (first + hi) data data' /\
    (forall p, heap_at data' first hi p).
Proof.
  induction k as [|k IH]; intros data Hlen Hheap.
  - exists data. split; [reflexivity|]. split; [apply moved_refl|].
    intros p. apply Hheap. lia.
  - cbn [GoSort.downFrom].
    destruct (siftDown_ok first hi k (S hi) k data)
      as (d1 & Hrun1 & Hmoved1 & Hheap1); [lia|lia|lia| | |].
    { intros p Hp Hne. apply Hheap. lia. }
    { intros q c Hq Hroot. lia. }
    step_with Hrun1.
    destruct (IH d1) as (d2 & Hrun2 & Hmoved2 & Hheap2).
    { rewrite (moved_length _ _ _ _ Hmoved1). exact Hlen. }
    { exact Hheap1. }
    exists d2. split; [exact Hrun2|]. split; [|exact Hheap2].
    eapply moved_trans; [|exact Hmoved2].
    eapply moved_mono; [| |exact Hmoved1]; lia.
Qed.

Lemma heapPop_ok first hi : forall k (data : list A),
  (k <= hi)%nat -> (first + hi <= length data)%nat ->
  (forall p, heap_at data first k p) ->
  sorted_on data (first + k) (first + hi) ->
  (forall c j, (c < k)%nat -> (k <= j < hi)%nat ->
     K data (first + c) <= K data (first + j)) ->
  exists data',
    GoSort.downFrom k
      (fun i => _ ← GoSort.Swap first (first + i);
                GoSort.siftDown (lessKey key) (S hi) 0 i first) data
      = Ret (tt, data') /\
    moved first (first + hi) data data' /\
    sorted_on data' first (first + hi).
Proof.
  induction k as [|k IH]; intros data Hk Hlen Hheap Hsorted Hcross.
  - exists data. split; [reflexivity|]. split; [apply moved_refl|].
    rewrite Nat.add_0_r in Hsorted. exact Hsorted.
  - cbn [GoSort.downFrom].
    set (d1 := swap data first (first + k)).
    assert (Hlen1 : length d1 = length data) by apply swap_length.
    assert (Hm1 : moved first (first + S k) data d1) by (apply moved_swap; lia).
    assert (Hat : forall x, d1 !!! (first + x)%nat =
                   if decide (x = k) then data !!! first
                   else if decide (x = 0%nat) then data !!! (first + k)%nat
                   else data !!! (first + x)%nat).
    { intros x. unfold d1. rewrite swap_lookup by lia.
      destruct (decide (x = k)), (decide (x = 0%nat));
        repeat (destruct (decide _)); try lia; reflexivity. }
    assert (Hmax : forall c, (c < S k)%nat -> K data (first + c) <= K data first).
    { intros c Hc. pose proof (heap_max data first (S k) Hheap c Hc) as Hle.
      rewrite Nat.add_0_r in Hle. exact Hle. }
    destruct (siftDown_ok first k 0 (S hi) 0 d1)
      as (d2 & Hrun2 & Hm2 & Hheap2); [lia|lia|lia| | |].
    { intros p _ Hne c Hc Hck. rewrite !Hat.
      destruct (decide (c = k)); [lia|]. destruct (decide (c = 0%nat)); [lia|].
      destruct (decide (p = k)); [lia|]. destruct (decide (p = 0%nat)); [lia|].
      apply Hheap; [exact Hc|lia]. }
    { intros q c _ Hroot. lia. }
    assert (Hbody : (_ ← GoSort.Swap first (first + k);
                     GoSort.siftDown (lessKey key) (S hi) 0 k first) data
                    = Ret (tt, d2)).
    { step_with (Swap_ok data first (first + k) ltac:(lia) ltac:(lia)).
      exact Hrun2. }
    step_with Hbody.
    rewrite Nat.add_0_r in Hm2.
    destruct (IH d2) as (d3 & Hrun3 & Hm3 & Hsorted3).
    + lia.
    + rewrite (moved_length _ _ _ _ Hm2). lia.
    + intros p. apply Hheap2. lia.
    + intros x y Hx Hxy Hy.
      rewrite !(moved_outside _ _ _ _ Hm2) by lia.
      replace x with (first + (x - first))%nat by lia.
      replace y with (first + (y - first))%nat by lia.
      rewrite !Hat.
      destruct (decide (x - first = k)%nat) as [Hxk|Hxk];
        destruct (decide (y - first = k)%nat) as [Hyk|Hyk].
      * lia.
      * destruct (decide (y - first = 0)%nat); [lia|].
        pose proof (Hcross 0%nat (y - first)%nat ltac:(lia) ltac:(lia)) as Hle.
        rewrite Nat.add_0_r in Hle. exact Hle.
      * lia.
      * destruct (decide (x - first = 0)%nat); [lia|].
        destruct (decide (y - first = 0)%nat); [lia|].
        apply Hsorted; lia.
    + intros c j Hc Hj.
      rewrite (moved_outside _ _ _ _ Hm2 (first + j)%nat) by lia.
      assert (Hall : forall x, (first <= x < first + k)%nat ->
                 K d2 x <= K d1 (first + j)).
      { apply (moved_all first (first + k) d1 d2
                 (fun e => key e <= K d1 (first + j)) Hm2).
        intros x Hx. replace x with (first + (x - first))%nat by lia.
        rewrite !Hat.
        destruct (decide (x - first = k)%nat); [lia|].
        destruct (decide (j = k)) as [->|Hjk].
        - destruct (decide (x - first = 0)%nat) as [H0|H0].
          + pose proof (Hmax k ltac:(lia)). lia.
          + replace (data !!! first) with (data !!! (first + 0)%nat)
              by (rewrite Nat.add_0_r; reflexivity).
            rewrite Nat.add_0_r. apply Hmax. lia.
        - destruct (decide (j = 0%nat)); [lia|].
          destruct (decide (x - first = 0)%nat) as [H0|H0].
          + apply Hcross; lia.
          + apply Hcross; lia. }
      apply Hall. lia.
    + exists d3. split; [exact Hrun3|]. split; [|exact Hsorted3].
      eapply moved_trans; [eapply moved_mono; [| |exact Hm1]; lia|].
      eapply moved_trans; [eapply moved_mono; [| |exact Hm2]; lia|].
      exact Hm3.
Qed.

Lemma heapSort_ok a b (data : list A) :
  (a <= b)%nat -> (b <= length data)%nat ->
  exists data',
    GoSort.heapSort (lessKey key) a b data = Ret (tt, data') /\
    moved a b data data' /\ sorted_on data' a b.
Proof.
  intros Hab Hb. unfold GoSort.heapSort.
  set (hi := (b - a)%nat).
  assert (Hhi : (a + hi = b)%nat) by (unfold hi; lia).
  pose proof (Nat.div_mod_eq (hi - 1) 2) as Hdiv.
  pose proof (Nat.mod_upper_bound (hi - 1) 2 ltac:(lia)) as Hmod.
  set (i0 := ((hi - 1) / 2)%nat) in *.
  clearbody i0. clearbody hi.
  destruct (heapBuild_ok a hi (S i0) data) as (d1 & Hrun1 & Hm1 & Hheap1); [lia| |].
  { intros p Hp c Hc Hchi. lia. }
  step_with Hrun1.
  destruct (heapPop_ok a hi hi d1) as (d2 & Hrun2 & Hm2 & Hsorted2).
  - lia.
  - rewrite (moved_length _ _ _ _ Hm1). lia.
  - exact Hheap1.
  - intros x y Hx Hxy Hy. lia.
  - intros c j Hc Hj. lia.
  - rewrite Hhi in *. exists d2. split; [exact Hrun2|]. split; [|exact Hsorted2].
    eapply moved_trans; eassumption.
Qed.

Lemma sorted_on_join (data : list A) a mid b :
  sorted_on data a mid -> sorted_on data mid b ->
  (forall i j, (a <= i < mid)%nat -> (mid <= j < b)%nat -> K data i <= K data j) ->
  sorted_on data a b.
Proof.
  intros Hl Hr Hcross i j Hi Hij Hj.
  destruct (decide (j < mid)%nat); [apply Hl; lia|].
  destruct (decide (mid <= i)%nat); [apply Hr; lia|].
  apply Hcross; lia.
Qed.

(** The two sides of a partition, sorted one after the other. *)
Definition sides_kept (a mid b : nat) (data data' : list A) : Prop :=
  moved a b data data' /\
  data' !!! mid = data !!! mid /\
  (forall k, (a <= k < mid)%nat ->
     exists k', (a <= k' < mid)%nat /\ data' !!! k = data !!! k') /\
  (forall k, (mid < k < b)%nat ->
     exists k', (mid < k' < b)%nat /\ data' !!! k = data !!! k').

Lemma sides_left_right a mid b (d4 d5 d6 : list A) :
  (a <= mid < b)%nat ->
  moved a mid d4 d5 -> moved (mid + 1) b d5 d6 -> sides_kept a mid b d4 d6.
Proof.
  intros Hmid Hl Hr. split; [|split; [|split]].
  - eapply moved_trans; eapply moved_mono; try eassumption; lia.
  - rewrite (moved_outside _ _ _ _ Hr) by lia. apply (moved_outside _ _ _ _ Hl). lia.
  - intros k Hk. rewrite (moved_outside _ _ _ _ Hr) by lia.
    apply (moved_inside _ _ _ _ Hl). exact Hk.
  - intros k Hk. destruct (moved_inside _ _ _ _ Hr k ltac:(lia)) as (k' & Hk' & ->).
    exists k'. split; [lia|]. apply (moved_outside _ _ _ _ Hl). lia.
Qed.

Lemma sides_right_left a mid b (d4 d5 d6 : list A) :
  (a <= mid < b)%nat ->
  moved (mid + 1) b d4 d5 -> moved a mid d5 d6 -> sides_kept a mid b d4 d6.
Proof.
  intros Hmid Hr Hl. split; [|split; [|split]].
  - eapply moved_trans; eapply moved_mono; try eassumption; lia.
  - rewrite (moved_outside _ _ _ _ Hl) by lia. apply (moved_outside _ _ _ _ Hr). lia.
  - intros k Hk. destruct (moved_inside _ _ _ _ Hl k Hk) as (k' & Hk' & ->).
    exists k'. split; [lia|]. apply (moved_outside _ _ _ _ Hr). lia.
  - intros k Hk. rewrite (moved_outside _ _ _ _ Hl) by lia.
    destruct (moved_inside _ _ _ _ Hr k ltac:(lia)) as (k' & Hk' & ->).
    exists k'. split; [lia|reflexivity].
Qed.

Lemma sorted_partitioned a mid b (d4 d6 : list A) :
  (a <= mid < b)%nat ->
  (forall k, (a <= k < mid)%nat -> K d4 k < K d4 mid) ->
  (forall k, (mid < k < b)%nat -> K d4 mid <= K d4 k) ->
  sides_kept a mid b d4 d6 ->
  sorted_on d6 a mid -> sorted_on d6 (mid + 1) b ->
  sorted_on d6 a b.
Proof.
  intros Hmid Hlow Hhigh (_ & Hpiv & Hleft & Hright) Hsl Hsr i j Hi Hij Hj.
  assert (Hle : forall k, (a <= k < mid)%nat -> K d6 k < K d6 mid).
  { intros k Hk. destruct (Hleft k Hk) as (k' & Hk' & ->). rewrite Hpiv.
    apply Hlow, Hk'. }
  assert (Hge : forall k, (mid < k < b)%nat -> K d6 mid <= K d6 k).
  { intros k Hk. destruct (Hright k Hk) as (k' & Hk' & ->). rewrite Hpiv.
    apply Hhigh, Hk'. }
  destruct (decide (j < mid)%nat); [apply Hsl; lia|].
  destruct (decide (mid < i)%nat); [apply Hsr; lia|].
  destruct (decide (i = mid)) as [->|].
  - destruct (decide (j = mid)) as [->|]; [lia|apply Hge; lia].
  - pose proof (Hle i ltac:(lia)).
    destruct (decide (j = mid)) as [->|]; [lia|].
    pose proof (Hge j ltac:(lia)). lia.
Qed.

Lemma pdqsort_ok : forall fuel a b limit wasBalanced wasPartitioned (data : list A),
  (a <= b)%nat -> (b <= length data)%nat -> (b - a <= fuel + 12)%nat ->
  low_ok data a b ->
  exists data',
    GoSort.pdqsort (lessKey key) next fuel a b limit wasBalanced wasPartitioned data
      = Ret (tt, data') /\
    moved a b data data' /\ sorted_on data' a b.
Proof.
  induction fuel as [|fuel IH]; intros a b limit wb wp data Hab Hb Hfuel Hlow.
  - cbn [GoSort.pdqsort]. destruct (Nat.leb_spec (b - a) 12) as [_|]; [|lia].
    apply insertionSort_ok; assumption.
  - cbn [GoSort.pdqsort]. destruct (Nat.leb_spec (b - a) 12) as [_|Hlong].
    { apply insertionSort_ok; assumption. }
    destruct (Nat.eqb_spec limit 0) as [_|_].
    { apply heapSort_ok; assumption. }
    (* breakPatterns *)
    assert (H1 : exists lim d1,
               (if negb wb
                then _ ← GoSort.breakPatterns next a b; mret (limit - 1)%nat
                else mret limit) data = Ret (lim, d1) /\
               moved a b data d1).
    { destruct wb; cbv beta iota delta [negb].
      - exists limit, data. split; [reflexivity|apply moved_refl].
      - destruct (breakPatterns_ok a b data Hab Hb) as (d1 & Hrun & Hm).
        exists (limit - 1)%nat, d1. split; [|exact Hm].
        step_with Hrun. reflexivity. }
    destruct H1 as (lim & d1 & Hrun1 & Hm1).
    step_with Hrun1.
    assert (Hlen1 : length d1 = length data) by apply (moved_length _ _ _ _ Hm1).
    (* choosePivot *)
    destruct (choosePivot_ok a b d1 ltac:(lia) ltac:(lia))
      as (pivot & hint & Hrun2 & Hpivot).
    step_with Hrun2.
    (* reverseRange *)
    assert (H3 : exists pivot2 hint2 d2,
               (if GoSort.is_decreasing hint
                then _ ← GoSort.reverseRange a b;
                     mret ((b - 1 - (pivot - a))%nat, GoSort.increasingHint)
                else mret (pivot, hint)) d1 = Ret ((pivot2, hint2), d2) /\
               moved a b d1 d2 /\ (a <= pivot2 < b)%nat).
    { destruct (GoSort.is_decreasing hint); cbv iota.
      - destruct (reverseRange_ok a b d1 ltac:(lia) ltac:(lia)) as (d2 & Hrun & Hm).
        exists (b - 1 - (pivot - a))%nat, GoSort.increasingHint, d2.
        split; [step_with Hrun; reflexivity|]. split; [exact Hm|lia].
      - exists pivot, hint, d1. split; [reflexivity|]. split; [apply moved_refl|lia]. }
    destruct H3 as (pivot2 & hint2 & d2 & Hrun3 & Hm2 & Hpivot2).
    step_with Hrun3.
    assert (Hlen2 : length d2 = length data).
    { rewrite (moved_length _ _ _ _ Hm2). exact Hlen1. }
    assert (Hm02 : moved a b data d2) by (eapply moved_trans; eassumption).
    (* partialInsertionSort *)
    assert (H4 : exists done d3,
               (if wb && wp && GoSort.is_increasing hint2
                then GoSort.partialInsertionSort (lessKey key) a b
                else mret false) d2 = Ret (done, d3) /\
               moved a b d2 d3 /\ (done = true -> sorted_on d3 a b)).
    { destruct (wb && wp && GoSort.is_increasing hint2); cbv iota.
      - apply partialInsertionSort_ok; [lia|lia|].
        apply (low_ok_moved a b data); assumption.
      - exists false, d2. split; [reflexivity|]. split; [apply moved_refl|discriminate]. }
    destruct H4 as (done & d3 & Hrun4 & Hm3 & Hdone).
    step_with Hrun4.
    assert (Hlen3 : length d3 = length data).
    { rewrite (moved_length _ _ _ _ Hm3). exact Hlen2. }
    assert (Hm03 : moved a b data d3) by (eapply moved_trans; eassumption).
    assert (Hlow3 : low_ok d3 a b) by (apply (low_ok_moved a b data); assumption).
    destruct done; cbv iota.
    { exists d3. split; [reflexivity|]. split; [exact Hm03|]. apply Hdone. reflexivity. }
    (* the test against the element before the range *)
    assert (H5 : exists equal,
               (if (0 <? a)%nat
                then lt ← GoSort.Less (lessKey key) (a - 1) pivot2; mret (negb lt)
                else mret false) d3 = Ret (equal, d3) /\
               (equal = true ->
                (0 < a)%nat /\ K d3 pivot2 <= K d3 (a - 1))).
    { destruct (Nat.ltb_spec 0 a) as [Hpos|Hzero].
      - exists (negb (K d3 (a - 1) <? K d3 pivot2)). split.
        + step_with (Less_ok d3 (a - 1)%nat pivot2 ltac:(lia) ltac:(lia)). reflexivity.
        + intros Heq. split; [exact Hpos|].
          destruct (Z.ltb_spec (K d3 (a - 1)) (K d3 pivot2)); [discriminate|lia].
      - exists false. split; [reflexivity|discriminate]. }
    destruct H5 as (equal & Hrun5 & Hequal).
    step_with Hrun5.
    destruct equal; cbv iota.
    + destruct (Hequal eq_refl) as [Hpos Hmin].
      destruct Hlow3 as [->|[_ Hlow3]]; [lia|].
      destruct (partitionEqual_ok a b pivot2 d3 Hpivot2 ltac:(lia))
        as (mid & d4 & Hrun6 & Hm4 & Hmid & Hle & Hgt).
      step_with Hrun6.
      assert (Hlen4 : length d4 = length data).
      { rewrite (moved_length _ _ _ _ Hm4). exact Hlen3. }
      assert (Hbase : forall k, (a <= k < b)%nat -> K d3 (a - 1) <= K d4 k).
      { apply (moved_all a b d3 d4 (fun e => K d3 (a - 1) <= key e) Hm4). exact Hlow3. }
      destruct (IH mid b lim wb wp d4) as (d5 & Hrun7 & Hm5 & Hsorted5).
      * lia.
      * lia.
      * lia.
      * right. split; [lia|]. intros k Hk.
        pose proof (Hle (mid - 1)%nat ltac:(lia)). pose proof (Hgt k Hk). lia.
      * exists d5. split; [exact Hrun7|]. split.
        -- eapply moved_trans; [exact Hm03|]. eapply moved_trans; [exact Hm4|].
           eapply moved_mono; [| |exact Hm5]; lia.
        -- apply (sorted_on_join d5 a mid b).
           ++ intros i j Hi Hij Hj.
              rewrite !(moved_outside _ _ _ _ Hm5) by lia.
              pose proof (Hle i ltac:(lia)). pose proof (Hle j ltac:(lia)).
              pose proof (Hbase i ltac:(lia)). pose proof (Hbase j ltac:(lia)). lia.
           ++ exact Hsorted5.
           ++ intros i j Hi Hj.
              rewrite (moved_outside _ _ _ _ Hm5 i) by lia.
              pose proof (Hle i ltac:(lia)).
              pose proof (moved_all mid b d4 d5 (fun e => K d3 pivot2 < key e) Hm5 Hgt
                            j Hj). simpl in *. lia.
    + destruct (partition_ok a b pivot2 d3 Hpivot2 ltac:(lia))
        as (mid & already & d4 & Hrun6 & Hm4 & Hmid & _ & Hless & Hge).
      step_with Hrun6.
      assert (Hlen4 : length d4 = length data).
      { rewrite (moved_length _ _ _ _ Hm4). exact Hlen3. }
      assert (Hlow4 : low_ok d4 a b) by (apply (low_ok_moved a b d3); assumption).
      assert (Hm04 : moved a b data d4) by (eapply moved_trans; eassumption).
      destruct (Nat.ltb_spec (mid - a) (b - mid)) as [Hleft|Hright].
      * destruct (IH a mid lim true true d4) as (d5 & Hrun7 & Hm5 & Hsorted5);
          [lia|lia|lia|apply (low_ok_mono a b); [lia|exact Hlow4]|].
        step_with Hrun7.
        destruct (IH (mid + 1)%nat b lim ((b - a) / 8 <=? mid - a)%nat already d5)
          as (d6 & Hrun8 & Hm6 & Hsorted6).
        -- lia.
        -- rewrite (moved_length _ _ _ _ Hm5). lia.
        -- lia.
        -- right. split; [lia|]. intros k Hk.
           replace (mid + 1 - 1)%nat with mid by lia.
           rewrite !(moved_outside _ _ _ _ Hm5) by lia. apply Hge. lia.
        -- pose proof (sides_left_right a mid b d4 d5 d6 Hmid Hm5 Hm6) as Hsides.
           exists d6. split; [exact Hrun8|]. split.
           ++ eapply moved_trans; [exact Hm04|]. apply Hsides.
           ++ apply (sorted_partitioned a mid b d4 d6 Hmid Hless Hge Hsides);
                [|exact Hsorted6].
              intros i j Hi Hij Hj.
              rewrite !(moved_outside _ _ _ _ Hm6) by lia. apply Hsorted5; lia.
      * destruct (IH (mid + 1)%nat b lim true true d4)
          as (d5 & Hrun7 & Hm5 & Hsorted5).
        -- lia.
        -- lia.
        -- lia.
        -- right. split; [lia|]. intros k Hk.
           replace (mid + 1 - 1)%nat with mid by lia. apply Hge. lia.
        -- step_with Hrun7.
           destruct (IH a mid lim ((b - a) / 8 <=? b - mid)%nat already d5)
             as (d6 & Hrun8 & Hm6 & Hsorted6).
           ++ lia.
           ++ rewrite (moved_length _ _ _ _ Hm5). lia.
           ++ lia.
           ++ apply (low_ok_mono a b); [lia|].
              apply (low_ok_moved a b d4); [|exact Hlow4].
              eapply moved_mono; [| |exact Hm5]; lia.
           ++ pose proof (sides_right_left a mid b d4 d5 d6 Hmid Hm5 Hm6) as Hsides.
              exists d6. split; [exact Hrun8|]. split.
              ** eapply moved_trans; [exact Hm04|]. apply Hsides.
              ** apply (sorted_partitioned a mid b d4 d6 Hmid Hless Hge Hsides);
                   [exact Hsorted6|].
                 intros i j Hi Hij Hj.
                 rewrite !(moved_outside _ _ _ _ Hm6) by lia. apply Hsorted5; lia.
Qed.

Lemma sorted_on_all (data : list A) :
  sorted_on data 0 (length data) ->
  StronglySorted (fun x y => key x <= key y) data.
Proof.
  induction data as [|x data IH]; intros Hsorted; [constructor|].
  constructor.
  - apply IH. intros i j Hi Hij Hj.
    apply (Hsorted (S i) (S j)); simpl; lia.
  - apply Forall_forall. intros y Hy.
    apply list_elem_of_lookup in Hy as [k Hk].
    pose proof (lookup_lt_Some _ _ _ Hk) as Hlt.
    pose proof (Hsorted 0%nat (S k) ltac:(lia) ltac:(lia) ltac:(simpl; lia)) as Hle.
    simpl in Hle. rewrite (list_lookup_total_correct _ _ _ Hk) in Hle. exact Hle.
Qed.

(** With fuel enough for its length, [sort.Slice] returns the slice in
    ascending order of the keys. *)
Lemma Slice_sorted fuel (data : list A) :
  (length data <= fuel + 12)%nat ->
  exists out,
    GoSort.Slice (lessKey key) next fuel data = Ret out /\
    Permutation data out /\
    StronglySorted (fun x y => key x <= key y) out.
Proof.
  intros Hfuel. unfold GoSort.Slice.
  destruct (pdqsort_ok fuel 0 (length data) (GoSort.bitsLen (length data))
              true true data)
    as (out & Hrun & Hmoved & Hsorted); [lia|lia|lia|left; reflexivity|].
  exists out. rewrite Hrun. split; [reflexivity|].
  split; [apply (moved_perm _ _ _ _ Hmoved)|].
  apply sorted_on_all. rewrite (moved_length _ _ _ _ Hmoved). exact Hsorted.
Qed.

End PdqFacts.

#[global] Instance hit_inhabited : Inhabited Hit :=
  populate (candidate EmptyString EmptyString 0).

(** C8, as amended. With fuel enough for the length of the list, and
    whatever the generator, the ranker's sort returns; what it returns is
    the same candidates in ascending order of update time; and when there
    are at most 12 of them, which [sort.Slice] sorts by insertion,
    candidates with equal update times are in it in the order in which
    the ranker found them. *)
Theorem sort_ascending_and_stable_to_twelve (next : Z -> Z) (fuel : nat)
    (hs : list Hit) :
  (length hs <= fuel + 12)%nat ->
  exists out,
    sortHittable next fuel hs = Ret out /\
    Permutation hs out /\
    StronglySorted (fun a b => UpdateTime a <= UpdateTime b) out /\
    ((length hs <= 12)%nat -> keeps_tie_order UpdateTime hs out).
Proof.
  intros Hfuel.
  destruct (Slice_sorted UpdateTime next fuel hs Hfuel)
    as (out & Hrun & Hperm & Hasc).
  exists out. split; [exact Hrun|]. split; [exact Hperm|]. split; [exact Hasc|].
  intros Hshort.
  pose proof (Slice_short lessUpdateTime next fuel hs Hshort) as Hins.
  unfold sortHittable in Hrun.
  change (lessKey UpdateTime) with lessUpdateTime in Hrun.
  rewrite Hins in Hrun. injection Hrun as <-.
  apply tied_keeps_order.
  apply (sorted_by_insertion_sorted UpdateTime hs).
Qed.

Lemma sort_ascending_and_stable_to_twelve_witness :
  exists out,
    sortHittable (fun random => random) 0
      [candidate "x" "n1" 5; candidate "y" "n2" 5; candidate "w" "n3" 4]
    = Ret out /\
    Permutation
      [candidate "x" "n1" 5; candidate "y" "n2" 5; candidate "w" "n3" 4] out /\
    StronglySorted (fun a b => UpdateTime a <= UpdateTime b) out /\
    ((length [candidate "x" "n1" 5; candidate "y" "n2" 5; candidate "w" "n3" 4]
      <= 12)%nat ->
     keeps_tie_order UpdateTime
       [candidate "x" "n1" 5; candidate "y" "n2" 5; candidate "w" "n3" 4] out).
Proof.
  apply (sort_ascending_and_stable_to_twelve (fun random => random) 0
           [candidate "x" "n1" 5; candidate "y" "n2" 5; candidate "w" "n3" 4]).
  simpl. lia.
Defined.

(** The indices at which a list given in full holds a given element. *)
Ltac pin_index H i :=
  simpl in H;
  first [ discriminate H
        | destruct i as [|i]; [try discriminate H|pin_index H i] ].

(** Thirteen candidates, the first twelve updated at 5 and the last
    at 4. *)
Definition thirteen : list Hit :=
  [candidate "a" "n" 5; candidate "b" "n" 5; candidate "c" "n" 5;
   candidate "d" "n" 5; candidate "e" "n" 5; candidate "f" "n" 5;
   candidate "g" "n" 5; candidate "h" "n" 5; candidate "i" "n" 5;
   candidate "j" "n" 5; candidate "k" "n" 5; candidate "l" "n" 5;
   candidate "m" "n" 4].

(** What [sort.Slice] makes of them: [g] is the pivot, it is exchanged
    with [a] before the partition and with [m] after it, and [b] is
    exchanged with [m] in between. *)
Definition thirteenSorted : list Hit :=
  [candidate "m" "n" 4; candidate "g" "n" 5; candidate "c" "n" 5;
   candidate "d" "n" 5; candidate "e" "n" 5; candidate "f" "n" 5;
   candidate "a" "n" 5; candidate "h" "n" 5; candidate "i" "n" 5;
   candidate "j" "n" 5; candidate "k" "n" 5; candidate "l" "n" 5;
   candidate "b" "n" 5].

(** C8, as stated, fails on the code: with thirteen candidates
    [sort.Slice] no longer sorts by insertion, and [a] and [g], found in
    this order and updated at the same time, come out as [g] before
    [a]. *)
Lemma sort_of_thirteen_reorders_ties :
  (forall (next : Z -> Z) (fuel : nat),
      sortHittable next (S fuel) thirteen = Ret thirteenSorted) /\
  ~ keeps_tie_order UpdateTime thirteen thirteenSorted.
Proof.
  split; [intros next [|fuel]; vm_compute; reflexivity|].
  intros Hkeeps.
  destruct (Hkeeps (candidate "a" "n" 5) (candidate "g" "n" 5) eq_refl)
    as (i & j & Hlt & Hi & Hj).
  { exists 0%nat, 6%nat. split; [lia|]. split; reflexivity. }
  unfold thirteenSorted, candidate in Hi, Hj.
  pin_index Hi i. pin_index Hj j. lia.
Qed.

(** ** The request executor *)

(** Decoders for the examples below: each knows a few bodies by name. *)
Definition nameDecoder : ApiRootNode NationRegion :=
  {| zero := mkNationRegion EmptyString;
     xmlUnmarshal := fun body => (mkNationRegion body, None) |}.

Definition proposalDecoder : ApiRootNode WaProposalsOuter :=
  {| zero := mkWaProposalsOuter (mkWaProposalList []);
     xmlUnmarshal := fun body =>
       if String.eqb body "council" then
         (mkWaProposalsOuter (mkWaProposalList
            [mkProposal "p_1" "anna:bert"; mkProposal "p_2" "carl"]), None)
       else if String.eqb body "assembly" then
         (mkWaProposalsOuter (mkWaProposalList
            [mkProposal "p_3" "dora:emil:fred"]), None)
       else (mkWaProposalsOuter (mkWaProposalList []), Some "EOF") |}.

Definition regionDecoder : ApiRootNode RegionOuter :=
  {| zero := mkRegionOuter (mkEndoCensusRanks (mkNationList [])) (mkRegionTags []) 0 0;
     xmlUnmarshal := fun body =>
       if String.eqb body "lonely" then
         (mkRegionOuter (mkEndoCensusRanks (mkNationList [mkNationEndos "anna" 3]))
            (mkRegionTags ["Password"]) 2000 1000, None)
       else
         (mkRegionOuter
            (mkEndoCensusRanks (mkNationList
               [mkNationEndos "anna" 9; mkNationEndos "bert" 4;
                mkNationEndos "carl" 1]))
            (mkRegionTags ["Large"; "Password"]) 2000 1000, None) |}.

Definition reply (code : Z) (headers : list (string * string)) (body : string)
  : DoResult :=
  DoOk (mkResponse code EmptyString (foldr (fun kv m => Add m (fst kv) (snd kv)) ∅ headers)
          body None).

Definition calm : list (string * string) :=
  [("RateLimit-Remaining", "40"); ("RateLimit-Reset", "25")].

Definition world (replies : list DoResult) : World :=
  mkWorld "quorate" replies [].

(** A reply with status 429. *)
Definition is429 (r : DoResult) : Prop :=
  match r with
  | DoOk result => StatusCode result = StatusTooManyRequests
  | DoErr _ => False
  end.

(** The sleep taken on a 429 reply: [time.Duration(intRetry) * time.Second]
    for the [Retry-After] header as [strconv.Atoi] reads it. *)
Definition retryWait (result : Response) : Z :=
  mul (fst (Atoi (Get (Header result) "Retry-After"))) Second.

(** What is observed of the request [req] while the replies [results] come
    in: the request, then the sleep, once per reply. *)
Definition retryEvents (req : Request) (results : list Response)
  : list Event :=
  flat_map (fun result => [EvDo req; EvSleep (retryWait result)]) results.

Lemma drain_drain req : drain (drain req) = drain req.
Proof. reflexivity. Qed.

Lemma drain_newRequest ua data : drain (newRequest ua data) <> newRequest ua data.
Proof. intros Heq. apply (f_equal bodyRead) in Heq. discriminate Heq. Qed.

Section ExecutorFacts.
Context {T : Type} `{!ApiRootNode T}.

(** What the loop does with the reply that ends it, in the world in which
    that reply has been taken. *)
Definition conclude (last : DoResult) : Client (T * option string) :=
  match last with
  | DoErr err => mret (zero, Some err)
  | DoOk result => finish result
  end.

Lemma makeAPIRequest_loop data w :
  userAgent w <> EmptyString ->
  makeAPIRequest data w =
    requestLoop (newRequest (userAgent w) data) (userAgent w)
      (network w) (trace w).
Proof.
  intros Hua. unfold makeAPIRequest.
  destruct (String.eqb_spec (userAgent w) EmptyString); [contradiction|reflexivity].
Qed.

Lemma requestLoop_last req ua last rest tr :
  ~ is429 last ->
  requestLoop req ua (last :: rest) tr =
    conclude last (mkWorld ua rest (tr ++ [EvDo req])).
Proof.
  intros Hlast. destruct last as [result|err]; simpl; [|reflexivity].
  destruct (Z.eqb_spec (StatusCode result) StatusTooManyRequests) as [H429|_];
    [|reflexivity].
  contradiction.
Qed.

Lemma requestLoop_retried req ua results :
  Forall (fun result => is429 (DoOk result)) results ->
  forall rest tr,
    requestLoop (drain req) ua (map DoOk results ++ rest) tr =
    requestLoop (drain req) ua rest (tr ++ retryEvents (drain req) results).
Proof.
  induction 1 as [|result results Hcode _ IH]; intros rest tr.
  - simpl. rewrite app_nil_r. reflexivity.
  - simpl in Hcode |- *. rewrite Hcode. simpl.
    rewrite drain_drain, IH. unfold retryWait. rewrite <- !app_assoc.
    reflexivity.
Qed.

Lemma requestLoop_retries req ua result results rest tr :
  Forall (fun result => is429 (DoOk result)) (result :: results) ->
  requestLoop req ua (DoOk result :: map DoOk results ++ rest) tr =
  requestLoop (drain req) ua rest
    (tr ++ EvDo req :: EvSleep (retryWait result)
        :: retryEvents (drain req) results).
Proof.
  intros H429. apply Forall_cons in H429 as [Hcode H429].
  simpl in Hcode |- *. rewrite Hcode. simpl.
  rewrite (requestLoop_retried req ua results H429).
  unfold retryWait. rewrite <- !app_assoc. reflexivity.
Qed.

Lemma slowdown_zero result w :
  fst (Atoi (Get (Header result) "RateLimit-Remaining")) = 0 ->
  slowdown result w = Panic divide_by_zero.
Proof. intros Hzero. unfold slowdown. rewrite Hzero. reflexivity. Qed.

Lemma finish_zero result w :
  fst (Atoi (Get (Header result) "RateLimit-Remaining")) = 0 ->
  finish result w = Panic divide_by_zero.
Proof.
  intros Hzero. unfold finish, mbind, client_bind.
  rewrite (slowdown_zero result w Hzero). reflexivity.
Qed.

(** With 1 to 7 requests left the executor sleeps [reset / remaining + 1]
    seconds, with more than 7 it does not sleep. *)
Lemma slowdown_low result w remaining reset :
  fst (Atoi (Get (Header result) "RateLimit-Remaining")) = remaining ->
  fst (Atoi (Get (Header result) "RateLimit-Reset")) = reset ->
  1 <= remaining <= 7 -> 0 <= reset <= 9223372035 ->
  slowdown result w =
    Ret (tt, mkWorld (userAgent w) (network w)
               (trace w ++ [EvSleep ((reset / remaining + 1) * Second)])).
Proof.
  intros Hrem Hreset Hlow Hres. unfold slowdown. rewrite Hrem, Hreset.
  destruct (Z.leb_spec remaining 7) as [_|]; [|lia].
  destruct (Z.eqb_spec remaining 0) as [|_]; [lia|].
  assert (Hq : 0 <= reset / remaining <= reset).
  { split; [apply Z.div_pos; lia|].
    apply Z.div_le_upper_bound; nia. }
  unfold quo. rewrite Z.quot_div_nonneg by lia.
  rewrite wrap64_id by range_solve.
  rewrite add_exact by range_solve.
  rewrite mul_exact by (unfold Second; range_solve).
  reflexivity.
Qed.

Lemma slowdown_high result w :
  7 < fst (Atoi (Get (Header result) "RateLimit-Remaining")) ->
  slowdown result w = Ret (tt, w).
Proof.
  intros Hhigh. unfold slowdown.
  destruct (Z.leb_spec (fst (Atoi (Get (Header result) "RateLimit-Remaining"))) 7);
    [lia|reflexivity].
Qed.

End ExecutorFacts.

Lemma parseDigits_syntax_zero s : forall n,
  snd (parseDigits n s) = Some ErrSyntax -> fst (parseDigits n s) = 0.
Proof.
  induction s as [|c s IH]; intros n; simpl; [discriminate|].
  destruct (digit_of c) as [d|]; [|reflexivity].
  destruct (cutoff10 <=? n); [discriminate|].
  destruct (maxUint64 <? n * 10 + d); [discriminate|].
  apply IH.
Qed.

Lemma ParseInt_syntax_zero s :
  snd (ParseInt s) = Some ErrSyntax -> fst (ParseInt s) = 0.
Proof.
  unfold ParseInt. destruct s as [|c s']; [reflexivity|].
  destruct (if Ascii.eqb c "+" then (false, s')
            else if Ascii.eqb c "-" then (true, s') else (false, String c s'))
    as [neg body].
  destruct (ParseUint body) as [un [e|]].
  - destruct (negb (String.eqb e ErrRange)); [reflexivity|].
    destruct (negb neg && (2 ^ 63 <=? un)); [discriminate|].
    destruct (neg && (2 ^ 63 <? un)); discriminate.
  - destruct (negb neg && (2 ^ 63 <=? un)); [discriminate|].
    destruct (neg && (2 ^ 63 <? un)); discriminate.
Qed.

Lemma Atoi_syntax_zero s : snd (Atoi s) = Some ErrSyntax -> fst (Atoi s) = 0.
Proof.
  unfold Atoi.
  destruct ((0 <? Z.of_nat (String.length s)) && (Z.of_nat (String.length s) <? 19));
    [|apply ParseInt_syntax_zero].
  destruct s as [|c s']; [reflexivity|].
  destruct (_ && _); [reflexivity|].
  destruct (digits 0 _); [discriminate|reflexivity].
Qed.

Lemma Get_absent (m : gmap string (list string)) key :
  m !! key = None -> Get m key = EmptyString.
Proof. intros Hnone. unfold Get. rewrite Hnone. reflexivity. Qed.

Lemma requestLoop_starved {T : Type} `{!ApiRootNode T} ua results :
  Forall (fun result => is429 (DoOk result)) results ->
  forall req tr, requestLoop req ua (map DoOk results) tr = OutOfFuel.
Proof.
  induction 1 as [|result results Hcode _ IH]; intros req tr; [reflexivity|].
  simpl in Hcode |- *. rewrite Hcode. simpl. apply IH.
Qed.

(** C5 fails on the code. On a 429 the executor does sleep the seconds
    that [Retry-After] reads and does call [Do] again, however many 429
    replies come, and no 429 becomes the result of the call. But the
    request it hands to [Do] again is the one object built before the
    loop, whose body the first [Do] has read: every retry goes out with
    the body reader at its end, not as the request of the first attempt.
    The first part gives the whole run on a script of one or more 429
    replies and the reply that ends them; the second that the request of
    the retries differs from the first; the third that the call has not
    returned while only 429 replies have come; the fourth the length of
    the sleep for a header that reads a number of seconds. *)
Theorem retry_resends_drained_request :
  (forall (T : Type) (inst : ApiRootNode T)
          (data : gmap string (list string)) (w : World)
          (result : Response) (retries : list Response)
          (last : DoResult) (rest : list DoResult),
      userAgent w <> EmptyString ->
      network w = (DoOk result :: map DoOk retries ++ last :: rest)%list ->
      Forall (fun r => is429 (DoOk r)) (result :: retries) ->
      ~ is429 last ->
      let req := newRequest (userAgent w) data in
      @makeAPIRequest T inst data w =
        @conclude T inst last
          (mkWorld (userAgent w) rest
             (trace w ++ EvDo req :: EvSleep (retryWait result)
                :: retryEvents (drain req) retries ++ [EvDo (drain req)])%list))
  /\ (forall (ua : string) (data : gmap string (list string)),
        bodyRead (newRequest ua data) = false /\
        bodyRead (drain (newRequest ua data)) = true /\
        drain (newRequest ua data) <> newRequest ua data)
  /\ (forall (T : Type) (inst : ApiRootNode T)
             (data : gmap string (list string)) (w : World)
             (results : list Response),
        userAgent w <> EmptyString ->
        network w = map DoOk results ->
        Forall (fun r => is429 (DoOk r)) results ->
        @makeAPIRequest T inst data w = OutOfFuel)
  /\ (forall (result : Response) (n : Z),
        Atoi (Get (Header result) "Retry-After") = (n, None) ->
        0 <= n <= 9223372036 ->
        retryWait result = n * Second).
Proof.
  split; [|split; [|split]].
  - intros T inst data w result retries last rest Hua Hnet H429 Hlast req.
    rewrite (makeAPIRequest_loop data w Hua), Hnet.
    fold req. rewrite (requestLoop_retries req _ result retries _ _ H429).
    rewrite (requestLoop_last _ _ last rest _ Hlast).
    rewrite <- !app_assoc. reflexivity.
  - intros ua data. split; [reflexivity|]. split; [reflexivity|].
    apply drain_newRequest.
  - intros T inst data w results Hua Hnet H429.
    rewrite (makeAPIRequest_loop data w Hua), Hnet.
    apply requestLoop_starved. exact H429.
  - intros result n Hparse Hn. unfold retryWait. rewrite Hparse. simpl.
    apply mul_exact. unfold Second. range_solve.
Qed.

Lemma retry_resends_drained_request_witness :
  let w := world [reply 429 [("Retry-After", "2")] EmptyString;
                  reply 429 [("Retry-After", "30")] EmptyString;
                  reply 200 calm "the_north"] in
  let req := newRequest "quorate" (Add ∅ "q" "region") in
  @makeAPIRequest NationRegion nameDecoder (Add ∅ "q" "region") w =
    @conclude NationRegion nameDecoder (reply 200 calm "the_north")
      (mkWorld "quorate" []
         ([] ++ EvDo req
             :: EvSleep (retryWait (mkResponse 429 EmptyString
                           (Add ∅ "Retry-After" "2") EmptyString None))
             :: retryEvents (drain req)
                  [mkResponse 429 EmptyString
                     (Add ∅ "Retry-After" "30") EmptyString None]
             ++ [EvDo (drain req)])%list).
Proof.
  intros w req.
  apply (proj1 retry_resends_drained_request NationRegion nameDecoder
           (Add ∅ "q" "region") w
           (mkResponse 429 EmptyString (Add ∅ "Retry-After" "2") EmptyString None)
           [mkResponse 429 EmptyString (Add ∅ "Retry-After" "30") EmptyString None]
           (reply 200 calm "the_north") []).
  - discriminate.
  - reflexivity.
  - repeat constructor.
  - unfold is429. simpl. discriminate.
Defined.

(** The outcome of the call in the example above: the second and the
    third request are sent with the body read. *)
Lemma retry_example :
  @makeAPIRequest NationRegion nameDecoder (Add ∅ "q" "region")
    (world [reply 429 [("Retry-After", "2")] EmptyString;
            reply 429 [("Retry-After", "30")] EmptyString;
            reply 200 calm "the_north"])
  = Ret ((mkNationRegion "the_north", None),
         mkWorld "quorate" []
           (let req := newRequest "quorate" (Add ∅ "q" "region") in
            [EvDo req; EvSleep 2000000000;
             EvDo (drain req); EvSleep 30000000000;
             EvDo (drain req)])).
Proof. vm_compute. reflexivity. Qed.

(** C9 fails on the code. A reply with status 200 and no request left in
    the budget is within "at most 7": the executor does not sleep and
    return, it panics on the division [reset / remaining]. *)
Theorem slowdown_panics_at_zero :
  @makeAPIRequest NationRegion nameDecoder (Add ∅ "q" "region")
    (world [reply 200 [("RateLimit-Remaining", "0"); ("RateLimit-Reset", "30")]
              "the_north"])
  = Panic divide_by_zero.
Proof. vm_compute. reflexivity. Qed.

(** C10. A reply that is not a 429 and whose [RateLimit-Remaining] header
    parses to 0 makes the executor panic with a division by zero; the
    header parses to 0 when it is absent, when it is not a number, and
    when it reads [0]. *)
Theorem slowdown_divides_by_zero :
  (forall (T : Type) (inst : ApiRootNode T)
          (data : gmap string (list string)) (w : World)
          (result : Response) (rest : list DoResult),
      userAgent w <> EmptyString ->
      network w = DoOk result :: rest ->
      StatusCode result <> StatusTooManyRequests ->
      fst (Atoi (Get (Header result) "RateLimit-Remaining")) = 0 ->
      @makeAPIRequest T inst data w = Panic divide_by_zero)
  /\ (forall result : Response,
        Header result !! "RateLimit-Remaining" = None ->
        fst (Atoi (Get (Header result) "RateLimit-Remaining")) = 0)
  /\ (forall s, snd (Atoi s) = Some ErrSyntax -> fst (Atoi s) = 0)
  /\ Atoi "0" = (0, None).
Proof.
  split; [|split; [|split]].
  - intros T inst data w result rest Hua Hnet Hcode Hzero.
    rewrite (makeAPIRequest_loop data w Hua), Hnet. simpl.
    destruct (Z.eqb_spec (StatusCode result) StatusTooManyRequests);
      [contradiction|].
    apply finish_zero. exact Hzero.
  - intros result Habsent. rewrite (Get_absent _ _ Habsent). reflexivity.
  - exact Atoi_syntax_zero.
  - reflexivity.
Qed.

Lemma slowdown_divides_by_zero_witness :
  @makeAPIRequest NationRegion nameDecoder (Add ∅ "q" "region")
    (world [reply 404 [("RateLimit-Reset", "30")] EmptyString])
  = Panic divide_by_zero.
Proof.
  apply (proj1 slowdown_divides_by_zero NationRegion nameDecoder
           (Add ∅ "q" "region")
           (world [reply 404 [("RateLimit-Reset", "30")] EmptyString])
           (mkResponse 404 EmptyString (Add ∅ "RateLimit-Reset" "30") EmptyString None) []).
  - discriminate.
  - reflexivity.
  - discriminate.
  - vm_compute. reflexivity.
Defined.

(** ** The typed queries *)

(** [p] is the first proposal of the list with the id looked for. *)
Definition first_with_id (id : string) (ps : list Proposal) (p : Proposal)
  : Prop :=
  exists before after,
    ps = (before ++ p :: after)%list /\ Id p = id /\
    forall q, q ∈ before -> Id q <> id.

Definition absent (id : string) (ps : list Proposal) : Prop :=
  forall q, q ∈ ps -> Id q <> id.

Lemma findProposal_first id ps p :
  first_with_id id ps p -> findProposal id ps = Some p.
Proof.
  intros (before & after & -> & Hid & Hbefore). unfold findProposal.
  induction before as [|q before IH]; simpl.
  - rewrite (proj2 (String.eqb_eq (Id p) id) Hid). reflexivity.
  - destruct (String.eqb_spec (Id q) id) as [Heq|_].
    + exfalso. exact (Hbefore q (list_elem_of_here _ _) Heq).
    + apply IH. intros q' Hq'. apply Hbefore, list_elem_of_further, Hq'.
Qed.

Lemma findProposal_absent id ps : absent id ps <-> findProposal id ps = None.
Proof.
  unfold findProposal, absent. split.
  - intros Habs. induction ps as [|q ps IH]; simpl; [reflexivity|].
    destruct (String.eqb_spec (Id q) id) as [Heq|_].
    + exfalso. exact (Habs q (list_elem_of_here _ _) Heq).
    + apply IH. intros q' Hq'. apply Habs, list_elem_of_further, Hq'.
  - intros Hnone q Hq Hid.
    apply list_elem_of_In in Hq.
    apply (find_none _ _ Hnone) in Hq.
    rewrite (proj2 (String.eqb_eq (Id q) id) Hid) in Hq. discriminate.
Qed.

Lemma second_class_data : Set_ (proposalsData "2") "wa" "1" = proposalsData "1".
Proof. vm_compute. reflexivity. Qed.

(** C6. The lookup asks for the proposals of class [wa=2]; if the id is not
    among them it asks for those of class [wa=1]. Found in either class, the
    approvals of the proposal are returned split at the colons; any error
    returned after two answered requests is "proposal not found", and then
    the id is in neither class. *)
Theorem approvals_lookup `{!ApiRootNode WaProposalsOuter}
    `{!ApiRootNode RegionOuter} `{!ApiRootNode NationRegion}
    (id : string) (w w1 : World) (x1 : WaProposalsOuter) :
  makeAPIRequest (proposalsData "2") w = Ret ((x1, None), w1) ->
  (forall p, first_with_id id (Proposals (Inner x1)) p ->
     GetProposalApprovals id w = Ret ((Split (Approvals p) ":", None), w1))
  /\
  (forall l e w', GetProposalApprovals id w = Ret ((l, Some e), w') ->
     absent id (Proposals (Inner x1)))
  /\
  (absent id (Proposals (Inner x1)) ->
   forall x2 w2,
     makeAPIRequest (proposalsData "1") w1 = Ret ((x2, None), w2) ->
     (forall p, first_with_id id (Proposals (Inner x2)) p ->
        GetProposalApprovals id w = Ret ((Split (Approvals p) ":", None), w2))
     /\
     (absent id (Proposals (Inner x2)) <->
      GetProposalApprovals id w = Ret (([], Some "proposal not found"), w2))).
Proof.
  intros Hfirst.
  assert (Hstep : GetProposalApprovals id w =
    match findProposal id (Proposals (Inner x1)) with
    | Some proposal => Ret ((Split (Approvals proposal) ":", None), w1)
    | None =>
        match makeAPIRequest (proposalsData "1") w1 with
        | Ret ((x2, Some e), w2) => Ret (([], Some e), w2)
        | Ret ((x2, None), w2) =>
            match findProposal id (Proposals (Inner x2)) with
            | Some proposal => Ret ((Split (Approvals proposal) ":", None), w2)
            | None => Ret (([], Some "proposal not found"), w2)
            end
        | Panic msg => Panic msg
        | Fatal msg => Fatal msg
        | OutOfFuel => OutOfFuel
        end
    end).
  { unfold GetProposalApprovals, mbind, client_bind at 1.
    fold (proposalsData "2"). rewrite Hfirst.
    destruct (findProposal id (Proposals (Inner x1))); [reflexivity|].
    rewrite second_class_data. unfold client_bind.
    destruct (makeAPIRequest (proposalsData "1") w1) as [[[x2 [e|]] w2]| | |];
      try reflexivity.
    destruct (findProposal id (Proposals (Inner x2))); reflexivity. }
  split; [|split].
  - intros p Hp. rewrite Hstep, (findProposal_first _ _ _ Hp). reflexivity.
  - intros l e w' Hret. apply findProposal_absent.
    rewrite Hstep in Hret.
    destruct (findProposal id (Proposals (Inner x1))); [discriminate|reflexivity].
  - intros Habs x2 w2 Hsecond.
    rewrite (proj1 (findProposal_absent _ _) Habs), Hsecond in Hstep.
    split.
    + intros p Hp. rewrite Hstep, (findProposal_first _ _ _ Hp). reflexivity.
    + rewrite findProposal_absent, Hstep.
      destruct (findProposal id (Proposals (Inner x2))); split;
        try reflexivity; discriminate.
Qed.

Definition twoClasses : World :=
  world [reply 200 calm "council"; reply 200 calm "assembly"].

Definition afterCouncil : World :=
  mkWorld "quorate" [reply 200 calm "assembly"]
    [EvDo (newRequest "quorate" (proposalsData "2"))].

Definition councilProposals : WaProposalsOuter :=
  mkWaProposalsOuter (mkWaProposalList
    [mkProposal "p_1" "anna:bert"; mkProposal "p_2" "carl"]).

Lemma approvals_lookup_witness :
  (forall p, first_with_id "p_3" (Proposals (Inner councilProposals)) p ->
     @GetProposalApprovals proposalDecoder "p_3" twoClasses
     = Ret ((Split (Approvals p) ":", None), afterCouncil))
  /\
  (forall l e w', @GetProposalApprovals proposalDecoder "p_3" twoClasses
                  = Ret ((l, Some e), w') ->
     absent "p_3" (Proposals (Inner councilProposals)))
  /\
  (absent "p_3" (Proposals (Inner councilProposals)) ->
   forall x2 w2,
     @makeAPIRequest _ proposalDecoder (proposalsData "1") afterCouncil
     = Ret ((x2, None), w2) ->
     (forall p, first_with_id "p_3" (Proposals (Inner x2)) p ->
        @GetProposalApprovals proposalDecoder "p_3" twoClasses
        = Ret ((Split (Approvals p) ":", None), w2))
     /\
     (absent "p_3" (Proposals (Inner x2)) <->
      @GetProposalApprovals proposalDecoder "p_3" twoClasses
      = Ret (([], Some "proposal not found"), w2))).
Proof.
  apply (@approvals_lookup proposalDecoder regionDecoder nameDecoder
           "p_3" twoClasses afterCouncil councilProposals).
  vm_compute. reflexivity.
Defined.

(** The lookup in the example: the proposal is in the second class only. *)
Lemma approvals_example :
  exists w', @GetProposalApprovals proposalDecoder "p_3" twoClasses
             = Ret ((["dora"; "emil"; "fred"], None), w') /\
             network w' = [] /\
             trace w' = [EvDo (newRequest "quorate" (proposalsData "2"));
                         EvDo (newRequest "quorate" (proposalsData "1"))].
Proof.
  eexists. split; [vm_compute; reflexivity|].
  split; [reflexivity|]. rewrite <- second_class_data. reflexivity.
Qed.

Lemma existsb_Password (tags : list string) :
  existsb (fun tag => String.eqb tag "Password") tags = true <->
  "Password" ∈ tags.
Proof.
  rewrite existsb_exists, list_elem_of_In. split.
  - intros (tag & Hin & Heq). apply String.eqb_eq in Heq. congruence.
  - intros Hin. exists "Password". split; [exact Hin|reflexivity].
Qed.

(** C7. Once the request is answered: with fewer than two ranked nations
    the lookup returns the zero [RegionInfo] and the shape error; with two
    or more it returns the endorsements of the first and of the second, the
    name of the second, whether the tag [Password] is present, and both
    update times. A failed request returns the zero value with its error. *)
Theorem region_info_shape `{!ApiRootNode WaProposalsOuter}
    `{!ApiRootNode RegionOuter} `{!ApiRootNode NationRegion}
    (region : string) (w w1 : World) (xmlRegion : RegionOuter)
    (err : option string) :
  makeAPIRequest (regionData region) w = Ret ((xmlRegion, err), w1) ->
  let ranks := Nations (ecrInner (EndoRanks xmlRegion)) in
  (forall e, err = Some e ->
     GetRegioninfo region w = Ret ((zeroRegionInfo, Some e), w1))
  /\
  (err = None -> (length ranks < 2)%nat ->
     GetRegioninfo region w =
       Ret ((zeroRegionInfo, Some "how tf was this even triggered"), w1))
  /\
  (err = None ->
   forall first second,
     ranks !! 0%nat = Some first -> ranks !! 1%nat = Some second ->
     exists info,
       GetRegioninfo region w = Ret ((info, None), w1) /\
       DelEndos info = Endos first /\
       SecondEndos info = Endos second /\
       riSecondNation info = neName second /\
       (Password info = true <-> "Password" ∈ TagArray (Tags xmlRegion)) /\
       LastMinor info = roLastMinor xmlRegion /\
       LastMajor info = roLastMajor xmlRegion).
Proof.
  intros Hreq ranks.
  assert (Hstep : GetRegioninfo region w =
    match err with
    | Some e => Ret ((zeroRegionInfo, Some e), w1)
    | None => lift_run (regionInfoOf xmlRegion) w1
    end).
  { unfold GetRegioninfo, mbind at 1, client_bind. rewrite Hreq.
    destruct err; reflexivity. }
  split; [|split].
  - intros e ->. exact Hstep.
  - intros -> Hshort. rewrite Hstep. unfold regionInfoOf. fold ranks.
    destruct (Z.ltb_spec (Z.of_nat (length ranks)) 2); [reflexivity|lia].
  - intros -> first second Hfirst Hsecond. rewrite Hstep.
    unfold regionInfoOf. fold ranks.
    pose proof (lookup_lt_Some _ _ _ Hsecond) as Hlen.
    destruct (Z.ltb_spec (Z.of_nat (length ranks)) 2); [lia|].
    unfold at_index. rewrite Hfirst, Hsecond.
    eexists. split; [reflexivity|]. simpl.
    repeat split; try reflexivity; apply existsb_Password.
Qed.

Definition lonelyWorld : World := world [reply 200 calm "lonely"].

Definition lonelyRegion : RegionOuter :=
  mkRegionOuter (mkEndoCensusRanks (mkNationList [mkNationEndos "anna" 3]))
    (mkRegionTags ["Password"]) 2000 1000.

Lemma region_info_shape_witness :
  @GetRegioninfo regionDecoder "The North" lonelyWorld =
    Ret ((zeroRegionInfo, Some "how tf was this even triggered"),
         mkWorld "quorate" []
           [EvDo (newRequest "quorate" (regionData "The North"))]).
Proof.
  refine (proj1 (proj2 (@region_info_shape proposalDecoder regionDecoder
           nameDecoder "The North" lonelyWorld
           (mkWorld "quorate" []
              [EvDo (newRequest "quorate" (regionData "The North"))])
           lonelyRegion None _)) eq_refl _).
  - vm_compute. reflexivity.
  - simpl. lia.
Defined.

(** * More of the client *)

(** ** [url.QueryEscape] and [SetUserAgent] *)

Module NetUrl.

Definition is_alnum (c : ascii) : bool :=
  let n := nat_of_ascii c in
  ((48 <=? n)%nat && (n <=? 57)%nat) ||
  ((65 <=? n)%nat && (n <=? 90)%nat) ||
  ((97 <=? n)%nat && (n <=? 122)%nat).

(** The bytes that [url.QueryEscape] keeps as they are. *)
Definition unreserved (c : ascii) : bool :=
  is_alnum c || Ascii.eqb c "-" || Ascii.eqb c "_" || Ascii.eqb c "."
  || Ascii.eqb c "~".

Definition upperhex : string := "0123456789ABCDEF".

Definition hex_digit (n : nat) : ascii :=
  match String.get n upperhex with
  | Some c => c
  | None => "0"%char
  end.

Definition escape_byte (c : ascii) : string :=
  if Ascii.eqb c " " then String "+" EmptyString
  else if unreserved c then String c EmptyString
  else String "%" (String (hex_digit (nat_of_ascii c / 16))
                     (String (hex_digit (nat_of_ascii c mod 16)) EmptyString)).

(** [url.QueryEscape]: a space becomes [+], a byte that is not unreserved
    becomes [%XX]. *)
Fixpoint QueryEscape (s : string) : string :=
  match s with
  | EmptyString => EmptyString
  | String c s' => escape_byte c ++ QueryEscape s'
  end.

End NetUrl.

Module UserAgent.
Import NetUrl.

Definition version : string := "1.0.0".

(** [SetUserAgent] writes the package variable. *)
Definition SetUserAgent (mainNation : string) : Client unit := fun w =>
  Ret (tt,
       mkWorld
         (QueryEscape ("quorate v" ++ version
                       ++ " developed by nation=Notanam, in use by nation="
                       ++ mainNation))
         (network w) (trace w)).

End UserAgent.

Import NetUrl UserAgent.

Lemma string_cons_app (x : ascii) (a b : string) :
  (String x a ++ b)%string = String x (a ++ b)%string.
Proof. reflexivity. Qed.

Lemma string_nil_app (b : string) : (EmptyString ++ b)%string = b.
Proof. reflexivity. Qed.

Lemma string_app_assoc (a b c : string) :
  (a ++ (b ++ c))%string = ((a ++ b) ++ c)%string.
Proof.
  induction a as [|x a IH]; [reflexivity|].
  rewrite !string_cons_app, IH. reflexivity.
Qed.

Lemma string_app_nil_r (a : string) : (a ++ EmptyString)%string = a.
Proof.
  induction a as [|x a IH]; [reflexivity|].
  rewrite string_cons_app, IH. reflexivity.
Qed.

Lemma QueryEscape_app a b : QueryEscape (a ++ b) = QueryEscape a ++ QueryEscape b.
Proof.
  induction a as [|c a IH]; [reflexivity|].
  rewrite string_cons_app. simpl. rewrite IH. apply string_app_assoc.
Qed.

Definition agentPrefix : string :=
  "quorate+v1.0.0+developed+by+nation%3DNotanam%2C+in+use+by+nation%3D".

(** X1. [SetUserAgent] stores the escaped fixed text followed by the
    escaped nation, which is never empty: whatever the nation, even the
    empty one, the next request passes the user agent test and goes to the
    network. *)
Theorem set_user_agent_reaches_network {T : Type} `{!ApiRootNode T}
    (mainNation : string) (data : gmap string (list string)) (w : World) :
  let ua := agentPrefix ++ QueryEscape mainNation in
  SetUserAgent mainNation w = Ret (tt, mkWorld ua (network w) (trace w)) /\
  (_ ← SetUserAgent mainNation; makeAPIRequest data) w =
    requestLoop (newRequest ua data) ua (network w) (trace w).
Proof.
  intros ua.
  assert (Hset : SetUserAgent mainNation w =
                 Ret (tt, mkWorld ua (network w) (trace w))).
  { unfold SetUserAgent, ua, version.
    rewrite !QueryEscape_app. reflexivity. }
  split; [exact Hset|].
  unfold mbind, client_bind. rewrite Hset.
  apply (makeAPIRequest_loop data (mkWorld ua (network w) (trace w))).
  simpl. unfold ua, agentPrefix. rewrite string_cons_app. discriminate.
Qed.

(** ** Requests that cannot be sent, and requests that fail *)

(** X2. While no user agent is set, each of the three queries returns the
    error "no user agent set" with the zero value of its result, sends no
    request and takes no reply. *)
Theorem no_user_agent_no_request `{!ApiRootNode WaProposalsOuter}
    `{!ApiRootNode RegionOuter} `{!ApiRootNode NationRegion}
    (id region nation : string) (w : World) :
  userAgent w = EmptyString ->
  GetProposalApprovals id w = Ret (([], Some "no user agent set"), w) /\
  GetRegioninfo region w = Ret ((zeroRegionInfo, Some "no user agent set"), w) /\
  GetNationRegion nation w = Ret ((EmptyString, Some "no user agent set"), w).
Proof.
  intros Hua.
  assert (Hreq : forall (T : Type) (inst : ApiRootNode T) data,
             @makeAPIRequest T inst data w =
             Ret ((zero, Some "no user agent set"), w)).
  { intros T inst data. unfold makeAPIRequest. rewrite Hua. reflexivity. }
  repeat split.
  - unfold GetProposalApprovals, mbind, client_bind. rewrite Hreq. reflexivity.
  - unfold GetRegioninfo, mbind, client_bind. rewrite Hreq. reflexivity.
  - unfold GetNationRegion, mbind, client_bind. rewrite Hreq. reflexivity.
Qed.

Definition silentWorld : World :=
  mkWorld EmptyString [reply 200 calm "the_north"] [].

Lemma no_user_agent_no_request_witness :
  @GetProposalApprovals proposalDecoder "p_1" silentWorld
  = Ret (([], Some "no user agent set"), silentWorld) /\
  @GetRegioninfo regionDecoder "The North" silentWorld
  = Ret ((zeroRegionInfo, Some "no user agent set"), silentWorld) /\
  @GetNationRegion nameDecoder "anna" silentWorld
  = Ret ((EmptyString, Some "no user agent set"), silentWorld).
Proof.
  apply (@no_user_agent_no_request proposalDecoder regionDecoder nameDecoder
           "p_1" "The North" "anna" silentWorld).
  reflexivity.
Defined.

(** The requests among the events of a trace. *)
Definition requestsOf (events : list Event) : list Request :=
  omap (fun ev => match ev with EvDo req => Some req | EvSleep _ => None end)
    events.

Lemma requestsOf_app a b : requestsOf (a ++ b) = (requestsOf a ++ requestsOf b)%list.
Proof. unfold requestsOf. apply omap_app. Qed.

Section ReplyFacts.
Context {T : Type} `{!ApiRootNode T}.

Lemma respond_pure (result : Response) (w : World) :
  exists v err, respond result w = Ret ((v, err), w) /\
                (err <> None -> v = zero).
Proof.
  unfold respond.
  destruct (negb (StatusCode result =? StatusOK)).
  { eexists _, _. split; [reflexivity|reflexivity]. }
  destruct (bodyErr result).
  { eexists _, _. split; [reflexivity|reflexivity]. }
  destruct (xmlUnmarshal (Body result)) as [k [e|]].
  - eexists _, _. split; [reflexivity|reflexivity].
  - eexists _, _. split; [reflexivity|]. intros Hne. contradiction.
Qed.

Lemma slowdown_frame (result : Response) (w w' : World) :
  slowdown result w = Ret (tt, w') ->
  userAgent w' = userAgent w /\ network w' = network w /\
  exists sleeps, trace w' = (trace w ++ sleeps)%list /\ requestsOf sleeps = [].
Proof.
  unfold slowdown.
  destruct (fst (Atoi (Get (Header result) "RateLimit-Remaining")) <=? 7).
  - destruct (fst (Atoi (Get (Header result) "RateLimit-Remaining")) =? 0);
      [discriminate|].
    unfold sleep. intros [= <-]. simpl. repeat split.
    eexists. split; reflexivity.
  - intros [= <-]. repeat split. exists []. rewrite app_nil_r. split; reflexivity.
Qed.

Lemma finish_frame (result : Response) (w w' : World) v err :
  finish result w = Ret ((v, err), w') ->
  userAgent w' = userAgent w /\ network w' = network w /\
  (exists sleeps, trace w' = (trace w ++ sleeps)%list /\ requestsOf sleeps = []) /\
  (err <> None -> v = zero).
Proof.
  unfold finish, mbind, client_bind.
  destruct (slowdown result w) as [[[] w1]| | |] eqn:Hslow; try discriminate.
  destruct (respond_pure result w1) as (v1 & e1 & -> & Hzero).
  intros [= <- <- <-].
  destruct (slowdown_frame result w w1 Hslow) as (Hua & Hnet & Htr).
  repeat split; assumption.
Qed.

(** How a call that returns has used the network. *)
Lemma requestLoop_account (ua : string) (replies : list DoResult) :
  forall req tr v err w',
    requestLoop req ua replies tr = Ret ((v, err), w') ->
    (exists throttles last events,
        replies = (throttles ++ last :: network w')%list /\
        Forall is429 throttles /\ ~ is429 last /\
        trace w' = (tr ++ events)%list /\
        requestsOf events = req :: replicate (length throttles) (drain req)) /\
    userAgent w' = ua /\
    (err <> None -> v = zero).
Proof.
  induction replies as [|r rest IH]; intros req tr v err w' Hrun; simpl in Hrun;
    [discriminate|].
  destruct r as [result|e].
  - destruct (Z.eqb_spec (StatusCode result) StatusTooManyRequests) as [H429|Hother].
    + destruct (IH _ _ _ _ _ Hrun)
        as ((throttles & last & events & -> & Hthr & Hlast & Htr & Hreqs) & Hua & Hz).
      split; [|split; assumption].
      exists (DoOk result :: throttles), last,
        ([EvDo req; EvSleep (mul (fst (Atoi (Get (Header result) "Retry-After")))
                               Second)] ++ events)%list.
      split; [reflexivity|]. split; [constructor; assumption|].
      split; [exact Hlast|]. split.
      * rewrite Htr, <- !app_assoc. reflexivity.
      * rewrite requestsOf_app, Hreqs. reflexivity.
    + destruct (finish_frame result _ w' v err Hrun)
        as (Hua & Hnet & (sleeps & Htr & Hnone) & Hz).
      simpl in Hua, Hnet, Htr.
      split; [|split; assumption].
      exists [], (DoOk result), ([EvDo req] ++ sleeps)%list.
      split; [simpl; congruence|]. split; [constructor|].
      split; [exact Hother|]. split.
      * rewrite Htr, <- app_assoc. reflexivity.
      * rewrite requestsOf_app, Hnone. reflexivity.
  - injection Hrun as <- <- <-. simpl.
    split; [|split; [reflexivity|reflexivity]].
    exists [], (DoErr e), [EvDo req].
    split; [reflexivity|]. split; [constructor|].
    split; [intros []|]. split; reflexivity.
Qed.

End ReplyFacts.

(** X3. A call of the executor that returns has taken from the network a
    run of 429 replies and the one reply that ended it, and has called
    [Do] once per reply taken: the first time with the request as built,
    every later time with that request after its body was read. It has
    added nothing to the trace but these requests and sleeps, and has left
    the user agent alone. *)
Theorem one_request_per_reply {T : Type} `{!ApiRootNode T}
    (data : gmap string (list string)) (w w' : World)
    (v : T) (err : option string) :
  userAgent w <> EmptyString ->
  makeAPIRequest data w = Ret ((v, err), w') ->
  exists throttles last events,
    network w = (throttles ++ last :: network w')%list /\
    Forall is429 throttles /\ ~ is429 last /\
    trace w' = (trace w ++ events)%list /\
    requestsOf events =
      newRequest (userAgent w) data
        :: replicate (length throttles) (drain (newRequest (userAgent w) data)) /\
    userAgent w' = userAgent w.
Proof.
  intros Hua Hrun. rewrite (makeAPIRequest_loop data w Hua) in Hrun.
  destruct (requestLoop_account _ _ _ _ _ _ _ Hrun)
    as ((throttles & last & events & H1 & H2 & H3 & H4 & H5) & H6 & _).
  exists throttles, last, events. repeat split; assumption.
Qed.

Definition busyWorld : World :=
  world [reply 429 [("Retry-After", "2")] EmptyString;
         reply 200 calm "the_north"; reply 200 calm "the_south"].

Lemma one_request_per_reply_witness :
  exists throttles last events,
    network busyWorld =
      (throttles ++ last :: [reply 200 calm "the_south"])%list /\
    Forall is429 throttles /\ ~ is429 last /\
    (let req := newRequest "quorate" (Add ∅ "q" "region") in
     [EvDo req; EvSleep 2000000000; EvDo (drain req)]) = ([] ++ events)%list /\
    requestsOf events =
      newRequest "quorate" (Add ∅ "q" "region")
        :: replicate (length throttles)
             (drain (newRequest "quorate" (Add ∅ "q" "region"))) /\
    "quorate" = "quorate".
Proof.
  apply (@one_request_per_reply NationRegion nameDecoder
           (Add ∅ "q" "region") busyWorld
           (mkWorld "quorate" [reply 200 calm "the_south"]
              (let req := newRequest "quorate" (Add ∅ "q" "region") in
               [EvDo req; EvSleep 2000000000; EvDo (drain req)]))
           (mkNationRegion "the_north") None).
  - discriminate.
  - vm_compute. reflexivity.
Defined.

(** X4. Whatever is returned with an error is the zero value: the executor
    returns no partly decoded response, the approvals lookup no endorser,
    the region info lookup no field, the region lookup no name. *)
Theorem error_carries_zero `{!ApiRootNode WaProposalsOuter}
    `{!ApiRootNode RegionOuter} `{!ApiRootNode NationRegion} :
  (forall (T : Type) (inst : ApiRootNode T) data w v e w',
      @makeAPIRequest T inst data w = Ret ((v, Some e), w') -> v = zero) /\
  (forall id w l e w',
      GetProposalApprovals id w = Ret ((l, Some e), w') -> l = []) /\
  (forall region w info e w',
      GetRegioninfo region w = Ret ((info, Some e), w') ->
      info = zeroRegionInfo) /\
  (forall nation w region e w',
      GetNationRegion nation w = Ret ((region, Some e), w') ->
      region = EmptyString).
Proof.
  assert (Hexec : forall (T : Type) (inst : ApiRootNode T) data w v e w',
             @makeAPIRequest T inst data w = Ret ((v, Some e), w') -> v = zero).
  { intros T inst data w v e w' Hrun. unfold makeAPIRequest in Hrun.
    destruct (String.eqb (userAgent w) EmptyString).
    - injection Hrun as <- _ _. reflexivity.
    - destruct (requestLoop_account _ _ _ _ _ _ _ Hrun) as (_ & _ & Hz).
      apply Hz. discriminate. }
  split; [exact Hexec|]. split; [|split].
  - intros id w l e w'. unfold GetProposalApprovals, mbind, client_bind.
    destruct (makeAPIRequest _ w) as [[[x1 [e1|]] w1]| | |]; try discriminate.
    { intros [= <- _ _]. reflexivity. }
    destruct (findProposal id (Proposals (Inner x1))); [discriminate|].
    destruct (makeAPIRequest _ w1) as [[[x2 [e2|]] w2]| | |]; try discriminate.
    { intros [= <- _ _]. reflexivity. }
    destruct (findProposal id (Proposals (Inner x2))); [discriminate|].
    intros [= <- _ _]. reflexivity.
  - intros region w info e w'. unfold GetRegioninfo, mbind, client_bind.
    destruct (makeAPIRequest _ w) as [[[x [e1|]] w1]| | |]; try discriminate.
    { intros [= <- _ _]. reflexivity. }
    unfold lift_run, regionInfoOf.
    destruct (Z.of_nat (length (Nations (ecrInner (EndoRanks x)))) <? 2).
    { intros [= <- _ _]. reflexivity. }
    unfold at_index, mbind, run_bind.
    destruct (Nations (ecrInner (EndoRanks x)) !! 0%nat); [|discriminate].
    destruct (Nations (ecrInner (EndoRanks x)) !! 1%nat); discriminate.
  - intros nation w region e w'. unfold GetNationRegion, mbind, client_bind.
    destruct (makeAPIRequest _ w) as [[[x [e1|]] w1]| | |]; try discriminate.
    intros [= <- _ _]. reflexivity.
Qed.

Lemma error_carries_zero_witness :
  mkNationRegion EmptyString = @zero NationRegion nameDecoder.
Proof.
  apply (proj1 (@error_carries_zero proposalDecoder regionDecoder nameDecoder)
           NationRegion nameDecoder (Add ∅ "q" "region")
           (world [reply 500 calm "oops"])
           (mkNationRegion EmptyString) "bad status: "
           (mkWorld "quorate" []
              [EvDo (newRequest "quorate" (Add ∅ "q" "region"))])).
  vm_compute. reflexivity.
Defined.

(** X5. A reply whose status is neither 429 nor 200 ends the call with the
    error "bad status" and the zero value: it is the only reply taken, the
    request is not sent again and the body is not looked at. The slow-down
    comes first: with a budget of at most 7 (and not 0) the call sleeps
    before it returns the error, with a larger budget it does not sleep. *)
Theorem bad_status_is_final {T : Type} `{!ApiRootNode T}
    (data : gmap string (list string)) (w : World)
    (result : Response) (rest : list DoResult) :
  let remaining := fst (Atoi (Get (Header result) "RateLimit-Remaining")) in
  let reset := fst (Atoi (Get (Header result) "RateLimit-Reset")) in
  let req := newRequest (userAgent w) data in
  userAgent w <> EmptyString ->
  network w = DoOk result :: rest ->
  StatusCode result <> StatusTooManyRequests ->
  StatusCode result <> StatusOK ->
  remaining <> 0 ->
  exists sleeps,
    makeAPIRequest data w =
      Ret ((zero, Some ("bad status: " ++ Status result)%string),
           mkWorld (userAgent w) rest (trace w ++ [EvDo req] ++ sleeps)%list) /\
    (7 < remaining -> sleeps = []) /\
    (remaining <= 7 ->
     sleeps = [EvSleep (mul (add (quo reset remaining) 1) Second)]).
Proof.
  intros remaining reset req Hua Hnet H429 H200 Hrem.
  rewrite (makeAPIRequest_loop data w Hua), Hnet. simpl.
  destruct (Z.eqb_spec (StatusCode result) StatusTooManyRequests);
    [contradiction|].
  unfold finish, mbind, client_bind, slowdown. fold remaining reset.
  destruct (Z.eqb_spec remaining 0); [contradiction|].
  unfold respond.
  destruct (Z.eqb_spec (StatusCode result) StatusOK); [contradiction|].
  destruct (Z.leb_spec remaining 7) as [Hlow|Hhigh]; simpl.
  - eexists. split; [rewrite <- app_assoc; reflexivity|].
    split; [lia|reflexivity].
  - exists []. split; [reflexivity|].
    split; [reflexivity|lia].
Qed.

Definition notFound : Response :=
  mkResponse 404 "404 Not Found"
    (Add (Add ∅ "RateLimit-Reset" "20") "RateLimit-Remaining" "5")
    "<html>" None.

Definition regionQuery : gmap string (list string) := Add ∅ "q" "region".

Lemma bad_status_is_final_witness :
  let w := world [DoOk notFound; reply 200 calm "the_north"] in
  let req := newRequest "quorate" regionQuery in
  exists sleeps,
    @makeAPIRequest NationRegion nameDecoder regionQuery w =
      Ret ((@zero NationRegion nameDecoder,
            Some ("bad status: " ++ "404 Not Found")%string),
           mkWorld "quorate" [reply 200 calm "the_north"]
             ([] ++ [EvDo req] ++ sleeps)%list) /\
    (7 < fst (Atoi (Get (Header notFound) "RateLimit-Remaining")) -> sleeps = []) /\
    (fst (Atoi (Get (Header notFound) "RateLimit-Remaining")) <= 7 ->
     sleeps =
       [EvSleep
          (mul (add (quo (fst (Atoi (Get (Header notFound) "RateLimit-Reset")))
                         (fst (Atoi (Get (Header notFound) "RateLimit-Remaining"))))
                    1) Second)]).
Proof.
  intros w req.
  apply (@bad_status_is_final NationRegion nameDecoder regionQuery
           w notFound [reply 200 calm "the_north"]).
  - discriminate.
  - reflexivity.
  - discriminate.
  - discriminate.
  - vm_compute. discriminate.
Defined.

(** ** What the approvals lookup hands to the ranker *)

Fixpoint has_byte (c : ascii) (s : string) : bool :=
  match s with
  | EmptyString => false
  | String x s' => Ascii.eqb x c || has_byte c s'
  end.

Lemma split_go_nonempty sep cur s : split_go sep cur s <> [].
Proof.
  revert cur. induction s as [|c s IH]; intros cur; simpl; [discriminate|].
  destruct (Ascii.eqb c sep); [discriminate|apply IH].
Qed.

Lemma split_go_join sep cur s :
  String.concat (String sep EmptyString) (split_go sep cur s) = (cur ++ s)%string.
Proof.
  revert cur. induction s as [|c s IH]; intros cur; simpl.
  - symmetry. apply string_app_nil_r.
  - destruct (Ascii.eqb_spec c sep) as [->|Hne].
    + destruct (split_go sep EmptyString s) as [|field fields] eqn:Hrest.
      * exfalso. exact (split_go_nonempty _ _ _ Hrest).
      * change (String.concat (String sep EmptyString) (cur :: field :: fields))
          with (cur ++ String sep EmptyString
                ++ String.concat (String sep EmptyString) (field :: fields))%string.
        rewrite <- Hrest, IH. reflexivity.
    + rewrite IH, <- string_app_assoc. reflexivity.
Qed.

Lemma has_byte_snoc c cur x :
  has_byte c (cur ++ String x EmptyString) = has_byte c cur || Ascii.eqb x c.
Proof.
  induction cur as [|y cur IH]; [simpl; apply orb_false_r|].
  rewrite string_cons_app. simpl. rewrite IH. apply orb_assoc.
Qed.

Lemma split_go_fields sep cur s :
  has_byte sep cur = false ->
  Forall (fun field => has_byte sep field = false) (split_go sep cur s).
Proof.
  revert cur. induction s as [|c s IH]; intros cur Hcur; simpl.
  - constructor; [exact Hcur|constructor].
  - destruct (Ascii.eqb c sep) eqn:Hc.
    + constructor; [exact Hcur|]. apply IH. reflexivity.
    + apply IH. rewrite has_byte_snoc, Hcur, Hc. reflexivity.
Qed.

Section DecodedFacts.
Context {T : Type} `{!ApiRootNode T}.

Lemma respond_decoded (result : Response) (w w' : World) (v : T) :
  respond result w = Ret ((v, None), w') ->
  StatusCode result = StatusOK /\ bodyErr result = None /\
  xmlUnmarshal (Body result) = (v, None).
Proof.
  unfold respond.
  destruct (Z.eqb_spec (StatusCode result) StatusOK) as [Hok|_]; simpl;
    [|discriminate].
  destruct (bodyErr result); [discriminate|].
  destruct (xmlUnmarshal (Body result)) as [k [e|]]; [discriminate|].
  intros [= <- _]. repeat split. exact Hok.
Qed.

(** A call that returns without an error has decoded the last reply it
    took, and the replies before it were 429. *)
Lemma requestLoop_decoded (ua : string) (replies : list DoResult) :
  forall req tr v w',
    requestLoop req ua replies tr = Ret ((v, None), w') ->
    exists throttles result,
      replies = (throttles ++ DoOk result :: network w')%list /\
      Forall is429 throttles /\
      StatusCode result = StatusOK /\ bodyErr result = None /\
      xmlUnmarshal (Body result) = (v, None).
Proof.
  induction replies as [|r rest IH]; intros req tr v w' Hrun; simpl in Hrun;
    [discriminate|].
  destruct r as [result|e]; [|discriminate].
  destruct (Z.eqb_spec (StatusCode result) StatusTooManyRequests) as [H429|_].
  - destruct (IH _ _ _ _ Hrun) as (throttles & last & -> & Hthr & Hlast).
    exists (DoOk result :: throttles), last.
    split; [reflexivity|]. split; [constructor; assumption|exact Hlast].
  - unfold finish, mbind, client_bind in Hrun.
    destruct (slowdown result _) as [[[] w1]| | |] eqn:Hslow; try discriminate.
    destruct (slowdown_frame result _ w1 Hslow) as (_ & Hnet & _).
    destruct (respond_pure result w1) as (v1 & e1 & Hresp & _).
    rewrite Hresp in Hrun. injection Hrun as -> -> <-.
    destruct (respond_decoded result w1 w1 v Hresp) as (Hok & Hbody & Hxml).
    exists [], result. simpl in Hnet. rewrite Hnet.
    split; [reflexivity|]. split; [constructor|]. repeat split; assumption.
Qed.

Lemma makeAPIRequest_decoded data w v w' :
  makeAPIRequest data w = Ret ((v, None), w') ->
  exists throttles result,
    network w = (throttles ++ DoOk result :: network w')%list /\
    Forall is429 throttles /\
    StatusCode result = StatusOK /\ bodyErr result = None /\
    xmlUnmarshal (Body result) = (v, None).
Proof.
  unfold makeAPIRequest.
  destruct (String.eqb (userAgent w) EmptyString); [discriminate|].
  apply requestLoop_decoded.
Qed.

End DecodedFacts.

(** X6. An approvals lookup that succeeds has decoded the last reply it
    took from the network, with status 200, and returns the approvals text
    of the first proposal of that reply with the id asked for, cut at the
    colons: the list is never empty, its entries hold no colon, and joined
    with colons they give that text back. A proposal without approvals
    therefore yields one endorser with the empty name. *)
Theorem approvals_are_the_split_text `{!ApiRootNode WaProposalsOuter}
    (id : string) (w w' : World) (l : list string) :
  GetProposalApprovals id w = Ret ((l, None), w') ->
  exists taken result xml p,
    network w = (taken ++ DoOk result :: network w')%list /\
    StatusCode result = StatusOK /\
    xmlUnmarshal (Body result) = (xml, None) /\
    findProposal id (Proposals (Inner xml)) = Some p /\
    Id p = id /\
    l <> [] /\
    String.concat ":" l = Approvals p /\
    Forall (fun nation => has_byte ":" nation = false) l /\
    (Approvals p = EmptyString -> l = [EmptyString]).
Proof.
  intros Hrun.
  assert (Hfound : exists taken result xml p,
             network w = (taken ++ DoOk result :: network w')%list /\
             StatusCode result = StatusOK /\
             xmlUnmarshal (Body result) = (xml, None) /\
             findProposal id (Proposals (Inner xml)) = Some p /\
             l = Split (Approvals p) ":").
  { unfold GetProposalApprovals, mbind, client_bind in Hrun.
    destruct (makeAPIRequest _ w) as [[[x1 [e1|]] w1]| | |] eqn:Hfirst;
      try discriminate.
    destruct (makeAPIRequest_decoded _ _ _ _ Hfirst)
      as (t1 & r1 & Hnet1 & _ & Hok1 & _ & Hxml1).
    destruct (findProposal id (Proposals (Inner x1))) as [p|] eqn:Hp.
    { injection Hrun as <- <-. exists t1, r1, x1, p. repeat split; assumption. }
    destruct (makeAPIRequest _ w1) as [[[x2 [e2|]] w2]| | |] eqn:Hsecond;
      try discriminate.
    destruct (makeAPIRequest_decoded _ _ _ _ Hsecond)
      as (t2 & r2 & Hnet2 & _ & Hok2 & _ & Hxml2).
    destruct (findProposal id (Proposals (Inner x2))) as [p|] eqn:Hp2;
      [|discriminate].
    injection Hrun as <- <-.
    exists (t1 ++ DoOk r1 :: t2)%list, r2, x2, p.
    split; [rewrite Hnet1, Hnet2, <- app_assoc; reflexivity|].
    repeat split; assumption. }
  destruct Hfound as (taken & result & xml & p & Hnet & Hok & Hxml & Hp & ->).
  exists taken, result, xml, p. unfold Split.
  split; [exact Hnet|]. split; [exact Hok|]. split; [exact Hxml|].
  split; [exact Hp|].
  split; [apply find_some in Hp as [_ Hid]; apply String.eqb_eq; exact Hid|].
  split; [apply split_go_nonempty|].
  split; [apply split_go_join|].
  split; [apply split_go_fields; reflexivity|].
  intros ->. reflexivity.
Qed.

Lemma approvals_are_the_split_text_witness :
  exists taken result xml p,
    network twoClasses = (taken ++ DoOk result :: [])%list /\
    StatusCode result = StatusOK /\
    @xmlUnmarshal _ proposalDecoder (Body result) = (xml, None) /\
    findProposal "p_3" (Proposals (Inner xml)) = Some p /\
    Id p = "p_3" /\
    ["dora"; "emil"; "fred"] <> [] /\
    String.concat ":" ["dora"; "emil"; "fred"] = Approvals p /\
    Forall (fun nation => has_byte ":" nation = false) ["dora"; "emil"; "fred"] /\
    (Approvals p = EmptyString -> ["dora"; "emil"; "fred"] = [EmptyString]).
Proof.
  apply (@approvals_are_the_split_text proposalDecoder "p_3" twoClasses
           (mkWorld "quorate" []
              [EvDo (newRequest "quorate" (proposalsData "2"));
               EvDo (newRequest "quorate" (proposalsData "1"))])
           ["dora"; "emil"; "fred"]).
  vm_compute. reflexivity.
Defined.

(** * More of [main] *)

(** ** Canonical names *)

Definition canon_byte (c : ascii) : ascii :=
  let l := lower_byte c in if Ascii.eqb l " " then "_"%char else l.

(** Neither a capital letter nor a space. *)
Definition plain_byte (c : ascii) : bool :=
  negb (is_upper c) && negb (Ascii.eqb c " ").

Fixpoint all_bytes (P : ascii -> bool) (s : string) : bool :=
  match s with
  | EmptyString => true
  | String c s' => P c && all_bytes P s'
  end.

Lemma canonName_cons c s : canonName (String c s) = String (canon_byte c) (canonName s).
Proof. reflexivity. Qed.

Lemma canon_byte_plain c : plain_byte (canon_byte c) = true.
Proof. destruct c as [[] [] [] [] [] [] [] []]; reflexivity. Qed.

Lemma canon_byte_fixed c : plain_byte c = true -> canon_byte c = c.
Proof. destruct c as [[] [] [] [] [] [] [] []]; try reflexivity; discriminate. Qed.

Lemma canonName_plain s : all_bytes plain_byte (canonName s) = true.
Proof.
  induction s as [|c s IH]; [reflexivity|].
  rewrite canonName_cons. simpl. rewrite canon_byte_plain, IH. reflexivity.
Qed.

Lemma canonName_fixed s : all_bytes plain_byte s = true -> canonName s = s.
Proof.
  induction s as [|c s IH]; [reflexivity|]. simpl.
  intros Hs. apply andb_true_iff in Hs as [Hc Hs].
  rewrite canonName_cons, (canon_byte_fixed c Hc), (IH Hs). reflexivity.
Qed.

(** A byte below [utf8.RuneSelf]: [strings.ToLower] works byte by byte on
    a string of such bytes only. *)
Definition ascii_byte (c : ascii) : bool := (nat_of_ascii c <? 128)%nat.

Lemma canon_byte_ascii c : ascii_byte c = true -> ascii_byte (canon_byte c) = true.
Proof. destruct c as [[] [] [] [] [] [] [] []]; try reflexivity; discriminate. Qed.

(** X7. For a name of ASCII bytes, the canonical name is again of ASCII
    bytes and has as many of them as the name, none a capital letter or a
    space; a name that is already so is left as it is, hence
    canonicalising twice is canonicalising once: the name the ranker
    stores and the name the matcher computes from the dump agree whenever
    the two differ in capitals and in spaces against underscores only. *)
Theorem canonName_is_canonical (name : string) :
  all_bytes ascii_byte name = true ->
  String.length (canonName name) = String.length name /\
  all_bytes ascii_byte (canonName name) = true /\
  all_bytes plain_byte (canonName name) = true /\
  (all_bytes plain_byte name = true -> canonName name = name) /\
  canonName (canonName name) = canonName name.
Proof.
  intros Hascii.
  split; [|split; [|split; [apply canonName_plain|
                    split; [apply canonName_fixed|
                            apply canonName_fixed, canonName_plain]]]].
  - clear Hascii. induction name as [|c s IH]; [reflexivity|].
    rewrite canonName_cons. simpl. rewrite IH. reflexivity.
  - induction name as [|c s IH]; [reflexivity|].
    simpl in Hascii. apply andb_true_iff in Hascii as [Hc Hs].
    rewrite canonName_cons. simpl. rewrite (canon_byte_ascii c Hc), (IH Hs).
    reflexivity.
Qed.

Lemma canonName_is_canonical_witness :
  String.length (canonName "The North") = String.length "The North" /\
  all_bytes ascii_byte (canonName "The North") = true /\
  all_bytes plain_byte (canonName "The North") = true /\
  (all_bytes plain_byte "The North" = true -> canonName "The North" = "The North") /\
  canonName (canonName "The North") = canonName "The North".
Proof.
  apply (canonName_is_canonical "The North"). reflexivity.
Defined.

(** ** The loop of the ranker *)

(** A candidate as the ranker files it. *)
Definition filed (approval : string) (h : Hit) : Prop :=
  Delegate h = approval /\
  canonName (Name h) = Name h /\
  TriggerRegion h = EmptyString /\ TriggerTime h = 0 /\
  (IsDeltip h = false -> SecondNation h = EmptyString).

Lemma rankRegion_appends isMinor maxEndoCount approval region regionInfo hs hs' :
  rankRegion isMinor maxEndoCount approval region regionInfo hs = Some hs' ->
  hs' = hs \/ exists h, hs' = (hs ++ [h])%list /\ filed approval h.
Proof.
  unfold rankRegion. destruct (Password regionInfo); [discriminate|].
  destruct (DelEndos regionInfo <? maxEndoCount).
  { intros [= <-]. right. eexists. split; [reflexivity|].
    repeat split; simpl; try reflexivity.
    apply canonName_fixed, canonName_plain. }
  destruct (DelEndos regionInfo <? _).
  { intros [= <-]. right. eexists. split; [reflexivity|].
    repeat split; simpl; try reflexivity; try discriminate.
    apply canonName_fixed, canonName_plain. }
  intros [= <-]. left. reflexivity.
Qed.

(** The world after a computation: the same user agent, the network
    without the replies taken from its front, the trace with more events at
    its end. *)
Definition extends (w w' : World) : Prop :=
  userAgent w' = userAgent w /\
  (exists taken, network w = (taken ++ network w')%list) /\
  (exists events, trace w' = (trace w ++ events)%list).

Lemma extends_refl w : extends w w.
Proof.
  split; [reflexivity|]. split; [exists []; reflexivity|].
  exists []. symmetry. apply app_nil_r.
Qed.

Lemma extends_trans w1 w2 w3 : extends w1 w2 -> extends w2 w3 -> extends w1 w3.
Proof.
  intros (Hua1 & (t1 & Hn1) & (e1 & Ht1)) (Hua2 & (t2 & Hn2) & (e2 & Ht2)).
  split; [congruence|]. split.
  - exists (t1 ++ t2)%list. rewrite Hn1, Hn2, app_assoc. reflexivity.
  - exists (e1 ++ e2)%list. rewrite Ht2, Ht1, app_assoc. reflexivity.
Qed.

Lemma makeAPIRequest_extends {T : Type} `{!ApiRootNode T} data w r w' :
  makeAPIRequest data w = Ret (r, w') -> extends w w'.
Proof.
  unfold makeAPIRequest. destruct (String.eqb (userAgent w) EmptyString).
  - intros [= _ <-]. apply extends_refl.
  - destruct r as [v err]. intros Hrun.
    destruct (requestLoop_account _ _ _ _ _ _ _ Hrun)
      as ((throttles & last & events & Hnet & _ & _ & Htr & _) & Hua & _).
    split; [exact Hua|]. split.
    + exists (throttles ++ [last])%list. rewrite Hnet, <- app_assoc. reflexivity.
    + exists events. exact Htr.
Qed.

Section RankerFacts.
Context `{!ApiRootNode WaProposalsOuter} `{!ApiRootNode RegionOuter}
        `{!ApiRootNode NationRegion}.

Lemma GetNationRegion_extends nation w r w' :
  GetNationRegion nation w = Ret (r, w') -> extends w w'.
Proof.
  unfold GetNationRegion, mbind, client_bind.
  destruct (makeAPIRequest _ w) as [[[x [e|]] w1]| | |] eqn:Hreq; try discriminate;
    intros [= _ <-]; exact (makeAPIRequest_extends _ _ _ _ Hreq).
Qed.

Lemma GetRegioninfo_extends region w r w' :
  GetRegioninfo region w = Ret (r, w') -> extends w w'.
Proof.
  unfold GetRegioninfo, mbind, client_bind.
  destruct (makeAPIRequest _ w) as [[[x [e|]] w1]| | |] eqn:Hreq; try discriminate.
  - intros [= _ <-]. exact (makeAPIRequest_extends _ _ _ _ Hreq).
  - unfold lift_run. destruct (regionInfoOf x); try discriminate.
    intros [= _ <-]. exact (makeAPIRequest_extends _ _ _ _ Hreq).
Qed.

Lemma sleep_extends d w : extends w (mkWorld (userAgent w) (network w)
                                      (trace w ++ [EvSleep d])%list).
Proof.
  split; [reflexivity|]. split; [exists []; reflexivity|]. eexists. reflexivity.
Qed.

Lemma rankLoop_appends isMinor maxEndoCount approvals :
  forall hs w out w',
    rankLoop isMinor maxEndoCount approvals hs w = Ret (out, w') ->
    exists added,
      out = (hs ++ added)%list /\
      (Delegate <$> added) `sublist_of` approvals /\
      Forall (fun h => filed (Delegate h) h) added /\
      extends w w'.
Proof.
  induction approvals as [|approval rest IH]; intros hs w out w' Hrun.
  - injection Hrun as <- <-. exists []. rewrite app_nil_r.
    split; [reflexivity|]. split; [constructor|]. split; [constructor|].
    apply extends_refl.
  - simpl in Hrun. unfold mbind, client_bind in Hrun.
    destruct (GetNationRegion approval w) as [[[region [e|]] w1]| | |] eqn:Hregion;
      try discriminate.
    destruct (GetRegioninfo region w1) as [[[regionInfo [e|]] w2]| | |] eqn:Hinfo;
      try discriminate.
    assert (Hext : extends w w2).
    { exact (extends_trans _ _ _ (GetNationRegion_extends _ _ _ _ Hregion)
               (GetRegioninfo_extends _ _ _ _ Hinfo)). }
    destruct (rankRegion isMinor maxEndoCount approval region regionInfo hs)
      as [hs1|] eqn:Hrank.
    + simpl in Hrun.
      destruct (IH _ _ _ _ Hrun) as (added & -> & Hsub & Hfiled & Hext').
      pose proof (extends_trans _ _ _
                    (extends_trans _ _ _ Hext (sleep_extends _ w2)) Hext') as Hall.
      destruct (rankRegion_appends _ _ _ _ _ _ _ Hrank) as [->|(h & -> & Hh)].
      * exists added. split; [reflexivity|].
        split; [apply sublist_cons, Hsub|]. split; [exact Hfiled|exact Hall].
      * exists (h :: added). rewrite <- app_assoc. split; [reflexivity|].
        destruct Hh as (Hdel & Hh).
        split; [rewrite fmap_cons, Hdel; apply sublist_skip, Hsub|].
        split; [|exact Hall].
        constructor; [|exact Hfiled]. rewrite Hdel. split; [exact Hdel|exact Hh].
    + destruct (IH _ _ _ _ Hrun) as (added & -> & Hsub & Hfiled & Hext').
      exists added. split; [reflexivity|].
      split; [apply sublist_cons, Hsub|]. split; [exact Hfiled|].
      exact (extends_trans _ _ _ Hext Hext').
Qed.

End RankerFacts.

(** A decoder for the examples: a region without a password. *)
Definition openRegionDecoder : ApiRootNode RegionOuter :=
  {| zero := mkRegionOuter (mkEndoCensusRanks (mkNationList [])) (mkRegionTags []) 0 0;
     xmlUnmarshal := fun body =>
       (mkRegionOuter
          (mkEndoCensusRanks (mkNationList
             [mkNationEndos "anna" 3; mkNationEndos "bert" 1]))
          (mkRegionTags ["Large"]) 2000 1000, None) |}.

(** X8. The loop of the ranker only appends: the list it returns is the
    list it was given followed by new candidates, at most one per approval
    and in the order of the approvals, each with its approving nation as
    delegate, a canonical name and no trigger yet. It takes replies from the
    front of the network only, adds to the trace only, and leaves the user
    agent alone. *)
Theorem ranker_only_appends `{!ApiRootNode WaProposalsOuter}
    `{!ApiRootNode RegionOuter} `{!ApiRootNode NationRegion}
    (isMinor : bool) (maxEndoCount : Z) (approvals : list string)
    (hs out : list Hit) (w w' : World) :
  rankLoop isMinor maxEndoCount approvals hs w = Ret (out, w') ->
  exists added,
    out = (hs ++ added)%list /\
    (Delegate <$> added) `sublist_of` approvals /\
    Forall (fun h => filed (Delegate h) h) added /\
    extends w w'.
Proof. apply rankLoop_appends. Qed.

Definition twoApprovals : World :=
  world [reply 200 calm "The North"; reply 200 calm "open";
         reply 200 calm "Old Keep"; reply 200 calm "open"].

Lemma ranker_only_appends_witness :
  exists added,
    [mkHit "the_north" "anna" EmptyString false 2000 EmptyString 0;
     mkHit "old_keep" "bert" EmptyString false 2000 EmptyString 0]
    = ([] ++ added)%list /\
    (Delegate <$> added) `sublist_of` ["anna"; "bert"] /\
    Forall (fun h => filed (Delegate h) h) added /\
    extends twoApprovals
      (mkWorld "quorate" []
         [EvDo (newRequest "quorate" (Add (Add ∅ "nation" "anna") "q" "region"));
          EvDo (newRequest "quorate" (regionData "The North"));
          EvSleep 1500000000;
          EvDo (newRequest "quorate" (Add (Add ∅ "nation" "bert") "q" "region"));
          EvDo (newRequest "quorate" (regionData "Old Keep"));
          EvSleep 1500000000]).
Proof.
  apply (@ranker_only_appends proposalDecoder openRegionDecoder nameDecoder
           false 5 ["anna"; "bert"] []).
  vm_compute. reflexivity.
Defined.

(** ** The matcher of QUORATE v1.0.0

    The earlier main file has the same matching pass without the
    look-ahead: the body of its loop goes from the index straight to the
    comparison with the candidate under the cursor. *)

Module MainV100.

Definition matchRegion (fuel : nat) (isMinor : bool) (minimumTrigger : Z)
    (firstUpdateTime : Z) (firstUpdateRegion : string)
    (region : RegionDump) (st : MatchState) : Run MatchState :=
  let canon := canonName (rdName region) in
  let regionUpdate := regionUpdateOf isMinor region in
  let m := indexRegion (updateTimes st) regionUpdate canon in
  assignTrigger fuel minimumTrigger firstUpdateTime firstUpdateRegion
    (hittable st) m (hitIndex st) canon regionUpdate.

Fixpoint matchLoop (fuel : nat) (isMinor : bool) (minimumTrigger : Z)
    (firstUpdateTime : Z) (firstUpdateRegion : string)
    (regions : list RegionDump) (st : MatchState) : Run MatchState :=
  match regions with
  | [] => Ret st
  | region :: rest =>
      if Nat.eqb (hitIndex st) (length (hittable st)) then Ret st
      else
        st' ← matchRegion fuel isMinor minimumTrigger firstUpdateTime
                 firstUpdateRegion region st;
        matchLoop fuel isMinor minimumTrigger firstUpdateTime
          firstUpdateRegion rest st'
  end.

Definition matchTriggers (fuel : nat) (isMinor : bool) (minimumTrigger : Z)
    (regions : list RegionDump) (hs : list Hit) : Run (list Hit) :=
  match regions with
  | [] => Panic index_out_of_range
  | first :: _ =>
      let firstUpdateRegion := rdName first in
      let firstUpdateTime := regionUpdateOf isMinor first in
      st ← matchLoop fuel isMinor minimumTrigger firstUpdateTime
              firstUpdateRegion regions
              {| hittable := hs; updateTimes := ∅; hitIndex := 0 |};
      Ret (hittable st)
  end.

End MainV100.

(** ** The matcher, whatever the numbers *)

Lemma lookahead_shape (hs : list Hit) (i idx : nat) (canon : string) :
  lookahead hs i canon = Ret idx ->
  idx = i \/ (idx = S i /\ exists h, hs !! S i = Some h /\ canon = Name h).
Proof.
  unfold lookahead.
  destruct (negb (Z.of_nat i =? Z.of_nat (length hs) - 1));
    [|intros [= <-]; left; reflexivity].
  destruct (hs !! S i) as [h|]; [|discriminate].
  destruct (String.eqb_spec canon (Name h)) as [Heq|_]; intros [= <-].
  - right. split; [reflexivity|]. exists h. split; [reflexivity|exact Heq].
  - left. reflexivity.
Qed.

Lemma assignTrigger_shape fuel mt first fr hs m idx canon ru st' :
  assignTrigger fuel mt first fr hs m idx canon ru = Ret st' ->
  updateTimes st' = m /\
  ((hittable st' = hs /\ hitIndex st' = idx /\
    exists h, hs !! idx = Some h /\ canon <> Name h)
   \/
   (exists h t r,
       hs !! idx = Some h /\ canon = Name h /\
       probe fuel m first fr ru mt 0 = Some (t, r) /\
       hittable st' = <[idx := setTrigger h ru t r]> hs /\
       hitIndex st' = S idx)).
Proof.
  unfold assignTrigger. destruct (hs !! idx) as [h|] eqn:Hh; [|discriminate].
  destruct (String.eqb_spec canon (Name h)) as [Heq|Hne].
  - destruct (probe fuel m first fr ru mt 0) as [[t r]|] eqn:Hprobe;
      [|discriminate].
    intros [= <-]. simpl. split; [reflexivity|]. right.
    exists h, t, r. repeat split; assumption.
  - intros [= <-]. simpl. split; [reflexivity|]. left.
    repeat split. exists h. split; [reflexivity|exact Hne].
Qed.

(** What one iteration that returns has done: filed the record, and either
    left the candidates alone or given one of them, the one under the
    cursor or the next, its trigger. *)
Lemma matchRegion_shape fuel isMinor mt first fr region st st' :
  let canon := canonName (rdName region) in
  let ru := regionUpdateOf isMinor region in
  let m := indexRegion (updateTimes st) ru canon in
  matchRegion fuel isMinor mt first fr region st = Ret st' ->
  updateTimes st' = m /\
  ((hittable st' = hittable st /\ hitIndex st' = hitIndex st)
   \/
   (exists idx h t r,
       (idx = hitIndex st \/ idx = S (hitIndex st)) /\
       hittable st !! idx = Some h /\ canon = Name h /\
       probe fuel m first fr ru mt 0 = Some (t, r) /\
       hittable st' = <[idx := setTrigger h ru t r]> (hittable st) /\
       hitIndex st' = S idx)).
Proof.
  intros canon ru m. unfold matchRegion. fold canon ru m.
  destruct (lookahead (hittable st) (hitIndex st) canon) as [idx| | |] eqn:Hlook;
    try discriminate.
  simpl. intros Hassign.
  destruct (assignTrigger_shape _ _ _ _ _ _ _ _ _ _ Hassign)
    as (Hm & [(Hhs & Hidx & h & Hh & Hne)|(h & t & r & Hh & Heq & Hp & Hhs & Hidx)]).
  - split; [exact Hm|]. left. split; [exact Hhs|].
    destruct (lookahead_shape _ _ _ _ Hlook) as [->|(-> & h' & Hh' & Heq)];
      [exact Hidx|].
    exfalso. apply Hne. congruence.
  - split; [exact Hm|]. right. exists idx, h, t, r.
    split; [|repeat split; assumption].
    destruct (lookahead_shape _ _ _ _ Hlook) as [->|(-> & _)]; auto.
Qed.

Lemma matchRegion_safe fuel isMinor mt first fr region st :
  (hitIndex st < length (hittable st))%nat ->
  matchRegion fuel isMinor mt first fr region st = OutOfFuel \/
  exists st', matchRegion fuel isMinor mt first fr region st = Ret st' /\
              (hitIndex st' <= length (hittable st'))%nat.
Proof.
  intros Hlt. unfold matchRegion.
  destruct (lookahead_cursor (hittable st) (hitIndex st)
              (canonName (rdName region)) Hlt) as (idx & -> & _ & Hidx).
  simpl. unfold assignTrigger.
  destruct (lookup_lt_is_Some_2 _ _ Hidx) as [h ->].
  destruct (String.eqb (canonName (rdName region)) (Name h)).
  - destruct (probe _ _ _ _ _ _ _) as [[t r]|]; [|left; reflexivity].
    right. eexists. split; [reflexivity|]. simpl. rewrite length_insert. lia.
  - right. eexists. split; [reflexivity|]. simpl. lia.
Qed.

Lemma matchLoop_safe fuel isMinor mt first fr rest : forall st,
  (hitIndex st <= length (hittable st))%nat ->
  matchLoop fuel isMinor mt first fr rest st = OutOfFuel \/
  exists st', matchLoop fuel isMinor mt first fr rest st = Ret st'.
Proof.
  induction rest as [|region rest IH]; intros st Hle; simpl.
  - right. eexists. reflexivity.
  - destruct (Nat.eqb_spec (hitIndex st) (length (hittable st))) as [_|Hne].
    + right. eexists. reflexivity.
    + destruct (matchRegion_safe fuel isMinor mt first fr region st ltac:(lia))
        as [->|(st1 & -> & Hle1)]; [left; reflexivity|].
      simpl. apply IH. exact Hle1.
Qed.

(** X9. The matching pass panics exactly when the dump is empty, with the
    index error of [regions[0]], and then whether or not there is any
    candidate; on a dump with a record no read of [hittable] is out of
    range, whatever the candidates, the update times and the lead time. *)
Theorem matcher_panics_on_empty_dump_only (fuel : nat) (isMinor : bool)
    (mt : Z) (regions : list RegionDump) (hs : list Hit) :
  (forall msg, matchTriggers fuel isMinor mt regions hs = Panic msg ->
               regions = [] /\ msg = index_out_of_range) /\
  (regions = [] ->
   matchTriggers fuel isMinor mt regions hs = Panic index_out_of_range) /\
  (forall msg, matchTriggers fuel isMinor mt regions hs <> Fatal msg).
Proof.
  assert (Hsafe : regions <> [] ->
                  matchTriggers fuel isMinor mt regions hs = OutOfFuel \/
                  exists out, matchTriggers fuel isMinor mt regions hs = Ret out).
  { intros Hne. unfold matchTriggers.
    destruct regions as [|r0 rest]; [contradiction|].
    destruct (matchLoop_safe fuel isMinor mt (regionUpdateOf isMinor r0)
                (rdName r0) (r0 :: rest)
                {| hittable := hs; updateTimes := ∅; hitIndex := 0 |})
      as [->|(st' & ->)]; [simpl; lia|left; reflexivity|].
    right. eexists. reflexivity. }
  split; [|split].
  - intros msg Hpanic. destruct regions as [|r0 rest].
    + injection Hpanic as <-. split; reflexivity.
    + destruct Hsafe as [Hrun|(out & Hrun)]; [discriminate|congruence|congruence].
  - intros ->. reflexivity.
  - intros msg Hfatal. destruct regions as [|r0 rest]; [discriminate|].
    destruct Hsafe as [Hrun|(out & Hrun)]; [discriminate|congruence|congruence].
Qed.

Lemma matcher_panics_on_empty_dump_only_witness :
  matchTriggers 5 false 6 [] [] = Panic index_out_of_range.
Proof.
  apply (proj1 (proj2 (matcher_panics_on_empty_dump_only 5 false 6 [] []))).
  reflexivity.
Defined.

(** *** What the pass keeps *)

Definition same_candidate (h h' : Hit) : Prop :=
  Name h' = Name h /\ Delegate h' = Delegate h /\
  SecondNation h' = SecondNation h /\ IsDeltip h' = IsDeltip h.

(** The same candidates at the same places. *)
Definition kept (hs hs' : list Hit) : Prop :=
  length hs' = length hs /\
  forall k h h', hs !! k = Some h -> hs' !! k = Some h' -> same_candidate h h'.

Lemma kept_refl hs : kept hs hs.
Proof.
  split; [reflexivity|]. intros k h h' Hk Hk'.
  assert (h' = h) as -> by congruence. repeat split.
Qed.

Lemma kept_trans hs1 hs2 hs3 : kept hs1 hs2 -> kept hs2 hs3 -> kept hs1 hs3.
Proof.
  intros (Hlen1 & H1) (Hlen2 & H2). split; [congruence|].
  intros k h h'' Hk Hk''.
  destruct (lookup_lt_is_Some_2 hs2 k) as [h' Hk'];
    [rewrite Hlen1; exact (lookup_lt_Some _ _ _ Hk)|].
  destruct (H1 k h h' Hk Hk') as (A1 & A2 & A3 & A4).
  destruct (H2 k h' h'' Hk' Hk'') as (B1 & B2 & B3 & B4).
  repeat split; congruence.
Qed.

Lemma kept_trigger hs idx h ru t r :
  hs !! idx = Some h -> kept hs (<[idx := setTrigger h ru t r]> hs).
Proof.
  intros Hh. split; [apply length_insert|]. intros k h1 h1' Hk Hk'.
  destruct (Nat.eq_dec k idx) as [->|Hne].
  - rewrite list_lookup_insert_eq in Hk' by exact (lookup_lt_Some _ _ _ Hh).
    injection Hk' as <-. assert (h1 = h) as -> by congruence. repeat split.
  - rewrite list_lookup_insert_ne in Hk' by congruence.
    assert (h1' = h1) as -> by congruence. repeat split.
Qed.

(** The cursor only moves forward, and what is behind it stays. *)
Definition advanced (st st' : MatchState) : Prop :=
  kept (hittable st) (hittable st') /\
  (hitIndex st <= hitIndex st')%nat /\
  forall k, (k < hitIndex st)%nat -> hittable st' !! k = hittable st !! k.

Lemma advanced_refl st : advanced st st.
Proof. split; [apply kept_refl|]. split; [lia|reflexivity]. Qed.

Lemma advanced_trans st1 st2 st3 :
  advanced st1 st2 -> advanced st2 st3 -> advanced st1 st3.
Proof.
  intros (K1 & L1 & F1) (K2 & L2 & F2).
  split; [exact (kept_trans _ _ _ K1 K2)|]. split; [lia|].
  intros k Hk. rewrite F2 by lia. apply F1. exact Hk.
Qed.

Lemma matchRegion_advanced fuel isMinor mt first fr region st st' :
  matchRegion fuel isMinor mt first fr region st = Ret st' -> advanced st st'.
Proof.
  intros Hrun.
  destruct (matchRegion_shape _ _ _ _ _ _ _ _ Hrun)
    as (_ & [(Hhs & Hidx)|(idx & h & t & r & Hcur & Hh & _ & _ & Hhs & Hidx)]).
  - unfold advanced. rewrite Hhs, Hidx.
    split; [apply kept_refl|]. split; [lia|reflexivity].
  - unfold advanced. rewrite Hhs, Hidx.
    split; [exact (kept_trigger _ _ _ _ _ _ Hh)|].
    split; [destruct Hcur; lia|].
    intros k Hk. apply list_lookup_insert_ne. destruct Hcur; lia.
Qed.

Lemma matchLoop_advanced fuel isMinor mt first fr rest : forall st st',
  matchLoop fuel isMinor mt first fr rest st = Ret st' -> advanced st st'.
Proof.
  induction rest as [|region rest IH]; intros st st'; simpl.
  - intros [= <-]. apply advanced_refl.
  - destruct (Nat.eqb (hitIndex st) (length (hittable st)));
      [intros [= <-]; apply advanced_refl|].
    destruct (matchRegion fuel isMinor mt first fr region st) as [st1| | |] eqn:Hstep;
      try discriminate.
    simpl. intros Hrest.
    exact (advanced_trans _ _ _ (matchRegion_advanced _ _ _ _ _ _ _ _ Hstep)
             (IH _ _ Hrest)).
Qed.

Lemma matchTriggers_Ret fuel isMinor mt regions hs out :
  matchTriggers fuel isMinor mt regions hs = Ret out ->
  exists r0 st',
    head regions = Some r0 /\
    matchLoop fuel isMinor mt (regionUpdateOf isMinor r0) (rdName r0) regions
      {| hittable := hs; updateTimes := ∅; hitIndex := 0 |} = Ret st' /\
    out = hittable st'.
Proof.
  unfold matchTriggers. destruct regions as [|r0 rest]; [discriminate|].
  destruct (matchLoop _ _ _ _ _ _ _) as [st'| | |] eqn:Hloop; try discriminate.
  intros [= <-]. exists r0, st'. repeat split. exact Hloop.
Qed.

(** X10. The matching pass returns the candidates it was given, as many
    and in the same order, each with the name, the delegate, the second
    nation and the assisted mark it came with: the pass writes nothing but
    update times and triggers. *)
Theorem matcher_keeps_the_candidates (fuel : nat) (isMinor : bool) (mt : Z)
    (regions : list RegionDump) (hs out : list Hit) :
  matchTriggers fuel isMinor mt regions hs = Ret out ->
  length out = length hs /\
  forall k h h', hs !! k = Some h -> out !! k = Some h' ->
    Name h' = Name h /\ Delegate h' = Delegate h /\
    SecondNation h' = SecondNation h /\ IsDeltip h' = IsDeltip h.
Proof.
  intros Hrun.
  destruct (matchTriggers_Ret _ _ _ _ _ _ Hrun) as (r0 & st' & _ & Hloop & ->).
  destruct (matchLoop_advanced _ _ _ _ _ _ _ _ Hloop) as (Hkept & _).
  exact Hkept.
Qed.

Lemma matcher_keeps_the_candidates_witness :
  length [mkHit "c" "n" EmptyString false 1010 "b" 1004] =
  length [candidate "c" "n" 1010] /\
  forall k h h',
    [candidate "c" "n" 1010] !! k = Some h ->
    [mkHit "c" "n" EmptyString false 1010 "b" 1004] !! k = Some h' ->
    Name h' = Name h /\ Delegate h' = Delegate h /\
    SecondNation h' = SecondNation h /\ IsDeltip h' = IsDeltip h.
Proof.
  apply (matcher_keeps_the_candidates 20 false 6 dumpABC).
  vm_compute. reflexivity.
Defined.

(** *** Where a trigger comes from *)

Definition cnameOf (r : RegionDump) : string := canonName (rdName r).

(** The index after the records [seen]. *)
Definition indexOf (isMinor : bool) (seen : list RegionDump) : gmap Z string :=
  foldl (fun m r => indexRegion m (regionUpdateOf isMinor r) (cnameOf r)) ∅ seen.

(** The first of the records updated at [t]. *)
Definition first_at (isMinor : bool) (records : list RegionDump) (t : Z)
  : option RegionDump :=
  find (fun r => regionUpdateOf isMinor r =? t) records.

Lemma index_fold_lookup isMinor (seen : list RegionDump) : forall (m : gmap Z string) t,
  foldl (fun m r => indexRegion m (regionUpdateOf isMinor r) (cnameOf r)) m seen !! t
  = match m !! t with
    | Some r => Some r
    | None => cnameOf <$> first_at isMinor seen t
    end.
Proof.
  induction seen as [|r seen IH]; intros m t; simpl.
  - destruct (m !! t); reflexivity.
  - rewrite IH. unfold indexRegion.
    destruct (m !! regionUpdateOf isMinor r) as [old|] eqn:Hold.
    + destruct (m !! t) eqn:Ht; [reflexivity|].
      destruct (Z.eqb_spec (regionUpdateOf isMinor r) t) as [Heq|_];
        [congruence|reflexivity].
    + destruct (Z.eqb_spec (regionUpdateOf isMinor r) t) as [<-|Hne].
      * rewrite lookup_insert_eq, Hold. reflexivity.
      * rewrite lookup_insert_ne by exact Hne. reflexivity.
Qed.

Lemma indexOf_lookup isMinor seen t :
  indexOf isMinor seen !! t = cnameOf <$> first_at isMinor seen t.
Proof. unfold indexOf. rewrite index_fold_lookup, lookup_empty. reflexivity. Qed.

Lemma indexOf_snoc isMinor seen r :
  indexOf isMinor (seen ++ [r]) =
  indexRegion (indexOf isMinor seen) (regionUpdateOf isMinor r) (cnameOf r).
Proof. unfold indexOf. rewrite foldl_app. reflexivity. Qed.

Lemma probe_sound fuel m first fr ru mt : forall i t r,
  probe fuel m first fr ru mt i = Some (t, r) ->
  m !! t = Some r \/ (t = first /\ r = fr).
Proof.
  induction fuel as [|fuel IH]; intros i t r; simpl; [discriminate|].
  destruct (m !! sub ru (add mt i)) as [found|] eqn:Hlook.
  - intros [= <- <-]. left. exact Hlook.
  - destruct (sub ru (add mt i) <=? first).
    + intros [= <- <-]. right. split; reflexivity.
    + apply IH.
Qed.

(** A candidate with a trigger from the dump: a record carries its name
    and has given it its update time, and its trigger is the first record
    updated at the trigger time among the records up to that one, or it is
    the first record of the dump under its name as written there. *)
Definition placed (isMinor : bool) (regions : list RegionDump) (h' : Hit)
  : Prop :=
  exists before region after,
    regions = (before ++ region :: after)%list /\
    cnameOf region = Name h' /\
    UpdateTime h' = regionUpdateOf isMinor region /\
    ((exists rec, first_at isMinor (before ++ [region]) (TriggerTime h') = Some rec /\
                  TriggerRegion h' = cnameOf rec)
     \/
     (exists r0, head regions = Some r0 /\
                 TriggerTime h' = regionUpdateOf isMinor r0 /\
                 TriggerRegion h' = rdName r0)).

Section PlacedFacts.
Variables (fuel : nat) (isMinor : bool) (mt : Z).
Variables (regions : list RegionDump) (r0 : RegionDump) (hs : list Hit).
Hypothesis Hhead : head regions = Some r0.

Definition placed_inv (st : MatchState) : Prop :=
  forall k h', hittable st !! k = Some h' ->
               hs !! k = Some h' \/ placed isMinor regions h'.

Lemma matchLoop_placed rest : forall seen st st',
  regions = (seen ++ rest)%list ->
  updateTimes st = indexOf isMinor seen ->
  placed_inv st ->
  matchLoop fuel isMinor mt (regionUpdateOf isMinor r0) (rdName r0) rest st
    = Ret st' ->
  placed_inv st'.
Proof using Hhead.
  induction rest as [|region rest IH]; intros seen st st' Hsplit Hidx Hinv; simpl.
  - intros [= <-]. exact Hinv.
  - destruct (Nat.eqb (hitIndex st) (length (hittable st)));
      [intros [= <-]; exact Hinv|].
    destruct (matchRegion _ _ _ _ _ region st) as [st1| | |] eqn:Hstep;
      try discriminate.
    simpl. apply (IH (seen ++ [region])%list).
    + rewrite <- app_assoc. exact Hsplit.
    + destruct (matchRegion_shape _ _ _ _ _ _ _ _ Hstep) as (-> & _).
      rewrite Hidx. symmetry. apply indexOf_snoc.
    + destruct (matchRegion_shape _ _ _ _ _ _ _ _ Hstep)
        as (Hm & [(Hhs & _)|(idx & h & t & r & _ & Hh & Hname & Hprobe & Hhs & _)]).
      * intros k h' Hk. apply Hinv. rewrite <- Hhs. exact Hk.
      * intros k h' Hk. rewrite Hhs in Hk.
        destruct (Nat.eq_dec k idx) as [->|Hne].
        -- rewrite list_lookup_insert_eq in Hk by exact (lookup_lt_Some _ _ _ Hh).
           injection Hk as <-. right.
           exists seen, region, rest. split; [exact Hsplit|].
           split; [exact Hname|]. split; [reflexivity|]. simpl.
           rewrite Hidx, <- indexOf_snoc in Hprobe.
           destruct (probe_sound _ _ _ _ _ _ _ _ _ Hprobe) as [Hfound|(-> & ->)].
           ++ left. rewrite indexOf_lookup in Hfound.
              destruct (first_at isMinor (seen ++ [region]) t) as [rec|];
                [|discriminate].
              injection Hfound as <-. exists rec. split; reflexivity.
           ++ right. exists r0. repeat split. exact Hhead.
        -- rewrite list_lookup_insert_ne in Hk by congruence. apply Hinv, Hk.
Qed.

End PlacedFacts.

(** X11. A candidate that the pass has changed has the update time of a
    record with its name, and its trigger is a record of the dump that is
    not listed after that one: the first record updated at the trigger time
    (of two records updated in the same second the earlier one is the
    trigger), under its canonical name, or the first record of the dump,
    under its name as the dump writes it. *)
Theorem trigger_is_an_earlier_record (fuel : nat) (isMinor : bool) (mt : Z)
    (regions : list RegionDump) (hs out : list Hit) :
  matchTriggers fuel isMinor mt regions hs = Ret out ->
  forall k h', out !! k = Some h' ->
    hs !! k = Some h' \/ placed isMinor regions h'.
Proof.
  intros Hrun.
  destruct (matchTriggers_Ret _ _ _ _ _ _ Hrun) as (r0 & st' & Hhead & Hloop & ->).
  apply (matchLoop_placed fuel isMinor mt regions r0 hs Hhead regions []
           {| hittable := hs; updateTimes := ∅; hitIndex := 0 |} st');
    [reflexivity|reflexivity| |exact Hloop].
  intros k h' Hk. left. exact Hk.
Qed.

Definition dumpTies : list RegionDump :=
  [mkRegionDump "A" 0 1000; mkRegionDump "B One" 0 1004;
   mkRegionDump "B Two" 0 1004; mkRegionDump "C" 0 1010].

Lemma trigger_is_an_earlier_record_witness :
  let h' := mkHit "c" "n" EmptyString false 1010 "b_one" 1004 in
  [candidate "c" "n" 1010] !! 0%nat = Some h' \/ placed false dumpTies h'.
Proof.
  intros h'.
  apply (trigger_is_an_earlier_record 20 false 6 dumpTies
           [candidate "c" "n" 1010] [h']).
  - vm_compute. reflexivity.
  - reflexivity.
Defined.

(** *** What the look-ahead changes *)

Section SkipOne.
Variables (fuel : nat) (isMinor : bool) (mt : Z).
Variables (regions : list RegionDump) (r0 : RegionDump).
Variables (h0 h1 : Hit) (tl : list Hit).
Hypothesis Hmt : 1 <= mt <= max_int.
Hypothesis Hhead : head regions = Some r0.
Hypothesis Hregions : forall r, r ∈ regions ->
  0 <= regionUpdateOf isMinor r <= max_int /\
  regionUpdateOf isMinor r0 <= regionUpdateOf isMinor r /\
  (Z.to_nat (regionUpdateOf isMinor r) < fuel)%nat.

Let hs : list Hit := h0 :: h1 :: tl.


End SkipOne.


Definition dumpAR : list RegionDump :=
  [mkRegionDump "A" 0 1000; mkRegionDump "R" 0 1010].



Lemma blocked_loop fuel isMinor mt first fr (h0 : Hit) (tl : list Hit) rest :
  forall st,
    hittable st = h0 :: tl -> hitIndex st = 0%nat ->
    Name h0 ∉ cnameOf <$> rest ->
    exists m,
      MainV100.matchLoop fuel isMinor mt first fr rest st =
      Ret {| hittable := h0 :: tl; updateTimes := m; hitIndex := 0 |}.
Proof.
  induction rest as [|region rest IH]; intros st Hhs Hidx Hout; simpl.
  - exists (updateTimes st). destruct st. simpl in Hhs, Hidx. subst. reflexivity.
  - rewrite Hidx, Hhs. simpl.
    rewrite fmap_cons in Hout. apply not_elem_of_cons in Hout as [Hne Hout].
    unfold MainV100.matchRegion, assignTrigger. rewrite Hhs, Hidx. simpl.
    destruct (String.eqb_spec (canonName (rdName region)) (Name h0)) as [Heq|_].
    { exfalso. apply Hne. symmetry. exact Heq. }
    simpl. apply IH; [reflexivity|reflexivity|exact Hout].
Qed.

(** X13. In the matcher of v1.0.0 a first candidate that the dump does not
    list stops the pass: the cursor never leaves it and every candidate is
    returned as the ranker made it, whatever the dump lists of the others. *)
Theorem unlisted_candidate_blocks_v100 (fuel : nat) (isMinor : bool) (mt : Z)
    (regions : list RegionDump) (h0 : Hit) (tl : list Hit) :
  regions <> [] ->
  Name h0 ∉ cnameOf <$> regions ->
  MainV100.matchTriggers fuel isMinor mt regions (h0 :: tl) = Ret (h0 :: tl).
Proof.
  intros Hne Hout. unfold MainV100.matchTriggers.
  destruct regions as [|r0 rest] eqn:Hshape; [contradiction|].
  destruct (blocked_loop fuel isMinor mt (regionUpdateOf isMinor r0) (rdName r0)
              h0 tl (r0 :: rest)
              {| hittable := h0 :: tl; updateTimes := ∅; hitIndex := 0 |}
              eq_refl eq_refl Hout) as (m & ->).
  reflexivity.
Qed.

Lemma unlisted_candidate_blocks_v100_witness :
  MainV100.matchTriggers 20 false 6 dumpAR
    (candidate "p" "n1" 0 :: [candidate "r" "n3" 1010])
  = Ret (candidate "p" "n1" 0 :: [candidate "r" "n3" 1010]).
Proof.
  apply (unlisted_candidate_blocks_v100 20 false 6 dumpAR).
  - discriminate.
  - vm_compute. intros Hin.
    repeat (apply elem_of_cons in Hin as [Heq|Hin]; [discriminate Heq|]).
    apply elem_of_nil in Hin. contradiction.
Defined.

(** The cursor stays where it is while the candidates from it on are, in
    their order, among the names still to come and no name comes twice. *)
Lemma in_order_lookahead (hs : list Hit) (i : nat) (c : string)
    (names : list string) :
  (i < length hs)%nat ->
  NoDup (c :: names) ->
  (Name <$> drop i hs) `sublist_of` (c :: names) ->
  lookahead hs i c = Ret i.
Proof.
  intros Hlt Hnodup Hnames. apply lookahead_stay; [exact Hlt|].
  intros h Hh Heq.
  apply NoDup_cons in Hnodup as [Hfresh _]. apply Hfresh.
  destruct (lookup_lt_is_Some_2 _ _ Hlt) as [hi Hhi].
  rewrite (drop_S _ _ _ Hhi) in Hnames. simpl in Hnames.
  assert (Hmem : c ∈ Name <$> drop (S i) hs).
  { rewrite <- Heq. apply list_elem_of_fmap_2.
    apply list_elem_of_lookup. exists 0%nat.
    rewrite lookup_drop, Nat.add_0_r. exact Hh. }
  apply sublist_cons_r in Hnames as [Hall|(l' & Hl' & Hrest)].
  - exact (elem_of_sublist _ _ _ (list_elem_of_further _ _ _ Hmem) Hall).
  - injection Hl' as _ <-. exact (elem_of_sublist _ _ _ Hmem Hrest).
Qed.

Lemma agree_loop fuel isMinor mt first fr rest : forall st,
  (hitIndex st <= length (hittable st))%nat ->
  NoDup (cnameOf <$> rest) ->
  (Name <$> drop (hitIndex st) (hittable st)) `sublist_of` (cnameOf <$> rest) ->
  MainV100.matchLoop fuel isMinor mt first fr rest st =
  matchLoop fuel isMinor mt first fr rest st.
Proof.
  induction rest as [|region rest IH]; intros st Hle Hnodup Hnames; simpl;
    [reflexivity|].
  destruct (Nat.eqb_spec (hitIndex st) (length (hittable st))) as [_|Hmore];
    [reflexivity|].
  assert (Hlt : (hitIndex st < length (hittable st))%nat) by lia.
  rewrite fmap_cons in Hnodup, Hnames.
  assert (Hsame : matchRegion fuel isMinor mt first fr region st =
                  MainV100.matchRegion fuel isMinor mt first fr region st).
  { pose proof (in_order_lookahead _ _ _ _ Hlt Hnodup Hnames) as Hstay.
    unfold cnameOf in Hstay.
    unfold matchRegion, MainV100.matchRegion. rewrite Hstay. reflexivity. }
  rewrite Hsame.
  destruct (MainV100.matchRegion fuel isMinor mt first fr region st)
    as [st1| | |] eqn:Hstep; try reflexivity.
  simpl. unfold MainV100.matchRegion in Hstep.
  destruct (lookup_lt_is_Some_2 _ _ Hlt) as [hi Hhi].
  rewrite (drop_S _ _ _ Hhi) in Hnames. simpl in Hnames.
  pose proof Hnodup as Hnd. apply NoDup_cons in Hnd as [Hfresh Hnd].
  apply sublist_cons_r in Hnames.
  destruct (assignTrigger_shape _ _ _ _ _ _ _ _ _ _ Hstep)
    as (_ & [(Hhs & Hidx & h & Hh & Hne)|(h & t & r & Hh & Heq & _ & Hhs & Hidx)]).
  - apply IH; [rewrite Hhs, Hidx; lia|exact Hnd|].
    rewrite Hhs, Hidx, (drop_S _ _ _ Hhi). simpl.
    destruct Hnames as [Hall|(l' & Hl' & _)]; [exact Hall|].
    exfalso. apply Hne. injection Hl' as Hl' _. unfold cnameOf in Hl'.
    congruence.
  - apply IH; [rewrite Hhs, Hidx, length_insert; lia|exact Hnd|].
    rewrite Hhs, Hidx, drop_insert_lt by lia.
    destruct Hnames as [Hall|(l' & Hl' & Hrest)].
    + exfalso. apply Hfresh. assert (hi = h) as -> by congruence.
      fold (cnameOf region) in Heq. rewrite Heq.
      exact (elem_of_sublist _ _ _ (list_elem_of_here _ _) Hall).
    + injection Hl' as _ <-. exact Hrest.
Qed.

(** X14. When the candidates are, in their order, among the records of a
    dump in which no name comes twice, the look-ahead never moves the
    cursor: the matcher of v1.0.4 and the matcher of v1.0.0 give the same
    outcome, whatever the update times, the lead time and the fuel. *)
Theorem lookahead_idle_in_dump_order (fuel : nat) (isMinor : bool) (mt : Z)
    (regions : list RegionDump) (hs : list Hit) :
  NoDup (cnameOf <$> regions) ->
  (Name <$> hs) `sublist_of` (cnameOf <$> regions) ->
  matchTriggers fuel isMinor mt regions hs =
  MainV100.matchTriggers fuel isMinor mt regions hs.
Proof.
  intros Hnodup Hnames. unfold matchTriggers, MainV100.matchTriggers.
  destruct regions as [|r0 rest]; [reflexivity|].
  rewrite (agree_loop fuel isMinor mt (regionUpdateOf isMinor r0) (rdName r0)
             (r0 :: rest) {| hittable := hs; updateTimes := ∅; hitIndex := 0 |});
    [reflexivity|simpl; lia|exact Hnodup|exact Hnames].
Qed.

Lemma lookahead_idle_in_dump_order_witness :
  matchTriggers 20 false 6 dumpABC [candidate "b" "n1" 1004; candidate "c" "n2" 1010]
  = MainV100.matchTriggers 20 false 6 dumpABC
      [candidate "b" "n1" 1004; candidate "c" "n2" 1010].
Proof.
  apply (lookahead_idle_in_dump_order 20 false 6 dumpABC).
  - vm_compute. repeat constructor; intros Hin;
      repeat (apply elem_of_cons in Hin as [Heq|Hin]; [discriminate Heq|]);
      apply elem_of_nil in Hin; contradiction.
  - vm_compute. apply sublist_cons, sublist_skip, sublist_skip, sublist_nil.
Defined.




(** ** The questions [main] asks

    The loops that fill in what the flags have left open. The terminal is
    the lines still to be read from standard input and what has happened on
    it; the lines of the log are left out, as everywhere. A loop that is
    still asking when the input has ended never ends. Only this part of
    the set-up is modelled: [SetUserAgent] is called on the answer to the
    first question, and the questions about the dump file follow. *)

Module Setup.
Import GoInt GoStrings Strconv NsClient.

Inductive TermEvent :=
| Printed (s : string)
| Paused (d : Z).

Record Terminal := mkTerminal {
  stdin : list string;
  screen : list TermEvent
}.

Definition pause (d : Z) (t : Terminal) : Terminal :=
  mkTerminal (stdin t) (screen t ++ [Paused d])%list.

(** [for value == "" { fmt.Print(prompt); scanner.Scan();
    value = scanner.Text(); time.Sleep(50 * time.Millisecond) }] *)
Fixpoint askText (prompt : string) (value : string)
    (lines : list string) (shown : list TermEvent) : Run (string * Terminal) :=
  if String.eqb value EmptyString then
    match lines with
    | [] => OutOfFuel
    | line :: rest =>
        askText prompt line rest
          (shown ++ [Printed prompt; Paused (50 * Millisecond)])%list
    end
  else Ret (value, mkTerminal lines shown).

(** [for s := ""; err != nil || value < 1; value, err = strconv.Atoi(s)
    { fmt.Print(prompt); scanner.Scan(); s = strings.ToLower(scanner.Text());
    time.Sleep(50 * time.Millisecond) }] *)
Fixpoint askCount (prompt : string) (value : Z) (err : option string)
    (lines : list string) (shown : list TermEvent) : Run (Z * Terminal) :=
  if match err with Some _ => true | None => false end || (value <? 1) then
    match lines with
    | [] => OutOfFuel
    | line :: rest =>
        let '(value', err') := Atoi (ToLower line) in
        askCount prompt value' err' rest
          (shown ++ [Printed prompt; Paused (50 * Millisecond)])%list
    end
  else Ret (value, mkTerminal lines shown).

(** [for choice != "major" && choice != "minor" { ... }] *)
Fixpoint askUpdate (prompt : string) (choice : string)
    (lines : list string) (shown : list TermEvent) : Run (string * Terminal) :=
  if negb (String.eqb choice "major") && negb (String.eqb choice "minor") then
    match lines with
    | [] => OutOfFuel
    | line :: rest =>
        askUpdate prompt (ToLower line) rest
          (shown ++ [Printed prompt; Paused (50 * Millisecond)])%list
    end
  else Ret (choice, mkTerminal lines shown).

Record Config := mkConfig {
  cfgUserAgent : string;
  cfgProposalId : string;
  cfgMaxEndoCount : Z;
  cfgMinimumTrigger : Z;
  cfgIsMinor : bool
}.

(** From the first question to the choice of the update. The arguments
    are the variables as [flagSet.Parse] has left them, and whether the
    flag [minor] was passed. *)
Definition configure (userAgent proposalId : string)
    (maxEndoCount minimumTrigger : Z) (isMinor minorPassed : bool)
    (t : Terminal) : Run (Config * Terminal) :=
  '(userAgent, t) ← askText "Enter your main nation: " userAgent
                       (stdin t) (screen t);
  let t := pause (500 * Millisecond) t in
  '(proposalId, t) ←
     askText "Enter a World Assembly Proposal ID (e.g. proposal_id_12312312): "
       proposalId (stdin t) (screen t);
  let t := pause (500 * Millisecond) t in
  '(maxEndoCount, t) ← askCount "Enter the endo count: " maxEndoCount None
                          (stdin t) (screen t);
  let t := pause (500 * Millisecond) t in
  '(minimumTrigger, t) ← askCount "Enter the minimum trigger time: "
                            minimumTrigger None (stdin t) (screen t);
  let t := pause (500 * Millisecond) t in
  if minorPassed
  then Ret (mkConfig userAgent proposalId maxEndoCount minimumTrigger isMinor, t)
  else
    '(choice, t) ←
       askUpdate "Which update do you want to search for? (minor/major) "
         EmptyString (stdin t) (screen t);
    Ret (mkConfig userAgent proposalId maxEndoCount minimumTrigger
           (String.eqb choice "minor"), t).

End Setup.

Import Setup.

Lemma wrap64_in_range z : in_range (wrap64 z).
Proof.
  unfold wrap64, in_range, min_int, max_int.
  pose proof (Z.mod_pos_bound (z + 2 ^ 63) (2 ^ 64)). lia.
Qed.

Lemma digits_in_range s : forall n r,
  in_range n -> digits n s = Some r -> in_range r.
Proof.
  induction s as [|c s IH]; intros n r Hn; simpl.
  - intros [= <-]. exact Hn.
  - destruct (digit_of c) as [d|]; [|discriminate].
    apply IH. apply wrap64_in_range.
Qed.

Lemma ParseInt_in_range s : in_range (fst (ParseInt s)).
Proof.
  unfold ParseInt. destruct s as [|c s']; [simpl; range_solve|].
  destruct (if Ascii.eqb c "+" then (false, s')
            else if Ascii.eqb c "-" then (true, s') else (false, String c s'))
    as [neg body].
  assert (Hend : forall un,
    in_range (fst (if negb neg && (2 ^ 63 <=? un) then (2 ^ 63 - 1, Some ErrRange)
                   else if neg && (2 ^ 63 <? un) then (- 2 ^ 63, Some ErrRange)
                   else let n := wrap64 un in
                        (if neg then neg64 n else n, None)))).
  { intros un. destruct (negb neg && (2 ^ 63 <=? un)); [simpl; range_solve|].
    destruct (neg && (2 ^ 63 <? un)); [simpl; range_solve|].
    simpl. destruct neg; apply wrap64_in_range. }
  destruct (ParseUint body) as [un [e|]]; [|apply Hend].
  destruct (negb (String.eqb e ErrRange)); [simpl; range_solve|apply Hend].
Qed.

Lemma Atoi_in_range s : in_range (fst (Atoi s)).
Proof.
  unfold Atoi.
  destruct ((0 <? Z.of_nat (String.length s)) && (Z.of_nat (String.length s) <? 19));
    [|apply ParseInt_in_range].
  destruct s as [|c s']; [simpl; range_solve|].
  destruct (_ && _); [simpl; range_solve|].
  destruct (digits 0 _) as [n|] eqn:Hdigits; [|simpl; range_solve].
  assert (Hn : in_range n).
  { eapply (digits_in_range _ 0 n); [range_solve|exact Hdigits]. }
  simpl. destruct (Ascii.eqb c "-"); [apply wrap64_in_range|exact Hn].
Qed.

(** The lines [used] have been read. *)
Definition read_from (lines : list string) (t' : Terminal) : Prop :=
  exists used, lines = (used ++ stdin t')%list.

Lemma read_from_cons line rest t' : read_from rest t' -> read_from (line :: rest) t'.
Proof. intros (used & ->). exists (line :: used). reflexivity. Qed.

Lemma askText_answer prompt lines : forall value shown value' t',
  askText prompt value lines shown = Ret (value', t') ->
  value' <> EmptyString /\ read_from lines t' /\
  (value <> EmptyString -> value' = value /\ stdin t' = lines).
Proof.
  induction lines as [|line rest IH]; intros value shown value' t'; simpl;
    destruct (String.eqb_spec value EmptyString) as [->|Hne]; try discriminate.
  - intros [= <- <-]. split; [exact Hne|]. split; [exists []; reflexivity|].
    intros _. split; reflexivity.
  - intros Hrun. destruct (IH _ _ _ _ Hrun) as (Hv & Hread & _).
    split; [exact Hv|]. split; [exact (read_from_cons _ _ _ Hread)|].
    intros Habs. contradiction.
  - intros [= <- <-]. split; [exact Hne|]. split; [exists []; reflexivity|].
    intros _. split; reflexivity.
Qed.

Lemma askCount_answer prompt lines : forall value err shown value' t',
  (err = None -> in_range value) ->
  askCount prompt value err lines shown = Ret (value', t') ->
  1 <= value' <= max_int /\ read_from lines t' /\
  (err = None -> 1 <= value -> value' = value /\ stdin t' = lines).
Proof.
  induction lines as [|line rest IH]; intros value err shown value' t' Hrange;
    simpl.
  - destruct err as [e|]; simpl; [discriminate|].
    destruct (Z.ltb_spec value 1); [discriminate|].
    intros [= <- <-]. specialize (Hrange eq_refl).
    split; [range_solve|]. split; [exists []; reflexivity|].
    intros _ _. split; reflexivity.
  - destruct err as [e|]; simpl.
    + destruct (Atoi (ToLower line)) as [v e'] eqn:Hparse. intros Hrun.
      destruct (IH v e' _ _ _ (fun _ => eq_ind _ (fun p => in_range (fst p))
                                          (Atoi_in_range _) _ Hparse) Hrun)
        as (Hv & Hread & _).
      split; [exact Hv|]. split; [exact (read_from_cons _ _ _ Hread)|].
      discriminate.
    + destruct (Z.ltb_spec value 1).
      * destruct (Atoi (ToLower line)) as [v e'] eqn:Hparse. intros Hrun.
        destruct (IH v e' _ _ _ (fun _ => eq_ind _ (fun p => in_range (fst p))
                                            (Atoi_in_range _) _ Hparse) Hrun)
          as (Hv & Hread & _).
        split; [exact Hv|]. split; [exact (read_from_cons _ _ _ Hread)|].
        intros _ Hge. lia.
      * intros [= <- <-]. specialize (Hrange eq_refl).
        split; [range_solve|]. split; [exists []; reflexivity|].
        intros _ _. split; reflexivity.
Qed.

Lemma askUpdate_answer prompt lines : forall c shown c' t',
  askUpdate prompt c lines shown = Ret (c', t') ->
  (c' = "major" \/ c' = "minor") /\ read_from lines t'.
Proof.
  induction lines as [|line rest IH]; intros c shown c' t'; simpl;
    destruct (String.eqb_spec c "major") as [Hmajor|Hmajor];
    destruct (String.eqb_spec c "minor") as [Hminor|Hminor];
    simpl; try discriminate;
    try (intros [= <- <-]; split; [auto|exists []; reflexivity]).
  intros Hrun. destruct (IH _ _ _ _ Hrun) as (Hc & Hread).
  split; [exact Hc|exact (read_from_cons _ _ _ Hread)].
Qed.

Lemma read_from_trans lines t1 t2 :
  read_from lines t1 -> read_from (stdin t1) t2 -> read_from lines t2.
Proof.
  intros (u1 & ->) (u2 & ->). exists (u1 ++ u2)%list. apply app_assoc.
Qed.

(** X16. What the questions hand to the rest of [main], when they end: a
    nation and a proposal id that are not empty, and an endorsement count
    and a lead time that are at least 1 (the bound the matcher needs); the
    lines read are taken from the front of the input. When the flags have
    set all five, nothing is asked and nothing is read. *)
Theorem setup_gives_valid_configuration (userAgent proposalId : string)
    (maxEndoCount minimumTrigger : Z) (isMinor minorPassed : bool)
    (t t' : Terminal) (cfg : Config) :
  in_range maxEndoCount -> in_range minimumTrigger ->
  configure userAgent proposalId maxEndoCount minimumTrigger isMinor
    minorPassed t = Ret (cfg, t') ->
  cfgUserAgent cfg <> EmptyString /\
  cfgProposalId cfg <> EmptyString /\
  1 <= cfgMaxEndoCount cfg <= max_int /\
  1 <= cfgMinimumTrigger cfg <= max_int /\
  read_from (stdin t) t' /\
  (userAgent <> EmptyString -> proposalId <> EmptyString ->
   1 <= maxEndoCount -> 1 <= minimumTrigger -> minorPassed = true ->
   cfg = mkConfig userAgent proposalId maxEndoCount minimumTrigger isMinor /\
   stdin t' = stdin t).
Proof.
  intros He Hm. unfold configure, mbind, run_bind.
  destruct (askText _ userAgent _ _) as [[ua t1]| | |] eqn:H1; try discriminate.
  destruct (askText _ proposalId _ _) as [[pid t2]| | |] eqn:H2; try discriminate.
  destruct (askCount _ maxEndoCount _ _ _) as [[endos t3]| | |] eqn:H3;
    try discriminate.
  destruct (askCount _ minimumTrigger _ _ _) as [[lead t4]| | |] eqn:H4;
    try discriminate.
  destruct (askText_answer _ _ _ _ _ _ H1) as (A1 & R1 & S1).
  destruct (askText_answer _ _ _ _ _ _ H2) as (A2 & R2 & S2).
  destruct (askCount_answer _ _ _ _ _ _ _ (fun _ => He) H3) as (A3 & R3 & S3).
  destruct (askCount_answer _ _ _ _ _ _ _ (fun _ => Hm) H4) as (A4 & R4 & S4).
  simpl in R2, R3, R4, S2, S3, S4.
  pose proof (read_from_trans _ _ _ (read_from_trans _ _ _
                (read_from_trans _ _ _ R1 R2) R3) R4) as Rall.
  destruct minorPassed.
  - intros [= <- <-]. simpl.
    repeat (split; [assumption|]).
    intros Hua Hpid Hendos Hlead _.
    destruct (S1 Hua) as (-> & E1). destruct (S2 Hpid) as (-> & E2).
    destruct (S3 eq_refl Hendos) as (-> & E3).
    destruct (S4 eq_refl Hlead) as (-> & E4).
    split; [reflexivity|]. congruence.
  - destruct (askUpdate _ _ _ _) as [[c t5]| | |] eqn:H5; try discriminate.
    destruct (askUpdate_answer _ _ _ _ _ _ H5) as (_ & R5). simpl in R5.
    intros [= <- <-]. simpl.
    repeat (split; [assumption|]).
    split; [exact (read_from_trans _ _ _ Rall R5)|].
    intros _ _ _ _ Habs. discriminate Habs.
Qed.

Lemma setup_gives_valid_configuration_witness :
  let cfg := mkConfig "Testlandia" "some_proposal_1" 5 6 true in
  cfgUserAgent cfg <> EmptyString /\
  cfgProposalId cfg <> EmptyString /\
  1 <= cfgMaxEndoCount cfg <= max_int /\
  1 <= cfgMinimumTrigger cfg <= max_int /\
  read_from
    [EmptyString; "Testlandia"; "some_proposal_1"; "five"; "0"; "5"; "Minor"; "left"]
    (mkTerminal ["left"]
       (let tick := Paused 50000000 in
        let nation := Printed "Enter your main nation: " in
        let proposal :=
          Printed "Enter a World Assembly Proposal ID (e.g. proposal_id_12312312): " in
        let endos := Printed "Enter the endo count: " in
        let update :=
          Printed "Which update do you want to search for? (minor/major) " in
        [nation; tick; nation; tick; Paused 500000000;
         proposal; tick; Paused 500000000;
         endos; tick; endos; tick; endos; tick; Paused 500000000;
         Paused 500000000;
         update; tick])) /\
  (EmptyString <> EmptyString -> EmptyString <> EmptyString ->
   1 <= -1 -> 1 <= 6 -> false = true ->
   cfg = mkConfig EmptyString EmptyString (-1) 6 false /\
   ["left"] =
   [EmptyString; "Testlandia"; "some_proposal_1"; "five"; "0"; "5"; "Minor"; "left"]).
Proof.
  apply (setup_gives_valid_configuration EmptyString EmptyString (-1) 6 false false
           (mkTerminal
              [EmptyString; "Testlandia"; "some_proposal_1"; "five"; "0"; "5";
               "Minor"; "left"] [])).
  - unfold in_range, min_int, max_int. lia.
  - unfold in_range, min_int, max_int. lia.
  - vm_compute. reflexivity.
Defined.

(** A line that the count question does not take. *)
Definition refused (line : string) : Prop :=
  snd (Atoi (ToLower line)) <> None \/ fst (Atoi (ToLower line)) < 1.

(** X17. The count question reads on until a line is a number of at least
    1 and returns that number: the lines before it that are not numbers or
    are below 1 cost one prompt and one pause each and are dropped, and the
    lines after it are left on the input. *)
Theorem count_question_takes_first_number (prompt : string)
    (bad : list string) (good : string) (rest : list string) (v : Z) :
  forall (value : Z) (err : option string) (shown : list TermEvent),
    err <> None \/ value < 1 ->
    Forall refused bad ->
    Atoi (ToLower good) = (v, None) -> 1 <= v ->
    askCount prompt value err (bad ++ good :: rest) shown =
      Ret (v, mkTerminal rest
                (shown ++ concat (replicate (S (length bad))
                                    [Printed prompt; Paused (50 * Millisecond)]))%list).
Proof.
  assert (Hask : forall (value : Z) (err : option string),
            err <> None \/ value < 1 ->
            (match err with Some _ => true | None => false end || (value <? 1)) = true).
  { intros value err [Herr|Hlow].
    - destruct err; [reflexivity|contradiction].
    - destruct err; [reflexivity|]. simpl. apply Z.ltb_lt. exact Hlow. }
  induction bad as [|line bad IH]; intros value err shown Hopen Hbad Hgood Hv.
  - simpl. rewrite (Hask _ _ Hopen), Hgood.
    destruct rest; simpl; destruct (Z.ltb_spec v 1); try lia; reflexivity.
  - apply Forall_cons in Hbad as [Hline Hbad].
    simpl. rewrite (Hask _ _ Hopen).
    destruct (Atoi (ToLower line)) as [v' e'] eqn:Hparse.
    rewrite (IH v' e' _); [|unfold refused in Hline; rewrite Hparse in Hline;
                             exact Hline|exact Hbad|exact Hgood|exact Hv].
    rewrite <- app_assoc. reflexivity.
Qed.

Lemma count_question_takes_first_number_witness :
  askCount "Enter the endo count: " (-1) None
    (["five"; "0"; "-3"] ++ "12" :: ["next"]) [] =
  Ret (12, mkTerminal ["next"]
             ([] ++ concat (replicate (S (length ["five"; "0"; "-3"]))
                              [Printed "Enter the endo count: ";
                               Paused (50 * Millisecond)]))%list).
Proof.
  apply (count_question_takes_first_number "Enter the endo count: "
           ["five"; "0"; "-3"] "12" ["next"] 12 (-1) None []).
  - right. lia.
  - constructor; [left; vm_compute; discriminate|].
    constructor; [right; vm_compute; reflexivity|].
    constructor; [right; vm_compute; reflexivity|constructor].
  - reflexivity.
  - lia.
Defined.

(** ** The trigger list

    The text that [main] writes to [trigger_list.txt]: the builder gets
    the trigger region of each candidate and a line feed. The main file of
    v1.0.4 passes over the candidates without a trigger region, that of
    v1.0.0 writes them all. *)

Module Report.

Definition newline : ascii := "010"%char.

Fixpoint triggerList (hs : list Hit) : string :=
  match hs with
  | [] => EmptyString
  | hit :: rest =>
      if String.eqb (TriggerRegion hit) EmptyString then triggerList rest
      else ((TriggerRegion hit ++ String newline EmptyString)
            ++ triggerList rest)%string
  end.

Fixpoint triggerListV100 (hs : list Hit) : string :=
  match hs with
  | [] => EmptyString
  | hit :: rest =>
      ((TriggerRegion hit ++ String newline EmptyString)
       ++ triggerListV100 rest)%string
  end.

End Report.

Import Report.

Lemma split_go_field sep a : forall cur s,
  has_byte sep a = false ->
  split_go sep cur (a ++ String sep s) =
  (cur ++ a)%string :: split_go sep EmptyString s.
Proof.
  induction a as [|x a IH]; intros cur s Hclean.
  - rewrite string_nil_app, string_app_nil_r. simpl.
    rewrite Ascii.eqb_refl. reflexivity.
  - simpl in Hclean. apply orb_false_iff in Hclean as [Hx Ha].
    rewrite string_cons_app. simpl. rewrite Hx.
    rewrite (IH _ _ Ha), <- string_app_assoc. reflexivity.
Qed.

(** X18. As long as no trigger region holds a line feed, the trigger list
    read line by line is the trigger regions of the candidates that have
    one, in the order of the candidates, each on its line with nothing
    between; the list of v1.0.0 has a line for every candidate, an empty
    one for a candidate without a trigger. *)
Theorem trigger_list_lines (hs : list Hit) :
  Forall (fun h => has_byte newline (TriggerRegion h) = false) hs ->
  Split (triggerList hs) newline =
    (List.filter (fun r => negb (String.eqb r EmptyString))
       (TriggerRegion <$> hs) ++ [EmptyString])%list /\
  Split (triggerListV100 hs) newline =
    ((TriggerRegion <$> hs) ++ [EmptyString])%list.
Proof.
  unfold Split. intros Hclean. induction Hclean as [|h hs Hh _ [IH1 IH2]].
  - split; reflexivity.
  - split.
    + simpl. destruct (String.eqb (TriggerRegion h) EmptyString); simpl;
        [exact IH1|].
      rewrite <- string_app_assoc, string_cons_app, string_nil_app.
      rewrite (split_go_field _ _ _ _ Hh), IH1. reflexivity.
    + simpl.
      rewrite <- string_app_assoc, string_cons_app, string_nil_app.
      rewrite (split_go_field _ _ _ _ Hh), IH2. reflexivity.
Qed.

Lemma trigger_list_lines_witness :
  let hs := [mkHit "x" "n1" EmptyString false 1010 "a" 1000;
             candidate "y" "n2" 1010;
             mkHit "z" "n3" EmptyString false 1020 "b_one" 1004] in
  Split (triggerList hs) newline =
    (List.filter (fun r => negb (String.eqb r EmptyString))
       (TriggerRegion <$> hs) ++ [EmptyString])%list /\
  Split (triggerListV100 hs) newline =
    ((TriggerRegion <$> hs) ++ [EmptyString])%list.
Proof.
  intros hs. apply (trigger_list_lines hs).
  repeat constructor.
Defined.

(** ** The reply that is returned, and the reply that is asked again *)

(** X19. A reply with status 200 and a budget above 7 ends the call at
    once, without a sleep: the decoded body is returned when the body could
    be read and decoded, and otherwise the error of the read or of the
    decoder, with the zero value in place of whatever the decoder had
    filled in. *)
Theorem ok_reply_is_decoded {T : Type} `{!ApiRootNode T}
    (data : gmap string (list string)) (w : World)
    (result : Response) (rest : list DoResult) :
  let after := mkWorld (userAgent w) rest
                 (trace w ++ [EvDo (newRequest (userAgent w) data)])%list in
  userAgent w <> EmptyString ->
  network w = DoOk result :: rest ->
  StatusCode result = StatusOK ->
  7 < fst (Atoi (Get (Header result) "RateLimit-Remaining")) ->
  (forall e, bodyErr result = Some e ->
     makeAPIRequest data w = Ret ((zero, Some e), after)) /\
  (forall k e, bodyErr result = None ->
     xmlUnmarshal (Body result) = (k, Some e) ->
     makeAPIRequest data w = Ret ((zero, Some e), after)) /\
  (forall k, bodyErr result = None ->
     xmlUnmarshal (Body result) = (k, None) ->
     makeAPIRequest data w = Ret ((k, None), after)).
Proof.
  intros after Hua Hnet Hcode Hhigh.
  assert (Hrun : makeAPIRequest data w = respond result after).
  { rewrite (makeAPIRequest_loop data w Hua), Hnet. simpl. rewrite Hcode. simpl.
    unfold finish, mbind, client_bind.
    rewrite (slowdown_high result _ Hhigh). reflexivity. }
  rewrite Hrun. unfold respond. rewrite Hcode. simpl.
  split; [|split].
  - intros e ->. reflexivity.
  - intros k e -> ->. reflexivity.
  - intros k -> ->. reflexivity.
Qed.

Lemma ok_reply_is_decoded_witness :
  @makeAPIRequest WaProposalsOuter proposalDecoder (proposalsData "2")
    (world [reply 200 calm "<garbled"; reply 200 calm "council"])
  = Ret ((@zero WaProposalsOuter proposalDecoder, Some "EOF"),
         mkWorld "quorate" [reply 200 calm "council"]
           ([] ++ [EvDo (newRequest "quorate" (proposalsData "2"))])%list).
Proof.
  refine (proj1 (proj2 (@ok_reply_is_decoded WaProposalsOuter proposalDecoder
            (proposalsData "2")
            (world [reply 200 calm "<garbled"; reply 200 calm "council"])
            (mkResponse 200 EmptyString
               (foldr (fun kv m => Add m (fst kv) (snd kv)) ∅ calm)
               "<garbled" None)
            [reply 200 calm "council"] _ eq_refl eq_refl _))
          (mkWaProposalsOuter (mkWaProposalList [])) "EOF" eq_refl eq_refl).
  - discriminate.
  - vm_compute. reflexivity.
Defined.

(** X20. A 429 reply whose [Retry-After] header is missing or is not a
    number (an HTTP date, say) is followed by the next call of [Do] at
    once: the error of the conversion is dropped and the sleep is of
    length 0. The whole run on such a reply followed by a reply that is
    not a 429: the request, a sleep of 0, the request again with its body
    read, and then what the loop does with the second reply. *)
Theorem retry_without_header_is_immediate {T : Type} `{!ApiRootNode T}
    (data : gmap string (list string)) (w : World)
    (result : Response) (last : DoResult) (rest : list DoResult) :
  userAgent w <> EmptyString ->
  network w = DoOk result :: last :: rest ->
  StatusCode result = StatusTooManyRequests ->
  Header result !! "Retry-After" = None \/
  snd (Atoi (Get (Header result) "Retry-After")) = Some ErrSyntax ->
  ~ is429 last ->
  let req := newRequest (userAgent w) data in
  makeAPIRequest data w =
    conclude last
      (mkWorld (userAgent w) rest
         (trace w ++ [EvDo req; EvSleep 0; EvDo (drain req)])%list).
Proof.
  intros Hua Hnet Hcode Hheader Hlast req.
  assert (Hzero : retryWait result = 0).
  { unfold retryWait. destruct Hheader as [Habsent|Hsyntax].
    - rewrite (Get_absent _ _ Habsent). reflexivity.
    - rewrite (Atoi_syntax_zero _ Hsyntax). reflexivity. }
  rewrite (makeAPIRequest_loop data w Hua), Hnet. fold req.
  rewrite (requestLoop_retries req _ result [] (last :: rest) (trace w))
    by (repeat constructor; exact Hcode).
  rewrite Hzero.
  rewrite (requestLoop_last _ _ last rest _ Hlast).
  unfold retryEvents. simpl flat_map.
  rewrite <- !app_assoc. reflexivity.
Qed.

Lemma retry_without_header_is_immediate_witness :
  @makeAPIRequest NationRegion nameDecoder regionQuery
    (world [reply 429 [("Retry-After", "Fri, 31 Dec 1999 23:59:59 GMT")] EmptyString;
            reply 200 calm "the_north"])
  = @conclude NationRegion nameDecoder (reply 200 calm "the_north")
      (mkWorld "quorate" []
         ([] ++ [EvDo (newRequest "quorate" regionQuery); EvSleep 0;
                 EvDo (drain (newRequest "quorate" regionQuery))])%list).
Proof.
  apply (@retry_without_header_is_immediate NationRegion nameDecoder regionQuery
           (world [reply 429 [("Retry-After", "Fri, 31 Dec 1999 23:59:59 GMT")]
                     EmptyString;
                   reply 200 calm "the_north"])
           (mkResponse 429 EmptyString
              (Add ∅ "Retry-After" "Fri, 31 Dec 1999 23:59:59 GMT")
              EmptyString None)
           (reply 200 calm "the_north") []).
  - discriminate.
  - reflexivity.
  - reflexivity.
  - right. vm_compute. reflexivity.
  - unfold is429. simpl. discriminate.
Defined.
